(** * Hippocampal memory server: the memory graph engine

    A shallow embedding of the tool handlers of the hippocampal memory
    server (encode_memory, recall_memory, evolve_bond in the main server
    file; hippocampus_write_event and hippocampus_search_events in the
    hippocampus extension) over an explicit model of the graph store.

    Modelling conventions.
    - A JavaScript number of a payload (valence, significance, strength,
      intensity) is the rational [Q] it denotes; the integers a caller
      passes (limit) are [Z]; instants (ISO 8601 strings passed through
      [datetime()]) are [Z] ticks.  Numbers are finite.  A number of the
      store is a Float ([VNum]) or an Integer ([VInt]); the driver sends
      every JavaScript number as a Float, also a whole one ([js_number]),
      and no handler wraps a number in [neo4j.int].  Arithmetic on Floats
      rounds to binary64 ([to_double]).
    - An optional argument is an [option]; the JavaScript idiom [x || null]
      is written out ([or_null_num], [or_null_str]), since it also turns
      0 and the empty string into null.
    - The graph store keeps nodes and relationships in lists; a property
      bag is an association list and a missing property reads as null, as
      in Cypher.  Every Cypher statement of the source is a function on the
      graph built from the clause combinators [match_nodes], [merge_node],
      [merge_rel], [create_node], [create_rel].
    - A handler is a computation in the monad [M]: it threads the committed
      store, the working copy of the open transaction and the log of calls
      made to the collaborators, and it may throw.
    - The store refuses a statement as a whole: when its text does not
      parse, when [LIMIT] or the count of [db.index.vector.queryNodes] is
      given anything but an Integer, when a SET assigns a list that holds a
      map (a property holds a primitive value or a list of them), or when
      a uniqueness constraint of the schema is violated ([CREATE (e:Event)]
      with an id in use).  A refused statement changes nothing. *)

From Stdlib Require Import List String Ascii ZArith QArith Qround.
From Stdlib Require Import Bool Arith Lia Lqa.
From Stdlib Require Import Sorting.Sorted Sorting.Permutation.
Import ListNotations.

Local Open Scope string_scope.
Local Open Scope list_scope.

Set Implicit Arguments.

(* ------------------------------------------------------------------------- *)
(** ** Values and JavaScript idioms *)

(** One map of the list that evolve_bond assigns to a bond's
    [evolution_trajectory].  The map of ON CREATE has no
    [emotional_resonance] key and the one of ON MATCH carries the (possibly
    null) parameter: both read as null, which is [None] here. *)
Record Snapshot := mkSnapshot {
  snap_timestamp : Z;
  snap_strength : Q;
  snap_resonance : option Q;
  snap_context : option string
}.

Inductive Value :=
| VNull
| VStr (s : string)
| VNum (q : Q)
| VInt (z : Z)
| VTime (t : Z)
| VStrs (l : list string)
| VVec (l : list Q)
| VSnaps (l : list Snapshot).

Definition Props := list (string * Value).

Fixpoint prop (k : string) (ps : Props) : Value :=
  match ps with
  | [] => VNull
  | (k', v) :: ps' => if String.eqb k k' then v else prop k ps'
  end.

Fixpoint set_prop (k : string) (v : Value) (ps : Props) : Props :=
  match ps with
  | [] => [(k, v)]
  | (k', v') :: ps' =>
      if String.eqb k k' then (k, v) :: ps' else (k', v') :: set_prop k v ps'
  end.

Definition is_str (s : string) (v : Value) : bool :=
  match v with VStr s' => String.eqb s s' | _ => false end.

Definition str_in (l : list string) (v : Value) : bool :=
  match v with VStr s => existsb (String.eqb s) l | _ => false end.

Definition of_opt_str (o : option string) : Value :=
  match o with Some s => VStr s | None => VNull end.

Definition of_opt_num (o : option Q) : Value :=
  match o with Some q => VNum q | None => VNull end.

(** The value of a number, Float or Integer. *)
Definition num_of (v : Value) : option Q :=
  match v with
  | VNum q => Some q
  | VInt z => Some (inject_Z z)
  | _ => None
  end.

Definition time_of (v : Value) : option Z :=
  match v with VTime t => Some t | _ => None end.

Definition str_of (v : Value) : option string :=
  match v with VStr s => Some s | _ => None end.

Definition Qltb (x y : Q) : bool := negb (Qle_bool y x).

(** [x || null] on an optional number: 0 is falsy. *)
Definition or_null_num (o : option Q) : option Q :=
  match o with
  | Some q => if Qeq_bool q 0 then None else Some q
  | None => None
  end.

(** [x || null] on an optional string: the empty string is falsy. *)
Definition or_null_str (o : option string) : option string :=
  match o with
  | Some s => if String.eqb s EmptyString then None else Some s
  | None => None
  end.

(** [x || d] on an optional string. *)
Definition or_default_str (o : option string) (d : string) : string :=
  match or_null_str o with Some s => s | None => d end.

(** Cypher's [coalesce(a, b)]. *)
Definition coalesce (a b : Value) : Value :=
  match a with VNull => b | _ => a end.

(** [v + 1]; null (or a non-integer) stays null. *)
Definition vsucc (v : Value) : Value :=
  match v with VInt z => VInt (z + 1) | _ => VNull end.

(** [list + $s] on a list of strings. *)
Definition vpush_str (v : Value) (s : string) : Value :=
  match v with VStrs l => VStrs (l ++ [s]) | _ => VNull end.

(** [v + {map}]: null stays null; a list gets the map as its last element
    (a list of strings or numbers that has elements becomes a list of mixed
    content, which is no value of the store); anything else is a type
    error.  [None]: the expression cannot be evaluated to a value. *)
Definition vpush_snap (v : Value) (s : Snapshot) : option Value :=
  match v with
  | VNull => Some VNull
  | VSnaps l => Some (VSnaps (l ++ [s]))
  | VStrs [] | VVec [] => Some (VSnaps [s])
  | _ => None
  end.

(** What a property can hold: a primitive value or a list of primitive
    values.  A list that holds a map cannot be stored. *)
Definition storable (v : Value) : bool :=
  match v with
  | VSnaps (_ :: _) => false
  | _ => true
  end.

(** *** Binary64 *)

Definition pow2 (e : Z) : Q :=
  if Z.leb 0 e then inject_Z (2 ^ e) else 1 # Z.to_pos (2 ^ (- e)).

(** The exponent of a positive rational: 2^e <= q < 2^(e+1). *)
Definition ilog2 (q : Q) : Z :=
  let e0 := (Z.log2 (Qnum q) - Z.log2 (Zpos (Qden q)))%Z in
  if Qle_bool (pow2 e0) q then e0 else (e0 - 1)%Z.

(** The nearest integer, ties to the even one. *)
Definition round_even (q : Q) : Z :=
  let f := Qfloor q in
  match Qcompare (q - inject_Z f) (1 # 2) with
  | Lt => f
  | Gt => (f + 1)%Z
  | Eq => if Z.even f then f else (f + 1)%Z
  end.

(** The binary64 number nearest to a positive rational: 53 significant
    bits, the exponent not below that of the subnormal numbers. *)
Definition nearest (q : Q) : Q :=
  let u := (Z.max (ilog2 q) (-1022) - 52)%Z in
  Qred (inject_Z (round_even (q / pow2 u)) * pow2 u).

(** The rounding of every operation on Floats, in the store and in
    JavaScript. *)
Definition to_double (q : Q) : Q :=
  match Qcompare q 0 with
  | Eq => 0
  | Gt => nearest q
  | Lt => - nearest (- q)
  end.

(** The number of decimal digits of a positive integer. *)
Definition ndigits (n : Z) : Z :=
  let e := (Z.log2 n * 30103 / 100000)%Z in
  if Z.leb (10 ^ (e + 1)) n then (e + 2)%Z
  else if Z.leb (10 ^ e) n then (e + 1)%Z
  else e.

(** The decimal [s * scale] reads back as the number [v]. *)
Definition reads_as (v s scale : Z) : bool :=
  Qeq_bool (to_double (inject_Z (s * scale))) (inject_Z v).

Definition first_digit (s k : Z) : Z :=
  let d := (s / 10 ^ (k - 1))%Z in
  if Z.eqb d 10 then 1%Z else d.

(** The first digit of the text of a number [v] of [nd] digits that is
    written with an exponent: the shortest decimal that reads back as [v],
    the closest to [v] among those of its length. *)
Fixpoint lead_from (fuel : nat) (k v nd : Z) : Z :=
  match fuel with
  | O => first_digit v nd
  | S fuel' =>
      let scale := (10 ^ (nd - k))%Z in
      let lo := (v / scale)%Z in
      let hi := (lo + 1)%Z in
      match reads_as v lo scale, reads_as v hi scale with
      | true, true =>
          match Z.compare (v - lo * scale) (hi * scale - v) with
          | Lt => first_digit lo k
          | Gt => first_digit hi k
          | Eq => first_digit (if Z.even lo then lo else hi) k
          end
      | true, false => first_digit lo k
      | false, true => first_digit hi k
      | false, false => lead_from fuel' (k + 1)%Z v nd
      end
  end.

(** The JavaScript number a whole number of a JSON payload is read as. *)
Definition js_whole (z : Z) : Z := Qnum (to_double (inject_Z z)).

(** [parseInt(x)] on that number: [parseInt] reads the digits at the start
    of the text of [x], which is written in full below 10^21 and with an
    exponent from there on ([1e+21], [1.5e+22]). *)
Definition parseInt (z : Z) : Z :=
  let v := js_whole z in
  if Z.ltb (Z.abs v) (10 ^ 21) then v
  else (Z.sgn v * lead_from 17 1 (Z.abs v) (ndigits (Z.abs v)))%Z.

(** A whole JavaScript number as the driver sends it: a Float. *)
Definition js_number (z : Z) : Value := VNum (inject_Z (js_whole z)).

(** [v * k] for an integer literal [k]. *)
Definition vtimes (v : Value) (k : Z) : Value :=
  match v with
  | VInt z => VInt (z * k)
  | VNum q => VNum (to_double (q * inject_Z k))
  | _ => VNull
  end.

(** [v.length] in JavaScript: a TypeError on undefined (a null property is
    absent from the record), the length of an array or a string, and
    undefined on anything else. *)
Definition js_length (v : Value) : option (option nat) :=
  match v with
  | VNull => None
  | VStr s => Some (Some (String.length s))
  | VStrs l => Some (Some (List.length l))
  | VVec l => Some (Some (List.length l))
  | VSnaps l => Some (Some (List.length l))
  | _ => Some None
  end.

(* ------------------------------------------------------------------------- *)
(** ** The graph store *)

Inductive Label :=
| Event | Person | Agent | Entity | Place | Catalyst | Effect | Target
| Project | Concept | Reflection.

Inductive RelType :=
| INVOLVES | PRECEDED | CONSOLIDATED_TO | BOND
| HELD_AT | PARTICIPATED_IN | CATALYZED_BY | INVOLVED_IN | PRODUCED
| HAD_EFFECT_ON | WITH_RESPECT_TO.

Definition Label_eqb (a b : Label) : bool :=
  match a, b with
  | Event, Event | Person, Person | Agent, Agent | Entity, Entity
  | Place, Place | Catalyst, Catalyst | Effect, Effect | Target, Target
  | Project, Project | Concept, Concept | Reflection, Reflection => true
  | _, _ => false
  end.

Definition RelType_eqb (a b : RelType) : bool :=
  match a, b with
  | INVOLVES, INVOLVES | PRECEDED, PRECEDED
  | CONSOLIDATED_TO, CONSOLIDATED_TO | BOND, BOND | HELD_AT, HELD_AT
  | PARTICIPATED_IN, PARTICIPATED_IN | CATALYZED_BY, CATALYZED_BY
  | INVOLVED_IN, INVOLVED_IN | PRODUCED, PRODUCED
  | HAD_EFFECT_ON, HAD_EFFECT_ON | WITH_RESPECT_TO, WITH_RESPECT_TO => true
  | _, _ => false
  end.

Record Node := mkNode {
  nid : nat;
  nlabel : Label;
  nprops : Props
}.

Record Rel := mkRel {
  rid : nat;
  rsrc : nat;
  rtype : RelType;
  rdst : nat;
  rprops : Props
}.

Record Graph := mkGraph {
  nodes : list Node;
  rels : list Rel;
  fresh : nat
}.

Definition empty_graph : Graph := mkGraph [] [] 0.

(** A node pattern [(:L {k1: v1, ...})] with string-valued keys. *)
Definition has_props (pat : list (string * string)) (n : Node) : bool :=
  forallb (fun kv => is_str (snd kv) (prop (fst kv) (nprops n))) pat.

(** [MATCH (n:L {..})] *)
Definition match_nodes (l : Label) (pat : list (string * string)) (g : Graph)
  : list Node :=
  filter (fun n => Label_eqb l (nlabel n) && has_props pat n) (nodes g).

(** [MATCH (n {..})], any label *)
Definition match_any (pat : list (string * string)) (g : Graph) : list Node :=
  filter (has_props pat) (nodes g).

Definition pat_props (pat : list (string * string)) : Props :=
  map (fun kv => (fst kv, VStr (snd kv))) pat.

(** [CREATE (n:L {..})] *)
Definition create_node (l : Label) (ps : Props) (g : Graph) : Graph * Node :=
  let n := mkNode (fresh g) l ps in
  (mkGraph (nodes g ++ [n]) (rels g) (S (fresh g)), n).

(** [MERGE (n:L {..}) ON CREATE SET ..]: every node that matches is bound;
    when none does, one is created with the pattern's properties and the
    ON CREATE ones. *)
Definition merge_node (l : Label) (pat : list (string * string))
    (on_create : Props) (g : Graph) : Graph * list Node :=
  match match_nodes l pat g with
  | [] => let (g', n) := create_node l (pat_props pat ++ on_create) g in
          (g', [n])
  | ns => (g, ns)
  end.

Definition rels_between (t : RelType) (src dst : nat) (g : Graph) : list Rel :=
  filter (fun r => RelType_eqb t (rtype r) && Nat.eqb src (rsrc r)
                   && Nat.eqb dst (rdst r)) (rels g).

(** [CREATE (a)-[:T {..}]->(b)] *)
Definition create_rel (t : RelType) (src dst : nat) (ps : Props) (g : Graph)
  : Graph :=
  mkGraph (nodes g) (rels g ++ [mkRel (fresh g) src t dst ps]) (S (fresh g)).

(** [MERGE (a)-[:T]->(b)] without properties. *)
Definition merge_rel (t : RelType) (src dst : nat) (g : Graph) : Graph :=
  match rels_between t src dst g with
  | [] => create_rel t src dst [] g
  | _ => g
  end.

(** Run a clause once per incoming row, threading the graph. *)
Definition for_rows {A : Type} (rows : list A) (f : A -> Graph -> Graph)
    (g : Graph) : Graph :=
  fold_left (fun acc row => f row acc) rows g.

Definition count_nodes (l : Label) (g : Graph) : nat :=
  List.length (filter (fun n => Label_eqb l (nlabel n)) (nodes g)).

(* ------------------------------------------------------------------------- *)
(** ** Collaborators and the handler monad *)

(** What one call observes of the outside world: the clock, the generated
    identifier ([randomUUID()], or the [event-<time>-<random>] string), the
    Embedding Provider ([None]: the call fails), the vector index of the
    store (candidates with their similarity score, best first), and which
    of the call's store round trips fail for a reason of the store's own
    (connectivity, conflict), counted from 0. *)
Record Env := mkEnv {
  env_now : Z;
  env_uuid : string;
  env_embed : string -> option (list Q);
  env_index : list Q -> Graph -> list (Node * Q);
  env_store_fails : nat -> bool
}.

Inductive IO :=
| IOSession
| IOBeginTransaction
| IOEmbedding (text : string)
| IOTxRun (what : string)
| IOSessionRun (what : string)
| IOCommit
| IORollback
| IOSessionClose.

Record Sys := mkSys {
  db : Graph;              (* the committed store, what every reader sees *)
  txn : option Graph;      (* working copy of the open transaction *)
  log : list IO;           (* calls made so far, oldest first *)
  tick : nat               (* store round trips made so far *)
}.

Definition boot (g : Graph) : Sys := mkSys g None [] 0.

Inductive Outcome (A : Type) :=
| Return (a : A)
| Throw (msg : string).

Arguments Return {A} a.
Arguments Throw {A} msg.

Definition M (A : Type) : Type := Sys -> Outcome A * Sys.

Definition ret {A} (a : A) : M A := fun s => (Return a, s).

Definition throw {A} (msg : string) : M A := fun s => (Throw msg, s).

Definition bind {A B} (m : M A) (k : A -> M B) : M B :=
  fun s =>
    match m s with
    | (Return a, s') => k a s'
    | (Throw e, s') => (Throw e, s')
    end.

Notation "x <- m ;; k" := (bind m (fun x => k))
  (at level 61, m at next level, right associativity).
Notation "m ;;; k" := (bind m (fun _ => k))
  (at level 61, right associativity).

(** [try { body } catch (error) { handler(error) }] *)
Definition try_catch {A} (body : M A) (handler : string -> M A) : M A :=
  fun s =>
    match body s with
    | (Return a, s') => (Return a, s')
    | (Throw e, s') => handler e s'
    end.

(** [try { body } finally { fin }] *)
Definition finally {A} (body : M A) (fin : M unit) : M A :=
  fun s =>
    let (o, s') := body s in
    match fin s' with
    | (Return _, s'') => (o, s'')
    | (Throw e, s'') => (Throw e, s'')
    end.

Definition emit (e : IO) : M unit :=
  fun s => (Return tt, mkSys (db s) (txn s) (log s ++ [e]) (tick s)).

(** A statement maps the graph to the new graph and its records, or is
    rejected by the store (constraint violation, syntax error). *)
Definition Stmt (R : Type) : Type := Graph -> option (Graph * R).

Section Driver.

Variable env : Env.

(** [driver.session()] *)
Definition session : M unit := emit IOSession.

(** [session.close()] *)
Definition session_close : M unit := emit IOSessionClose.

(** [session.beginTransaction()] *)
Definition beginTransaction : M unit :=
  fun s => (Return tt,
            mkSys (db s) (Some (db s)) (log s ++ [IOBeginTransaction])
                  (tick s)).

(** [tx.run(..)]: the statement works on the transaction's copy. *)
Definition tx_run {R} (what : string) (q : Stmt R) : M R :=
  fun s =>
    let s1 := mkSys (db s) (txn s) (log s ++ [IOTxRun what]) (S (tick s)) in
    if env_store_fails env (tick s) then (Throw "store unavailable", s1)
    else match txn s with
         | None => (Throw "transaction is not open", s1)
         | Some g =>
             match q g with
             | None => (Throw ("statement rejected: " ++ what), s1)
             | Some (g', r) =>
                 (Return r,
                  mkSys (db s) (Some g') (log s1) (tick s1))
             end
         end.

(** [tx.commit()]: the working copy becomes the committed store. *)
Definition tx_commit : M unit :=
  fun s =>
    let s1 := mkSys (db s) (txn s) (log s ++ [IOCommit]) (S (tick s)) in
    if env_store_fails env (tick s) then (Throw "store unavailable", s1)
    else match txn s with
         | None => (Throw "transaction is not open", s1)
         | Some g => (Return tt, mkSys g None (log s1) (tick s1))
         end.

(** [tx.rollback()]: the working copy is dropped; a transaction that is
    already committed cannot be rolled back. *)
Definition tx_rollback : M unit :=
  fun s =>
    let s1 := mkSys (db s) None (log s ++ [IORollback]) (tick s) in
    match txn s with
    | Some _ => (Return tt, s1)
    | None =>
        (Throw ("Cannot rollback this transaction, "
                ++ "because it has already been committed."), s1)
    end.

(** [session.run(..)]: one statement in a transaction of its own. *)
Definition session_run {R} (what : string) (q : Stmt R) : M R :=
  fun s =>
    let s1 := mkSys (db s) (txn s) (log s ++ [IOSessionRun what])
                    (S (tick s)) in
    if env_store_fails env (tick s) then (Throw "store unavailable", s1)
    else match q (db s) with
         | None => (Throw ("statement rejected: " ++ what), s1)
         | Some (g', r) => (Return r, mkSys g' (txn s) (log s1) (tick s1))
         end.

(** [context.generateEmbedding(text)] *)
Definition generateEmbedding (text : string) : M (list Q) :=
  fun s =>
    let s1 := mkSys (db s) (txn s) (log s ++ [IOEmbedding text]) (tick s) in
    match env_embed env text with
    | Some v => (Return v, s1)
    | None => (Throw "embedding provider failed", s1)
    end.

End Driver.

(* ------------------------------------------------------------------------- *)
(** ** evolve_bond *)

Record EvolveBondArgs := mkEvolveBondArgs {
  from_entity_id : string;
  to_entity_id : string;
  new_strength : Q;
  emotional_resonance : option Q;
  milestone : option string;
  interaction_context : option string
}.

Record BondReply := mkBondReply {
  reply_from : Value;
  reply_to : Value;
  reply_strength : Value;
  reply_resonance : Value;
  reply_interaction_count : Value;
  reply_first_interaction : Value;
  reply_last_interaction : Value;
  reply_milestones : Value;
  reply_trajectory_length : option nat
}.

(** The assignments of the ON CREATE SET block. *)
Definition bond_on_create (now : Z) (s : Q) (res : option Q)
    (ms ctx : option string) : Props :=
  [ ("strength", VNum s);
    ("emotional_resonance", of_opt_num res);
    ("interaction_count", VInt 1);
    ("first_interaction", VTime now);
    ("last_interaction", VTime now);
    ("milestones", VStrs (match ms with Some m => [m] | None => [] end));
    ("evolution_trajectory", VSnaps [mkSnapshot now s None ctx]) ].

(** The ON MATCH SET block on the properties [b] of a bond; [None] when
    the new trajectory cannot be evaluated or stored. *)
Definition bond_on_match (now : Z) (s : Q) (res : option Q)
    (ms ctx : option string) (b : Props) : option Props :=
  let b1 := set_prop "strength" (VNum s) b in
  let b2 := set_prop "emotional_resonance"
              (coalesce (of_opt_num res) (prop "emotional_resonance" b1)) b1 in
  let b3 := set_prop "interaction_count"
              (vsucc (prop "interaction_count" b2)) b2 in
  let b4 := set_prop "last_interaction" (VTime now) b3 in
  let b5 := set_prop "milestones"
              (match ms with
               | Some m => vpush_str (prop "milestones" b4) m
               | None => prop "milestones" b4
               end) b4 in
  match vpush_snap (prop "evolution_trajectory" b5) (mkSnapshot now s res ctx)
  with
  | Some v =>
      if storable v then Some (set_prop "evolution_trajectory" v b5) else None
  | None => None
  end.

Definition is_bond (src dst : nat) (r : Rel) : bool :=
  RelType_eqb BOND (rtype r) && Nat.eqb src (rsrc r) && Nat.eqb dst (rdst r).

(** Every element, when each is there. *)
Fixpoint all_some {A} (l : list (option A)) : option (list A) :=
  match l with
  | [] => Some []
  | Some a :: t =>
      match all_some t with Some t' => Some (a :: t') | None => None end
  | None :: _ => None
  end.

(** The ON MATCH update of one relationship of the store: a bond between
    the two nodes is updated, anything else is left alone. *)
Definition update_bond (now : Z) (s : Q) (res : option Q)
    (ms ctx : option string) (src dst : nat) (r : Rel) : option Rel :=
  if is_bond src dst r
  then match bond_on_match now s res ms ctx (rprops r) with
       | Some ps => Some (mkRel (rid r) (rsrc r) (rtype r) (rdst r) ps)
       | None => None
       end
  else Some r.

(** [MERGE (from)-[b:BOND]->(to) ON CREATE SET .. ON MATCH SET ..] for one
    row: the bonds bound to [b], after their update; [None] when a SET is
    refused. *)
Definition merge_bond (now : Z) (s : Q) (res : option Q)
    (ms ctx : option string) (from to : Node) (g : Graph)
  : option (Graph * list Rel) :=
  match rels_between BOND (nid from) (nid to) g with
  | [] =>
      let ps := bond_on_create now s res ms ctx in
      if forallb (fun kv => storable (snd kv)) ps
      then let r := mkRel (fresh g) (nid from) BOND (nid to) ps in
           Some (mkGraph (nodes g) (rels g ++ [r]) (S (fresh g)), [r])
      else None
  | _ =>
      match all_some (map (update_bond now s res ms ctx (nid from) (nid to))
                          (rels g))
      with
      | Some rs =>
          let g' := mkGraph (nodes g) rs (fresh g) in
          Some (g', rels_between BOND (nid from) (nid to) g')
      | None => None
      end
  end.

(** The records of [RETURN b, from.name AS from_name, to.name AS to_name]. *)
Definition BondRow : Type := (Rel * Value * Value)%type.

(** The rows of [MATCH (from {id: $fromId}) MATCH (to {id: $toId})]. *)
Definition bond_pairs (fromId toId : string) (g : Graph) : list (Node * Node) :=
  flat_map (fun from => map (fun to => (from, to))
                            (match_any [("id", toId)] g))
           (match_any [("id", fromId)] g).

(** The MERGE over the rows, threading the graph and collecting the
    records. *)
Fixpoint merge_bonds (now : Z) (s : Q) (res : option Q) (ms ctx : option string)
    (pairs : list (Node * Node)) (g : Graph) : option (Graph * list BondRow) :=
  match pairs with
  | [] => Some (g, [])
  | (from, to) :: rest =>
      match merge_bond now s res ms ctx from to g with
      | None => None
      | Some (g', bs) =>
          match merge_bonds now s res ms ctx rest g' with
          | None => None
          | Some (g'', rows) =>
              Some (g'', map (fun b => (b, prop "name" (nprops from),
                                           prop "name" (nprops to))) bs
                         ++ rows)
          end
      end
  end.

(** The whole statement of [handleEvolveBond]. *)
Definition cypher_evolve_bond (now : Z) (fromId toId : string) (s : Q)
    (res : option Q) (ms ctx : option string) : Stmt (list BondRow) :=
  fun g => merge_bonds now s res ms ctx (bond_pairs fromId toId g) g.

Definition handleEvolveBond (env : Env) (args : EvolveBondArgs) : M BondReply :=
  session ;;;
  finally
    (records <- session_run env "evolve_bond"
       (cypher_evolve_bond (env_now env)
          (from_entity_id args) (to_entity_id args) (new_strength args)
          (or_null_num (emotional_resonance args))
          (or_null_str (milestone args))
          (or_null_str (interaction_context args))) ;;
     match records with
     | [] => throw "Cannot read properties of undefined (reading 'get')"
     | (b, from_name, to_name) :: _ =>
         match js_length (prop "evolution_trajectory" (rprops b)) with
         | Some n =>
             ret (mkBondReply from_name to_name
                    (prop "strength" (rprops b))
                    (prop "emotional_resonance" (rprops b))
                    (prop "interaction_count" (rprops b))
                    (prop "first_interaction" (rprops b))
                    (prop "last_interaction" (rprops b))
                    (prop "milestones" (rprops b))
                    n)
         | None => throw "Cannot read properties of undefined (reading 'length')"
         end
     end)
    session_close.

(* ------------------------------------------------------------------------- *)
(** ** encode_memory *)

Record EventPayload := mkEventPayload {
  event_type : string;
  event_timestamp : option Z;
  emotional_valence : Q;
  significance : Q;
  context_summary : string;
  full_content : option string;
  glyph : option string
}.

Record Involvement := mkInvolvement {
  entity_id : string;
  role : string;
  salience : Q
}.

Record Consolidation := mkConsolidation {
  target_id : string;
  consolidation_strength : Q;
  consolidation_type : string
}.

Record EncodeArgs := mkEncodeArgs {
  event : EventPayload;
  involves : list Involvement;
  precedes : list string;
  consolidates_to : list Consolidation
}.

Record EncodeReply := mkEncodeReply {
  enc_event_id : string;
  enc_timestamp : Value;
  enc_type : Value;
  enc_valence : Value;
  enc_significance : Value;
  enc_involves : list (nat * Value * Value);
  enc_preceded_by : list string;
  enc_consolidations : list (string * Value * Value);
  enc_nodes_created : nat;
  enc_relationships_created : nat
}.

Definition newline : string := String (ascii_of_nat 10) EmptyString.

(** The text handed to the Embedding Provider. *)
Definition embeddingText (ev : EventPayload) : string :=
  match or_null_str (full_content ev) with
  | Some full => context_summary ev ++ newline ++ newline ++ full
  | None => context_summary ev
  end.

Definition event_props (id : string) (timestamp : Z) (ev : EventPayload)
    (embedding : list Q) : Props :=
  [ ("id", VStr id);
    ("timestamp", VTime timestamp);
    ("type", VStr (event_type ev));
    ("emotional_valence", VNum (emotional_valence ev));
    ("significance", VNum (significance ev));
    ("context_summary", VStr (context_summary ev));
    ("full_content", of_opt_str (or_null_str (full_content ev)));
    ("glyph_encoding", of_opt_str (or_null_str (glyph ev)));
    ("embedding", VVec embedding);
    ("embedding_model", VStr "text-embedding-3-small") ].

(** [CREATE (e:Event {..})] under the [event_id] uniqueness constraint of the
    schema: the store rejects a second Event with the same id. *)
Definition cypher_create_event (id : string) (ps : Props) : Stmt unit :=
  fun g =>
    match match_nodes Event [("id", id)] g with
    | [] => Some (fst (create_node Event ps g), tt)
    | _ => None
    end.

(** [MATCH (e:Event {id: $eventId}) MATCH (entity {id: $entityId})
     CREATE (e)-[:INVOLVES {role: $role, salience: $salience}]->(entity)] *)
Definition cypher_involves (eventId : string) (i : Involvement) : Stmt unit :=
  fun g =>
    Some (for_rows (match_nodes Event [("id", eventId)] g)
            (fun e =>
               for_rows (match_any [("id", entity_id i)] g)
                 (fun entity =>
                    create_rel INVOLVES (nid e) (nid entity)
                      [("role", VStr (role i));
                       ("salience", VNum (salience i))]))
            g, tt).

(** [duration.between(a, b)] on two instants; null when one is missing. *)
Definition duration_between (a b : Value) : Value :=
  match a, b with
  | VTime x, VTime y => VInt (y - x)
  | _, _ => VNull
  end.

(** [MATCH (e1:Event {id: $precedingId}) MATCH (e2:Event {id: $eventId})
     CREATE (e1)-[:PRECEDED {..}]->(e2)] *)
Definition cypher_preceded (eventId precedingId : string) : Stmt unit :=
  fun g =>
    Some (for_rows (match_nodes Event [("id", precedingId)] g)
            (fun e1 =>
               for_rows (match_nodes Event [("id", eventId)] g)
                 (fun e2 =>
                    create_rel PRECEDED (nid e1) (nid e2)
                      [("temporal_distance",
                        duration_between (prop "timestamp" (nprops e1))
                                         (prop "timestamp" (nprops e2)));
                       ("causal_strength", VNum (8 # 10))]))
            g, tt).

(** [MATCH (e:Event {id: $eventId}) MATCH (target {id: $targetId})
     CREATE (e)-[:CONSOLIDATED_TO {..}]->(target)] *)
Definition cypher_consolidated (eventId : string) (c : Consolidation)
  : Stmt unit :=
  fun g =>
    Some (for_rows (match_nodes Event [("id", eventId)] g)
            (fun e =>
               for_rows (match_any [("id", target_id c)] g)
                 (fun target =>
                    create_rel CONSOLIDATED_TO (nid e) (nid target)
                      [("strength", VNum (consolidation_strength c));
                       ("consolidation_type", VStr (consolidation_type c));
                       ("rehearsal_count", VInt 1)]))
            g, tt).

Fixpoint list_eqb {A} (eqb : A -> A -> bool) (l l' : list A) : bool :=
  match l, l' with
  | [], [] => true
  | x :: t, y :: t' => eqb x y && list_eqb eqb t t'
  | _, _ => false
  end.

Definition optQ_eqb (a b : option Q) : bool :=
  match a, b with
  | Some x, Some y => Qeq_bool x y
  | None, None => true
  | _, _ => false
  end.

Definition optstr_eqb (a b : option string) : bool :=
  match a, b with
  | Some x, Some y => String.eqb x y
  | None, None => true
  | _, _ => false
  end.

Definition Snapshot_eqb (a b : Snapshot) : bool :=
  Z.eqb (snap_timestamp a) (snap_timestamp b)
  && Qeq_bool (snap_strength a) (snap_strength b)
  && optQ_eqb (snap_resonance a) (snap_resonance b)
  && optstr_eqb (snap_context a) (snap_context b).

(** Two values are the same to DISTINCT and to the grouping of an
    aggregation. *)
Definition Value_eqb (a b : Value) : bool :=
  match a, b with
  | VNull, VNull => true
  | VStr x, VStr y => String.eqb x y
  | VNum x, VNum y => Qeq_bool x y
  | VInt x, VInt y => Z.eqb x y
  | VTime x, VTime y => Z.eqb x y
  | VStrs x, VStrs y => list_eqb String.eqb x y
  | VVec x, VVec y => list_eqb Qeq_bool x y
  | VSnaps x, VSnaps y => list_eqb Snapshot_eqb x y
  | _, _ => false
  end.

(** [collect(DISTINCT ..)]: first occurrences, in order. *)
Fixpoint distinct_from {A} (eqb : A -> A -> bool) (seen l : list A) : list A :=
  match l with
  | [] => []
  | x :: t =>
      if existsb (eqb x) seen then distinct_from eqb seen t
      else x :: distinct_from eqb (x :: seen) t
  end.

Definition distinct {A} (eqb : A -> A -> bool) (l : list A) : list A :=
  distinct_from eqb [] l.

Definition node_by_nid (g : Graph) (i : nat) : option Node :=
  find (fun n => Nat.eqb i (nid n)) (nodes g).

Definition rels_from (t : RelType) (src : nat) (g : Graph) : list Rel :=
  filter (fun r => RelType_eqb t (rtype r) && Nat.eqb src (rsrc r)) (rels g).

Definition rels_to (t : RelType) (dst : nat) (g : Graph) : list Rel :=
  filter (fun r => RelType_eqb t (rtype r) && Nat.eqb dst (rdst r)) (rels g).

(** A JavaScript string used as a condition: null and the empty string
    are falsy. *)
Definition truthy_str (v : Value) : option string :=
  match v with
  | VStr s => if String.eqb s EmptyString then None else Some s
  | _ => None
  end.

Definition omap_list {A B} (f : A -> option B) (l : list A) : list B :=
  flat_map (fun a => match f a with Some b => [b] | None => [] end) l.

Definition triple_eqb (x y : nat * Value * Value) : bool :=
  Nat.eqb (fst (fst x)) (fst (fst y))
  && Value_eqb (snd (fst x)) (snd (fst y)) && Value_eqb (snd x) (snd y).

Definition striple_eqb (x y : string * Value * Value) : bool :=
  String.eqb (fst (fst x)) (fst (fst y))
  && Value_eqb (snd (fst x)) (snd (fst y)) && Value_eqb (snd x) (snd y).

(** The read-back of the created Event with its blocks, with the filters the
    handler applies to the collected lists. *)
Definition cypher_read_event (eventId : string) (claimed : nat)
  : Stmt (list EncodeReply) :=
  fun g =>
    Some (g,
      map (fun e =>
        mkEncodeReply eventId
          (prop "timestamp" (nprops e)) (prop "type" (nprops e))
          (prop "emotional_valence" (nprops e))
          (prop "significance" (nprops e))
          (distinct triple_eqb
             (omap_list (fun r =>
                match node_by_nid g (rdst r) with
                | Some _ => Some (rdst r, prop "role" (rprops r),
                                  prop "salience" (rprops r))
                | None => None
                end) (rels_from INVOLVES (nid e) g)))
          (distinct String.eqb
             (omap_list (fun r =>
                match node_by_nid g (rsrc r) with
                | Some prev => truthy_str (prop "id" (nprops prev))
                | None => None
                end) (rels_to PRECEDED (nid e) g)))
          (distinct striple_eqb
             (omap_list (fun r =>
                match node_by_nid g (rdst r) with
                | Some target =>
                    match truthy_str (prop "id" (nprops target)) with
                    | Some t => Some (t, prop "consolidation_type" (rprops r),
                                      prop "strength" (rprops r))
                    | None => None
                    end
                | None => None
                end) (rels_from CONSOLIDATED_TO (nid e) g)))
          1 claimed)
        (match_nodes Event [("id", eventId)] g)).

Fixpoint for_each {A} (l : list A) (f : A -> M unit) : M unit :=
  match l with
  | [] => ret tt
  | x :: t => f x ;;; for_each t f
  end.

Definition check (ok : bool) (msg : string) : M unit :=
  if ok then ret tt else throw msg.

(** What [handleEncodeMemory] does once the transaction is committed: the
    read-back in a second session. *)
Definition encode_read_back (env : Env) (args : EncodeArgs) : M EncodeReply :=
  session ;;;
  records <- session_run env "read Event"
    (cypher_read_event (env_uuid env)
       (List.length (involves args) + List.length (precedes args)
        + List.length (consolidates_to args))) ;;
  session_close ;;;
  match records with
  | record :: _ => ret record
  | [] => throw "Cannot read properties of undefined (reading 'get')"
  end.

(** The [try] block of [handleEncodeMemory]. *)
Definition encode_memory_try (env : Env) (args : EncodeArgs) : M EncodeReply :=
  let ev := event args in
  check (negb (Qltb (emotional_valence ev) (-1 # 1)
               || Qltb 1 (emotional_valence ev)))
        "emotional_valence must be between -1.0 and 1.0" ;;;
  check (negb (Qltb (significance ev) 0 || Qltb 1 (significance ev)))
        "significance must be between 0.0 and 1.0" ;;;
  let eventId := env_uuid env in
  let timestamp := match event_timestamp ev with
                   | Some t => t
                   | None => env_now env
                   end in
  embedding <- generateEmbedding env (embeddingText ev) ;;
  tx_run env "CREATE Event"
    (cypher_create_event eventId
       (event_props eventId timestamp ev embedding)) ;;;
  for_each (involves args)
    (fun i => tx_run env "INVOLVES" (cypher_involves eventId i)) ;;;
  for_each (precedes args)
    (fun p => tx_run env "PRECEDED" (cypher_preceded eventId p)) ;;;
  for_each (consolidates_to args)
    (fun c => tx_run env "CONSOLIDATED_TO"
                (cypher_consolidated eventId c)) ;;;
  tx_commit env ;;;
  encode_read_back env args.

Definition handleEncodeMemory (env : Env) (args : EncodeArgs) : M EncodeReply :=
  session ;;;
  beginTransaction ;;;
  finally
    (try_catch (encode_memory_try env args)
       (fun error => tx_rollback ;;; throw error))
    session_close.

(* ------------------------------------------------------------------------- *)
(** ** hippocampus_write_event *)

Record Participant := mkParticipant {
  participant_id : string;
  participant_type : string
}.

Record EntityRef := mkEntityRef {
  ref_id : string;
  ref_name : string;
  ref_kind : string;
  ref_meta : option string
}.

Record EffectEntry := mkEffectEntry {
  summary : string;
  valence : string;
  intensity : Q;
  effect_target_id : string;
  effect_target_kind : string
}.

(** The [event] argument of hippocampus_write_event.  An array that is
    omitted behaves as the empty one (its block is skipped). *)
Record WriteEvent := mkWriteEvent {
  id : option string;
  title : string;
  description : string;
  happened_at : option Z;
  who : list Participant;
  why : list string;
  what_entities : list EntityRef;
  what_produced : list EntityRef;
  where_ : option string;
  effects : list EffectEntry
}.

Record WriteReply := mkWriteReply {
  written_event_id : string;
  written_timestamp : Z;
  written_title : string
}.

(** [MATCH (e:Event {id: $eventId}) MERGE (x:L {..}) ON CREATE SET ..
     MERGE <link between e and x>], the shape of the where, who, why and
    what blocks. *)
Definition match_merge_link (eventId : string) (l : Label)
    (pat : list (string * string)) (on_create : Props)
    (link : Node -> Node -> Graph -> Graph) : Stmt unit :=
  fun g =>
    Some (for_rows (match_nodes Event [("id", eventId)] g)
            (fun e g1 =>
               let (g2, xs) := merge_node l pat on_create g1 in
               for_rows xs (fun x => link e x) g2)
            g, tt).

(** [MERGE (p:Place {name: $placeName}) MERGE (e)-[:HELD_AT]->(p)] *)
Definition cypher_held_at (eventId placeName : string) : Stmt unit :=
  match_merge_link eventId Place [("name", placeName)] []
    (fun e p => merge_rel HELD_AT (nid e) (nid p)).

(** [MERGE (p:Person {name: $name}) MERGE (p)-[:PARTICIPATED_IN]->(e)] *)
Definition cypher_person (eventId name : string) : Stmt unit :=
  match_merge_link eventId Person [("name", name)] []
    (fun e p => merge_rel PARTICIPATED_IN (nid p) (nid e)).

(** [MERGE (a:Agent {id: $agentId}) MERGE (a)-[:PARTICIPATED_IN]->(e)] *)
Definition cypher_agent (eventId agentId : string) : Stmt unit :=
  match_merge_link eventId Agent [("id", agentId)] []
    (fun e a => merge_rel PARTICIPATED_IN (nid a) (nid e)).

(** [MERGE (c:Catalyst {description: $reason}) MERGE (e)-[:CATALYZED_BY]->(c)] *)
Definition cypher_catalyst (eventId reason : string) : Stmt unit :=
  match_merge_link eventId Catalyst [("description", reason)] []
    (fun e c => merge_rel CATALYZED_BY (nid e) (nid c)).

Definition entity_on_create (x : EntityRef) : Props :=
  [ ("name", VStr (ref_name x)); ("kind", VStr (ref_kind x));
    ("meta", of_opt_str (or_null_str (ref_meta x))) ].

(** [MERGE (ent:Entity {id: $entityId}) ON CREATE SET ..
     MERGE (ent)-[:INVOLVED_IN]->(e)] *)
Definition cypher_involved_in (eventId : string) (x : EntityRef) : Stmt unit :=
  match_merge_link eventId Entity [("id", ref_id x)] (entity_on_create x)
    (fun e ent => merge_rel INVOLVED_IN (nid ent) (nid e)).

(** [MERGE (ent:Entity {id: $entityId}) ON CREATE SET ..
     MERGE (e)-[:PRODUCED]->(ent)] *)
Definition cypher_produced (eventId : string) (x : EntityRef) : Stmt unit :=
  match_merge_link eventId Entity [("id", ref_id x)] (entity_on_create x)
    (fun e ent => merge_rel PRODUCED (nid e) (nid ent)).

(** [MATCH (e:Event {id: $eventId})
     MERGE (t:Target {id: $targetId, kind: $targetKind})
     CREATE (f:Effect {summary: .., valence: .., intensity: ..})
     MERGE (e)-[:HAD_EFFECT_ON]->(f) MERGE (f)-[:WITH_RESPECT_TO]->(t)] *)
Definition cypher_effect (eventId : string) (x : EffectEntry) : Stmt unit :=
  fun g =>
    Some (for_rows (match_nodes Event [("id", eventId)] g)
            (fun e g1 =>
               let (g2, ts) :=
                 merge_node Target [("id", effect_target_id x);
                                    ("kind", effect_target_kind x)] [] g1 in
               for_rows ts
                 (fun t g3 =>
                    let (g4, f) :=
                      create_node Effect
                        [("summary", VStr (summary x));
                         ("valence", VStr (valence x));
                         ("intensity", VNum (intensity x))] g3 in
                    merge_rel WITH_RESPECT_TO (nid f) (nid t)
                      (merge_rel HAD_EFFECT_ON (nid e) (nid f) g4))
                 g2)
            g, tt).

Definition write_event_props (eventId : string) (happenedAt : Z)
    (ev : WriteEvent) : Props :=
  [ ("id", VStr eventId); ("happened_at", VTime happenedAt);
    ("title", VStr (title ev)); ("description", VStr (description ev)) ].

Definition written_id (env : Env) (ev : WriteEvent) : string :=
  or_default_str (id ev) (env_uuid env).

Definition written_at (env : Env) (ev : WriteEvent) : Z :=
  match happened_at ev with Some t => t | None => env_now env end.

(** The [try] block of [handleWriteEvent]. *)
Definition write_event_try (env : Env) (ev : WriteEvent) : M WriteReply :=
  let eventId := written_id env ev in
  let happenedAt := written_at env ev in
  tx_run env "CREATE Event"
    (cypher_create_event eventId
       (write_event_props eventId happenedAt ev)) ;;;
  match or_null_str (where_ ev) with
  | Some placeName => tx_run env "HELD_AT"
                        (cypher_held_at eventId placeName)
  | None => ret tt
  end ;;;
  for_each (who ev)
    (fun p =>
       if String.eqb (participant_type p) "person"
       then tx_run env "Person"
              (cypher_person eventId (participant_id p))
       else if String.eqb (participant_type p) "agent"
       then tx_run env "Agent"
              (cypher_agent eventId (participant_id p))
       else ret tt) ;;;
  for_each (why ev)
    (fun reason => tx_run env "CATALYZED_BY"
                     (cypher_catalyst eventId reason)) ;;;
  for_each (what_entities ev)
    (fun x => tx_run env "INVOLVED_IN" (cypher_involved_in eventId x)) ;;;
  for_each (what_produced ev)
    (fun x => tx_run env "PRODUCED" (cypher_produced eventId x)) ;;;
  for_each (effects ev)
    (fun x => tx_run env "HAD_EFFECT_ON" (cypher_effect eventId x)) ;;;
  tx_commit env ;;;
  ret (mkWriteReply eventId happenedAt (title ev)).

Definition handleWriteEvent (env : Env) (ev : WriteEvent) : M WriteReply :=
  session ;;;
  beginTransaction ;;;
  finally
    (try_catch (write_event_try env ev)
       (fun error => tx_rollback ;;; throw error))
    session_close.

(* ------------------------------------------------------------------------- *)
(** ** The dynamically assembled read queries

    [handleRecallMemory] and [handleSearchEvents] build their statement by
    appending text fragments to [cypherQuery].  The head of the statement
    (up to the final projection) is the list of the fragments appended, one
    [Clause] per clause of the text; the store first parses it. *)

Inductive Join :=
| JParticipant   (* (e)<-[:PARTICIPATED_IN]-(participant) *)
| JEntity        (* (e)<-[:INVOLVED_IN]-(entity:Entity) *)
| JEffect        (* (e)-[:HAD_EFFECT_ON]->(f:Effect) *)
| JInvolves.     (* (e)-[:INVOLVES]->(entity) *)

Inductive Atom :=
| AParticipantIn (l : list string)  (* participant.name IN $l OR participant.id IN $l *)
| AEntityIn (l : list string)       (* entity.id IN $l *)
| AIntensityAtLeast (q : Q)         (* f.intensity >= $q *)
| AHappenedBetween (a b : Z)        (* e.happened_at >= .. AND e.happened_at <= .. *)
| AHeldAt (place : string)          (* EXISTS((e)-[:HELD_AT]->(:Place {name: ..})) *)
| AEffectOn (target : string)       (* EXISTS((e)-[:HAD_EFFECT_ON]->(:Effect)
                                               -[:WITH_RESPECT_TO]->(:Target {id: ..})) *)
| AValenceBetween (lo hi : Q)       (* e.emotional_valence >= .. AND .. <= .. *)
| ATimestampBetween (a b : Z)       (* e.timestamp >= .. AND e.timestamp <= .. *)
| ASignificanceAtLeast (q : Q)      (* e.significance >= .. *)
| ATypeIn (l : list string).        (* e.type IN $l *)

Inductive Clause :=
| CMatchEvent                         (* MATCH (e:Event) *)
| CVectorQuery (k : Value) (v : list Q)
                                      (* CALL db.index.vector.queryNodes(.., k, v)
                                         YIELD node AS e, score *)
| CWithScore (q : Q)                  (* WITH e, 0.5 AS score *)
| CWith                               (* WITH e  /  WITH e, score *)
| CMatch (j : Join)                   (* MATCH <pattern from e> *)
| CWhere (atoms : list Atom).          (* WHERE a1 AND a2 AND .. *)

(** A row of the head: the event, its similarity score, and the node bound
    by the latest MATCH. *)
Record Row := mkRow {
  row_e : Node;
  row_score : option Q;
  row_x : option Node
}.

Definition has_label (l : Label) (n : Node) : bool := Label_eqb l (nlabel n).

Definition sources (t : RelType) (e : Node) (g : Graph) : list Node :=
  omap_list (fun r => node_by_nid g (rsrc r)) (rels_to t (nid e) g).

Definition targets (t : RelType) (e : Node) (g : Graph) : list Node :=
  omap_list (fun r => node_by_nid g (rdst r)) (rels_from t (nid e) g).

Definition join_nodes (j : Join) (e : Node) (g : Graph) : list Node :=
  match j with
  | JParticipant => sources PARTICIPATED_IN e g
  | JEntity => filter (has_label Entity) (sources INVOLVED_IN e g)
  | JEffect => filter (has_label Effect) (targets HAD_EFFECT_ON e g)
  | JInvolves => targets INVOLVES e g
  end.

Definition between_Z (a b : Z) (v : Value) : bool :=
  match time_of v with
  | Some t => Z.leb a t && Z.leb t b
  | None => false
  end.

Definition at_least (q : Q) (v : Value) : bool :=
  match num_of v with
  | Some x => Qle_bool q x
  | None => false
  end.

Definition on_x (r : Row) (p : Node -> bool) : bool :=
  match row_x r with Some x => p x | None => false end.

Definition held_at (place : string) (e : Node) (g : Graph) : bool :=
  existsb (fun p => has_label Place p && is_str place (prop "name" (nprops p)))
          (targets HELD_AT e g).

Definition effect_on (target : string) (e : Node) (g : Graph) : bool :=
  existsb (fun f =>
             has_label Effect f
             && existsb (fun t => has_label Target t
                                  && is_str target (prop "id" (nprops t)))
                        (targets WITH_RESPECT_TO f g))
          (targets HAD_EFFECT_ON e g).

Definition holds (g : Graph) (r : Row) (a : Atom) : bool :=
  let e := nprops (row_e r) in
  match a with
  | AParticipantIn l =>
      on_x r (fun x => str_in l (prop "name" (nprops x))
                       || str_in l (prop "id" (nprops x)))
  | AEntityIn l => on_x r (fun x => str_in l (prop "id" (nprops x)))
  | AIntensityAtLeast q => on_x r (fun x => at_least q (prop "intensity" (nprops x)))
  | AHappenedBetween a b => between_Z a b (prop "happened_at" e)
  | AHeldAt place => held_at place (row_e r) g
  | AEffectOn target => effect_on target (row_e r) g
  | AValenceBetween lo hi =>
      match num_of (prop "emotional_valence" e) with
      | Some x => Qle_bool lo x && Qle_bool x hi
      | None => false
      end
  | ATimestampBetween a b => between_Z a b (prop "timestamp" e)
  | ASignificanceAtLeast q => at_least q (prop "significance" e)
  | ATypeIn l => str_in l (prop "type" e)
  end.

(** The grammar allows WHERE only as the tail of a MATCH, WITH or YIELD:
    a WHERE that follows a WHERE is a syntax error. *)
Fixpoint parses (after_where : bool) (q : list Clause) : bool :=
  match q with
  | [] => true
  | CWhere _ :: q' => negb after_where && parses true q'
  | _ :: q' => parses false q'
  end.

Definition run_clause (env : Env) (g : Graph) (rows : list Row) (c : Clause)
  : list Row :=
  match c with
  | CMatchEvent =>
      map (fun e => mkRow e None None)
          (filter (has_label Event) (nodes g))
  | CVectorQuery k v =>
      match k with
      | VInt z => map (fun es => mkRow (fst es) (Some (snd es)) None)
                      (firstn (Z.to_nat z) (env_index env v g))
      | _ => []
      end
  | CWithScore q => map (fun r => mkRow (row_e r) (Some q) None) rows
  | CWith => map (fun r => mkRow (row_e r) (row_score r) None) rows
  | CMatch j =>
      flat_map (fun r => map (fun x => mkRow (row_e r) (row_score r) (Some x))
                             (join_nodes j (row_e r) g)) rows
  | CWhere atoms => filter (fun r => forallb (holds g r) atoms) rows
  end.

(** The clauses that leave the similarity score of a row alone. *)
Definition keeps_score (c : Clause) : bool :=
  match c with
  | CWith | CMatch _ | CWhere _ => true
  | _ => false
  end.

(** The index procedure takes the number of candidates as a positive
    Integer. *)
Definition typed (c : Clause) : bool :=
  match c with
  | CVectorQuery (VInt z) _ => Z.ltb 0 z
  | CVectorQuery _ _ => false
  | _ => true
  end.

(** The rows that reach the final projection; [None] when the text does
    not parse or an argument has the wrong type. *)
Definition run_head (env : Env) (g : Graph) (q : list Clause)
  : option (list Row) :=
  if parses true q && forallb typed q
  then Some (fold_left (run_clause env g) q [])
  else None.

(** [ORDER BY key DESC]: null sorts first in descending order. *)
Definition desc {K : Type} (leb : K -> K -> bool) (a b : option K) : bool :=
  match a, b with
  | None, _ => true
  | Some _, None => false
  | Some x, Some y => leb y x
  end.

Fixpoint insert_by {A : Type} (before : A -> A -> bool) (x : A) (l : list A)
  : list A :=
  match l with
  | [] => [x]
  | y :: t => if before x y then x :: l else y :: insert_by before x t
  end.

Definition sort_by {A : Type} (before : A -> A -> bool) (l : list A) : list A :=
  fold_right (insert_by before) [] l.

(** [LIMIT $limit]: the count must be an Integer that is not negative; the
    store refuses anything else, also a Float with a whole value. *)
Definition limit_rows {A : Type} (n : Value) (l : list A) : option (list A) :=
  match n with
  | VInt z => if Z.ltb z 0 then None else Some (firstn (Z.to_nat z) l)
  | _ => None
  end.

(* ------------------------------------------------------------------------- *)
(** ** hippocampus_search_events *)

Record SearchArgs := mkSearchArgs {
  semantic_query : option string;      (* destructured, never used *)
  time_range : option (Z * Z);
  participants : list string;
  entities : list string;
  place : option string;
  effects_on : option string;
  min_effect_intensity : option Q;
  limit : option Z
}.

Record EffectView := mkEffectView {
  effect : Value;
  effect_valence : Value;
  effect_intensity : Value;
  effect_target : Value
}.

Record EventView := mkEventView {
  view_id : Value;
  view_title : Value;
  view_description : Value;
  view_when : Value;
  view_people : list string;
  view_agents : list string;
  view_what : list string;
  view_where : Value;
  view_why : list string;
  view_effects : list EffectView
}.

Definition EffectView_eqb (a b : EffectView) : bool :=
  Value_eqb (effect a) (effect b)
  && Value_eqb (effect_valence a) (effect_valence b)
  && Value_eqb (effect_intensity a) (effect_intensity b)
  && Value_eqb (effect_target a) (effect_target b).

(** [parseInt(limit) || 10] after the default [limit = 10]. *)
Definition search_limit (a : SearchArgs) : Z :=
  match limit a with
  | Some n => if Z.eqb (parseInt n) 0 then 10%Z else parseInt n
  | None => 10%Z
  end.

Definition nonempty_join (l : list string) (j : Join) (a : Atom) : list Clause :=
  match l with
  | [] => []
  | _ => [CWith; CMatch j; CWhere [a]]
  end.

Definition search_whereClauses (a : SearchArgs) : list Atom :=
  (match time_range a with
   | Some (t0, t1) => [AHappenedBetween t0 t1]
   | None => []
   end)
  ++ (match or_null_str (place a) with
      | Some p => [AHeldAt p]
      | None => []
      end)
  ++ (match or_null_str (effects_on a) with
      | Some t => [AEffectOn t]
      | None => []
      end).

Definition where_clause (l : list Atom) : list Clause :=
  match l with
  | [] => []
  | _ => [CWhere l]
  end.

(** The head of [cypherQuery] as [handleSearchEvents] assembles it. *)
Definition search_query (a : SearchArgs) : list Clause :=
  [CMatchEvent]
  ++ nonempty_join (participants a) JParticipant (AParticipantIn (participants a))
  ++ nonempty_join (entities a) JEntity (AEntityIn (entities a))
  ++ (match min_effect_intensity a with
      | Some q => [CWith; CMatch JEffect; CWhere [AIntensityAtLeast q]]
      | None => []
      end)
  ++ where_clause (search_whereClauses a).

(** [WITH DISTINCT e] *)
Definition distinct_events (rows : list Row) : list Node :=
  distinct (fun a b => Nat.eqb (nid a) (nid b)) (map row_e rows).

Definition names_of (k : string) (l : Label) (ns : list Node) : list string :=
  distinct String.eqb
    (omap_list (fun n => str_of (prop k (nprops n))) (filter (has_label l) ns)).

(** The rows of [OPTIONAL MATCH (e)-[:HAD_EFFECT_ON]->(effect:Effect)
    -[:WITH_RESPECT_TO]->(target:Target)] for one event as the map the
    RETURN builds: all null when the event has no such path. *)
Definition effect_views (g : Graph) (e : Node) : list EffectView :=
  match
    flat_map (fun f =>
                map (fun t => mkEffectView (prop "summary" (nprops f))
                                           (prop "valence" (nprops f))
                                           (prop "intensity" (nprops f))
                                           (prop "id" (nprops t)))
                    (filter (has_label Target) (targets WITH_RESPECT_TO f g)))
             (filter (has_label Effect) (targets HAD_EFFECT_ON e g))
  with
  | [] => [mkEffectView VNull VNull VNull VNull]
  | l => l
  end.

(** The values of [place.name] over the OPTIONAL MATCH: null without one. *)
Definition where_values (g : Graph) (e : Node) : list Value :=
  match filter (has_label Place) (targets HELD_AT e g) with
  | [] => [VNull]
  | ps => map (fun p => prop "name" (nprops p)) ps
  end.

(** The grouping key of the RETURN, its columns without an aggregate:
    e.id, e.title, e.description, e.happened_at and place.name. *)
Definition GroupKey : Type := (Value * Value * Value * Value * Value)%type.

Definition key_of (e : Node) (w : Value) : GroupKey :=
  (prop "id" (nprops e), prop "title" (nprops e),
   prop "description" (nprops e), prop "happened_at" (nprops e), w).

Definition key_eqb (a b : GroupKey) : bool :=
  let '(a1, a2, a3, a4, a5) := a in
  let '(b1, b2, b3, b4, b5) := b in
  Value_eqb a1 b1 && Value_eqb a2 b2 && Value_eqb a3 b3 && Value_eqb a4 b4
  && Value_eqb a5 b5.

(** The OPTIONAL MATCHes and the RETURN with its [collect(DISTINCT ..)].
    The rows are grouped by the values of the key, not by node: events
    whose columns are equal fall into one record, and every aggregate
    collects over the rows of its group. *)
Definition complete (g : Graph) (es : list Node) : list EventView :=
  let rows := flat_map (fun e => map (fun w => (key_of e w, e))
                                     (where_values g e)) es in
  map (fun k =>
         let members :=
           map snd (filter (fun ke => key_eqb (fst ke) k) rows) in
         let '(i, t, d, h, w) := k in
         mkEventView i t d h
           (names_of "name" Person
              (flat_map (fun e => sources PARTICIPATED_IN e g) members))
           (names_of "id" Agent
              (flat_map (fun e => sources PARTICIPATED_IN e g) members))
           (names_of "name" Entity
              (flat_map (fun e => sources INVOLVED_IN e g) members))
           w
           (names_of "description" Catalyst
              (flat_map (fun e => targets CATALYZED_BY e g) members))
           (distinct EffectView_eqb (flat_map (effect_views g) members)))
      (distinct key_eqb (map fst rows)).

Definition nonempty (s : string) : bool := negb (String.eqb s EmptyString).

Definition truthy (v : Value) : bool :=
  match truthy_str v with Some _ => true | None => false end.

(** [result.records.map(record => ({..}))] with its [filter] calls. *)
Definition to_event (r : EventView) : EventView :=
  mkEventView (view_id r) (view_title r) (view_description r) (view_when r)
    (filter nonempty (view_people r)) (filter nonempty (view_agents r))
    (filter nonempty (view_what r)) (view_where r)
    (filter nonempty (view_why r))
    (filter (fun x => truthy (effect x)) (view_effects r)).

Definition later_first (a b : EventView) : bool :=
  desc Z.leb (time_of (view_when a)) (time_of (view_when b)).

(** The statement of [handleSearchEvents] with its [$limit] parameter. *)
Definition cypher_search (env : Env) (a : SearchArgs) (n : Value)
  : Stmt (list EventView) :=
  fun g =>
    match run_head env g (search_query a) with
    | None => None
    | Some rows =>
        match limit_rows n
                (sort_by later_first (complete g (distinct_events rows)))
        with
        | None => None
        | Some records => Some (g, records)
        end
    end.

Record SearchReply := mkSearchReply {
  events : list EventView;
  events_count : nat
}.

Definition handleSearchEvents (env : Env) (a : SearchArgs) : M SearchReply :=
  session ;;;
  finally
    (records <- session_run env "search events"
       (cypher_search env a (js_number (search_limit a))) ;;
     let evs := map to_event records in
     ret (mkSearchReply evs (List.length evs)))
    session_close.

(* ------------------------------------------------------------------------- *)
(** ** recall_memory *)

Record RecallArgs := mkRecallArgs {
  query : option string;
  emotional_range : option (Q * Q);
  temporal_range : option (Z * Z);
  significance_threshold : option Q;
  involves_entities : list string;
  event_types : list string;
  recall_limit : option Z;             (* [limit] *)
  include_consolidations : bool
}.

Record Memory := mkMemory {
  memory_id : Value;
  memory_timestamp : Value;
  memory_type : Value;
  memory_valence : Value;
  memory_significance : Value;
  memory_summary : Value;
  memory_full_content : Value;
  memory_glyph : Value;
  relevance_score : option Q;
  consolidations : option (list (string * Value * Value))
}.

Record RecallReply := mkRecallReply {
  memories : list Memory;
  memories_count : nat;
  semantic_search_used : bool
}.

(** [limit = 10] in the destructuring: only an omitted limit defaults. *)
Definition limit_of (a : RecallArgs) : Z :=
  match recall_limit a with Some n => n | None => 10%Z end.

Definition recall_whereClauses (a : RecallArgs) : list Atom :=
  (match emotional_range a with
   | Some (lo, hi) => [AValenceBetween lo hi]
   | None => []
   end)
  ++ (match temporal_range a with
      | Some (t0, t1) => [ATimestampBetween t0 t1]
      | None => []
      end)
  ++ (match significance_threshold a with
      | Some q => [ASignificanceAtLeast q]
      | None => []
      end)
  ++ (match event_types a with
      | [] => []
      | l => [ATypeIn l]
      end).

(** The head of [cypherQuery] as [handleRecallMemory] assembles it, after
    its first fragment [start]. *)
Definition recall_query (start : list Clause) (a : RecallArgs) : list Clause :=
  start
  ++ nonempty_join (involves_entities a) JInvolves (AEntityIn (involves_entities a))
  ++ where_clause (recall_whereClauses a).

(** [(score * 0.7 + e.significance * 0.3) AS final_score] in Floats: each
    literal and each operation is rounded.  Null when the event has no
    significance. *)
Definition final_score (r : Row) : option Q :=
  match row_score r, num_of (prop "significance" (nprops (row_e r))) with
  | Some score, Some sig =>
      Some (to_double (to_double (score * to_double (7 # 10))
                       + to_double (sig * to_double (3 # 10))))
  | _, _ => None
  end.

Definition consolidations_of (g : Graph) (e : Node)
  : list (string * Value * Value) :=
  omap_list (fun r =>
               match node_by_nid g (rdst r) with
               | Some target =>
                   match truthy_str (prop "id" (nprops target)) with
                   | Some t => Some (t, prop "consolidation_type" (rprops r),
                                     prop "strength" (rprops r))
                   | None => None
                   end
               | None => None
               end) (rels_from CONSOLIDATED_TO (nid e) g).

Definition same_group (a b : Row) : bool :=
  Nat.eqb (nid (row_e a)) (nid (row_e b))
  && optQ_eqb (final_score a) (final_score b).

Definition memory_of (r : Row) (cons : option (list (string * Value * Value)))
  : Memory :=
  let e := nprops (row_e r) in
  mkMemory (prop "id" e) (prop "timestamp" e) (prop "type" e)
    (prop "emotional_valence" e) (prop "significance" e)
    (prop "context_summary" e) (prop "full_content" e)
    (prop "glyph_encoding" e) (final_score r) cons.

(** The projection: with [include_consolidations] the OPTIONAL MATCH and
    [WITH e, final_score, collect(..)] group the rows by event and score and
    collect the consolidation targets of every row of the group. *)
Definition project (g : Graph) (inc : bool) (rows : list Row) : list Memory :=
  if inc then
    map (fun r =>
           memory_of r
             (Some (flat_map (fun r' => consolidations_of g (row_e r'))
                             (filter (same_group r) rows))))
        (distinct same_group rows)
  else map (fun r => memory_of r None) rows.

Definition higher_first (a b : Memory) : bool :=
  desc Qle_bool (relevance_score a) (relevance_score b).

(** The statement of [handleRecallMemory] with its [$limit] parameter. *)
Definition cypher_recall (env : Env) (q : list Clause) (inc : bool) (n : Value)
  : Stmt (list Memory) :=
  fun g =>
    match run_head env g q with
    | None => None
    | Some rows =>
        match limit_rows n (sort_by higher_first (project g inc rows)) with
        | None => None
        | Some records => Some (g, records)
        end
    end.

Definition handleRecallMemory (env : Env) (a : RecallArgs) : M RecallReply :=
  session ;;;
  finally
    (let n := js_number (limit_of a) in
     start <- match or_null_str (query a) with
              | Some text =>
                  queryEmbedding <- generateEmbedding env text ;;
                  ret [CVectorQuery (vtimes n 2) queryEmbedding]
              | None => ret [CMatchEvent; CWithScore (5 # 10)]
              end ;;
     records <- session_run env "recall"
       (cypher_recall env (recall_query start a) (include_consolidations a) n) ;;
     ret (mkRecallReply records (List.length records)
            (match or_null_str (query a) with Some _ => true | None => false end)))
    session_close.

(* ------------------------------------------------------------------------- *)
(** ** The write pipelines as scripts

    The statements a write handler sends through [tx.run], in order, and
    their effect on the transaction's copy when the store raises nothing. *)

Definition Script : Type := list (string * Stmt unit).

Definition tx_script (env : Env) (sc : Script) : M unit :=
  for_each sc (fun p => tx_run env (fst p) (snd p)).

(** The script under the store failures [fails], the first statement being
    round trip [k]. *)
Fixpoint run_script (fails : nat -> bool) (k : nat) (sc : Script) (w : Graph)
  : option Graph :=
  match sc with
  | [] => Some w
  | (_, q) :: rest =>
      if fails k then None
      else match q w with
           | None => None
           | Some (w', _) => run_script fails (S k) rest w'
           end
  end.

Definition apply_script (sc : Script) (w : Graph) : option Graph :=
  run_script (fun _ => false) 0 sc w.

Definition encode_timestamp (env : Env) (args : EncodeArgs) : Z :=
  match event_timestamp (event args) with
  | Some t => t
  | None => env_now env
  end.

Definition encode_script (env : Env) (args : EncodeArgs) (embedding : list Q)
  : Script :=
  let eventId := env_uuid env in
  ("CREATE Event",
   cypher_create_event eventId
     (event_props eventId (encode_timestamp env args) (event args) embedding))
  :: map (fun i => ("INVOLVES", cypher_involves eventId i)) (involves args)
  ++ map (fun p => ("PRECEDED", cypher_preceded eventId p)) (precedes args)
  ++ map (fun c => ("CONSOLIDATED_TO", cypher_consolidated eventId c))
         (consolidates_to args).

Definition who_steps (eventId : string) (p : Participant) : Script :=
  if String.eqb (participant_type p) "person"
  then [("Person", cypher_person eventId (participant_id p))]
  else if String.eqb (participant_type p) "agent"
  then [("Agent", cypher_agent eventId (participant_id p))]
  else [].

Definition write_script (env : Env) (ev : WriteEvent) : Script :=
  let eventId := written_id env ev in
  ("CREATE Event",
   cypher_create_event eventId
     (write_event_props eventId (written_at env ev) ev))
  :: (match or_null_str (where_ ev) with
      | Some placeName => [("HELD_AT", cypher_held_at eventId placeName)]
      | None => []
      end)
  ++ flat_map (who_steps eventId) (who ev)
  ++ map (fun r => ("CATALYZED_BY", cypher_catalyst eventId r)) (why ev)
  ++ map (fun x => ("INVOLVED_IN", cypher_involved_in eventId x))
         (what_entities ev)
  ++ map (fun x => ("PRODUCED", cypher_produced eventId x)) (what_produced ev)
  ++ map (fun x => ("HAD_EFFECT_ON", cypher_effect eventId x)) (effects ev).

(** Some store round trip among the first [n] of the call fails. *)
Definition store_fails_within (env : Env) (n : nat) : bool :=
  existsb (env_store_fails env) (seq 0 n).

Definition is_throw {A} (o : Outcome A) : bool :=
  match o with Throw _ => true | Return _ => false end.

Definition in_range (lo hi x : Q) : bool := Qle_bool lo x && Qle_bool x hi.

(** The two range checks of [handleEncodeMemory]. *)
Definition valid_event (ev : EventPayload) : bool :=
  negb (Qltb (emotional_valence ev) (-1 # 1) || Qltb 1 (emotional_valence ev))
  && negb (Qltb (significance ev) 0 || Qltb 1 (significance ev)).

Definition no_write (l : list IO) : bool :=
  forallb (fun e => match e with
                    | IOTxRun _ | IOSessionRun _ | IOCommit => false
                    | _ => true
                    end) l.

(* ------------------------------------------------------------------------- *)
(** ** Sample data *)

Definition sample_vector : list Q := [1 # 2; 1 # 4].

(** A store that is up, a provider that answers. *)
Definition env_up : Env :=
  mkEnv 1000 "uuid-1" (fun _ => Some sample_vector) (fun _ _ => [])
        (fun _ => false).

Definition env_later : Env :=
  mkEnv 2000 "uuid-2" (fun _ => Some sample_vector) (fun _ _ => [])
        (fun _ => false).

(** The provider is down. *)
Definition env_no_provider : Env :=
  mkEnv 1000 "uuid-1" (fun _ => None) (fun _ _ => []) (fun _ => false).

(** The store fails at the third round trip of the call. *)
Definition env_store_down_at_2 : Env :=
  mkEnv 1000 "uuid-1" (fun _ => Some sample_vector) (fun _ _ => [])
        (fun k => Nat.eqb k 2).

Definition ann_and_bob : Graph :=
  mkGraph [ mkNode 0 Person [("id", VStr "A"); ("name", VStr "Ann")];
            mkNode 1 Person [("id", VStr "B"); ("name", VStr "Bob")] ]
          [] 2.

Definition too_strong : EvolveBondArgs :=
  mkEvolveBondArgs "A" "B" (15 # 10) (Some (-3 # 1)) None None.

(** Ann and Bob joined by a BOND edge that has no trajectory (written
    through mutate_graph, say). *)
Definition ann_bob_bonded : Graph :=
  mkGraph (nodes ann_and_bob)
          [ mkRel 2 0 BOND 1 [("strength", VNum (1 # 2));
                              ("interaction_count", VInt 3)] ]
          3.

(** The first evolve_bond call on a pair. *)
Definition first_contact : EvolveBondArgs :=
  mkEvolveBondArgs "A" "B" (3 # 10) None None None.

(** A relationship without its properties. *)
Definition skeleton (r : Rel) : nat * nat * RelType * nat :=
  (rid r, rsrc r, rtype r, rdst r).

Definition kickoff : WriteEvent :=
  mkWriteEvent None "kickoff" "project kickoff" (Some 500%Z)
    [mkParticipant "Alice" "person"] ["deadline"] [] [] (Some "HQ")
    [mkEffectEntry "relief" "positive" (7 # 1) "Alice" "HUMAN"].

Definition retro : WriteEvent :=
  mkWriteEvent None "retro" "retrospective" (Some 900%Z)
    [mkParticipant "Alice" "person"; mkParticipant "claude" "agent"]
    ["deadline"] [mkEntityRef "E1" "roadmap" "document" None] []
    (Some "HQ")
    [mkEffectEntry "relief" "positive" (1 # 2) "Alice" "HUMAN"].

Definition memory_payload (valence sig : Q) : EventPayload :=
  mkEventPayload "conversation" (Some 700%Z) valence sig "first contact"
                 None None.

Definition too_happy : EncodeArgs :=
  mkEncodeArgs (memory_payload (15 # 10) (1 # 2)) [] [] [].

Definition dangling : EncodeArgs :=
  mkEncodeArgs (memory_payload (1 # 2) (1 # 2))
    [mkInvolvement "nobody" "subject" (1 # 1)]
    ["no-such-event"]
    [mkConsolidation "no-such-concept" (1 # 2) "semantic"].

Definition involving_ann : EncodeArgs :=
  mkEncodeArgs (memory_payload (1 # 2) (1 # 2))
    [mkInvolvement "A" "subject" (1 # 1)] [] [].

(* ------------------------------------------------------------------------- *)
(** ** Reference nodes *)

(** The identifier-bearing nodes [handleWriteEvent] refers to, with the
    pattern of their MERGE. *)
Inductive Ref :=
| RPerson (name : string)
| RAgent (agentId : string)
| REntity (entityId : string)
| RPlace (name : string)
| RCatalyst (reason : string)
| RTarget (targetId targetKind : string).

Definition ref_label (r : Ref) : Label :=
  match r with
  | RPerson _ => Person
  | RAgent _ => Agent
  | REntity _ => Entity
  | RPlace _ => Place
  | RCatalyst _ => Catalyst
  | RTarget _ _ => Target
  end.

Definition ref_pattern (r : Ref) : list (string * string) :=
  match r with
  | RPerson name => [("name", name)]
  | RAgent i => [("id", i)]
  | REntity i => [("id", i)]
  | RPlace name => [("name", name)]
  | RCatalyst reason => [("description", reason)]
  | RTarget i k => [("id", i); ("kind", k)]
  end.

Definition count_ref (r : Ref) (g : Graph) : nat :=
  List.length (match_nodes (ref_label r) (ref_pattern r) g).

(** No reference node is stored twice (true of the empty store). *)
Definition unique_refs (g : Graph) : Prop :=
  forall r, (count_ref r g <= 1)%nat.

(** The event refers to [r] in one of its blocks. *)
Definition mentions (ev : WriteEvent) (r : Ref) : Prop :=
  match r with
  | RPerson name => In (mkParticipant name "person") (who ev)
  | RAgent i => In (mkParticipant i "agent") (who ev)
  | REntity i =>
      exists x, In x (what_entities ev ++ what_produced ev) /\ ref_id x = i
  | RPlace name => or_null_str (where_ ev) = Some name
  | RCatalyst reason => In reason (why ev)
  | RTarget i k =>
      exists x, In x (effects ev)
                /\ effect_target_id x = i /\ effect_target_kind x = k
  end.

Definition matches (l : Label) (pat : list (string * string)) (n : Node)
  : bool :=
  Label_eqb l (nlabel n) && has_props pat n.

(** The node a MERGE creates for the reference [r0]. *)
Definition new_ref_node (i : nat) (r0 : Ref) (on_create : Props) : Node :=
  mkNode i (ref_label r0) (pat_props (ref_pattern r0) ++ on_create).

(** What a statement of the script may assume and must keep. *)
Definition script_inv (eventId : string) (e0 : Node) (w : Graph) : Prop :=
  unique_refs w /\ match_nodes Event [("id", eventId)] w = [e0].

(** [w'] is [w] after the reference [r0] was upserted and [d] Effect nodes
    were created. *)
Definition upserted (eventId : string) (e0 : Node) (r0 : Ref) (d : nat)
    (w w' : Graph) : Prop :=
  script_inv eventId e0 w'
  /\ count_ref r0 w' = 1%nat
  /\ (forall r, (count_ref r w <= count_ref r w')%nat)
  /\ count_nodes Event w' = count_nodes Event w
  /\ count_nodes Effect w' = (count_nodes Effect w + d)%nat.

Definition upserts (eventId : string) (q : Stmt unit) (r0 : Ref) (d : nat)
  : Prop :=
  forall w e0,
    script_inv eventId e0 w ->
    exists w', q w = Some (w', tt) /\ upserted eventId e0 r0 d w w'.

Definition keeps_nodes (q : Stmt unit) : Prop :=
  forall w, exists w', q w = Some (w', tt) /\ nodes w' = nodes w.

Definition stored_events (g : Graph) : list Node :=
  filter (has_label Event) (nodes g).

(** No structured filter is supplied. *)
Definition no_filters (a : SearchArgs) : Prop :=
  time_range a = None /\ participants a = [] /\ entities a = []
  /\ or_null_str (place a) = None /\ or_null_str (effects_on a) = None
  /\ min_effect_intensity a = None.

(** The store after [ev] was written. *)
Definition after_write (env : Env) (ev : WriteEvent) (g : Graph) : Graph :=
  db (snd (handleWriteEvent env ev (boot g))).

Definition after_encode (env : Env) (args : EncodeArgs) (g : Graph) : Graph :=
  db (snd (handleEncodeMemory env args (boot g))).

Definition two_events : Graph :=
  Eval vm_compute in
    after_write env_later retro (after_write env_up kickoff empty_graph).

Definition remembered : Graph :=
  Eval vm_compute in
  after_encode env_later
    (mkEncodeArgs (memory_payload (1 # 4) (9 # 10)) [] [] [])
    (after_encode env_up involving_ann ann_and_bob).

(** [n] Event nodes with significance 1/2. *)
Definition crowd (n : nat) : Graph :=
  mkGraph
    (map (fun i => mkNode i Event
                     [("id", VStr (String (ascii_of_nat (33 + i)) EmptyString));
                      ("happened_at", VTime (Z.of_nat i));
                      ("significance", VNum (1 # 2))])
         (seq 0 n))
    [] n.

Definition search_all (n : option Z) : SearchArgs :=
  mkSearchArgs None None [] [] None None None n.

Definition alice_at_hq : SearchArgs :=
  mkSearchArgs None None ["Alice"] [] (Some "HQ") None None None.

Definition with_alice : SearchArgs :=
  mkSearchArgs None None ["Alice"] [] None None None None.

Definition at_hq : SearchArgs :=
  mkSearchArgs None None [] [] (Some "HQ") None None None.

Definition recall_all (n : option Z) : RecallArgs :=
  mkRecallArgs None None None None [] [] n false.

Definition significant_with_ann : RecallArgs :=
  mkRecallArgs None None None (Some (1 # 10)) ["A"] [] None false.

Definition with_ann : RecallArgs :=
  mkRecallArgs None None None None ["A"] [] None false.

Definition significant : RecallArgs :=
  mkRecallArgs None None None (Some (1 # 10)) [] [] None false.

(** The ids of the events that the head of a statement binds, row by row;
    [None] when the store refuses the head. *)
Definition bound_ids (env : Env) (g : Graph) (q : list Clause)
  : option (list Value) :=
  option_map (map (fun r => prop "id" (nprops (row_e r)))) (run_head env g q).

(** A filter that the search handler turns into a MATCH with its own
    WHERE. *)
Definition search_joins (a : SearchArgs) : bool :=
  match participants a, entities a, min_effect_intensity a with
  | [], [], None => false
  | _, _, _ => true
  end.

Definition some_atoms (l : list Atom) : bool :=
  match l with [] => false | _ => true end.

Definition recall_joins (a : RecallArgs) : bool :=
  match involves_entities a with [] => false | _ => true end.

(* ------------------------------------------------------------------------- *)
(** ** What a call leaves behind *)

(** [g'] holds every node and every relationship of [g], unchanged and in
    place, and possibly more after them. *)
Definition grows (g g' : Graph) : Prop :=
  exists ns rs, nodes g' = nodes g ++ ns /\ rels g' = rels g ++ rs.

(** [g'] grows from [g] and none of its new nodes is an Event. *)
Definition extends (g g' : Graph) : Prop :=
  exists ns rs, nodes g' = nodes g ++ ns /\ rels g' = rels g ++ rs
                /\ Forall (fun n => nlabel n <> Event) ns.

(** A statement that only adds to the graph it works on. *)
Definition only_adds (q : Stmt unit) : Prop :=
  forall w w', q w = Some (w', tt) -> grows w w'.

(** [r'] is the relationship [r] after some evolve_bond calls: the same
    edge, untouched unless it is a BOND, its milestones and trajectory
    extended at the end, its counter not decreased and its first
    interaction kept. *)
Definition history_kept (r r' : Rel) : Prop :=
  rid r' = rid r /\ rsrc r' = rsrc r /\ rtype r' = rtype r /\ rdst r' = rdst r
  /\ (rtype r <> BOND -> r' = r)
  /\ (forall l, prop "milestones" (rprops r) = VStrs l ->
        exists l', prop "milestones" (rprops r') = VStrs (l ++ l'))
  /\ (forall l, prop "evolution_trajectory" (rprops r) = VSnaps l ->
        exists l', prop "evolution_trajectory" (rprops r') = VSnaps (l ++ l'))
  /\ (forall n, prop "interaction_count" (rprops r) = VInt n ->
        exists k, prop "interaction_count" (rprops r')
                  = VInt (n + Z.of_nat k))
  /\ prop "first_interaction" (rprops r')
     = prop "first_interaction" (rprops r).

Definition is_embedding (e : IO) : bool :=
  match e with IOEmbedding _ => true | _ => false end.

Definition count_io (p : IO -> bool) (l : list IO) : nat :=
  List.length (filter p l).

Definition asking (text : string) : RecallArgs :=
  mkRecallArgs (Some text) None None None [] [] None false.

(** The store fails at round trip [k] of the call and at no other. *)
Definition env_store_down_at (k : nat) : Env :=
  mkEnv 1000 "uuid-1" (fun _ => Some sample_vector) (fun _ _ => [])
        (fun i => Nat.eqb i k).

(** A computation that leaves the committed store and the transaction
    state as they are. *)
Definition reads {A} (m : M A) : Prop :=
  forall s, db (snd (m s)) = db s /\ txn (snd (m s)) = txn s.

(** [g'] is [g] after some evolve_bond calls: the same nodes, every
    relationship of [g] still there with its history kept, and possibly new
    BOND edges after them. *)
Definition evolved (g g' : Graph) : Prop :=
  nodes g' = nodes g
  /\ exists kept new,
       rels g' = kept ++ new
       /\ Forall2 history_kept (rels g) kept
       /\ Forall (fun r => rtype r = BOND) new.

(** The store after Ann's memory was encoded. *)
Definition ann_remembered : Graph :=
  Eval vm_compute in after_encode env_up involving_ann ann_and_bob.

(* ------------------------------------------------------------------------- *)
(** ** What the filters ask of an event *)

Definition participant_in (l : list string) (x : Node) : bool :=
  str_in l (prop "name" (nprops x)) || str_in l (prop "id" (nprops x)).

Definition id_in (l : list string) (x : Node) : bool :=
  str_in l (prop "id" (nprops x)).

Definition intense (q : Q) (f : Node) : bool :=
  at_least q (prop "intensity" (nprops f)).

(** The event [e] passes every filter that the hippocampus_search_events
    call [a] supplies, each as its Cypher fragment reads. *)
Definition search_satisfied (g : Graph) (a : SearchArgs) (e : Node) : bool :=
  (match participants a with
   | [] => true
   | l => existsb (participant_in l) (join_nodes JParticipant e g)
   end)
  && (match entities a with
      | [] => true
      | l => existsb (id_in l) (join_nodes JEntity e g)
      end)
  && (match min_effect_intensity a with
      | Some q => existsb (intense q) (join_nodes JEffect e g)
      | None => true
      end)
  && (match time_range a with
      | Some (t0, t1) => between_Z t0 t1 (prop "happened_at" (nprops e))
      | None => true
      end)
  && (match or_null_str (place a) with
      | Some p => held_at p e g
      | None => true
      end)
  && (match or_null_str (effects_on a) with
      | Some t => effect_on t e g
      | None => true
      end).

(** The event [e] passes every filter that the recall_memory call [a]
    supplies. *)
Definition recall_satisfied (g : Graph) (a : RecallArgs) (e : Node) : bool :=
  (match involves_entities a with
   | [] => true
   | l => existsb (id_in l) (join_nodes JInvolves e g)
   end)
  && (match emotional_range a with
      | Some (lo, hi) =>
          match num_of (prop "emotional_valence" (nprops e)) with
          | Some x => Qle_bool lo x && Qle_bool x hi
          | None => false
          end
      | None => true
      end)
  && (match temporal_range a with
      | Some (t0, t1) => between_Z t0 t1 (prop "timestamp" (nprops e))
      | None => true
      end)
  && (match significance_threshold a with
      | Some q => at_least q (prop "significance" (nprops e))
      | None => true
      end)
  && (match event_types a with
      | [] => true
      | l => str_in l (prop "type" (nprops e))
      end).

(* ------------------------------------------------------------------------- *)
(** ** mutate_graph, query_graph and the tool dispatcher *)

(** [summary.counters.updates()] *)
Record Counters := mkCounters {
  nodesCreated : Z;
  nodesDeleted : Z;
  relationshipsCreated : Z;
  relationshipsDeleted : Z;
  propertiesSet : Z
}.

Record CypherArgs := mkCypherArgs {
  cypher : string;
  params : Props
}.

Record MutateReply := mkMutateReply {
  mutate_records : list Props;
  mutate_summary : Counters
}.

Record QueryReply := mkQueryReply {
  query_records : list Props;
  query_count : nat
}.

Record ReflectionArgs := mkReflectionArgs {
  reflection_event_id : string;
  reflection_agent_id : string;
  reflection_summary : string;
  reflection_valence : string;
  considered_targets : list string
}.

Inductive ToolData :=
| DataEvent (r : WriteReply)
| DataReflection (r : Props)
| DataEvents (r : SearchReply)
| DataMemory (r : EncodeReply)
| DataMemories (r : RecallReply)
| DataMutation (r : MutateReply)
| DataBond (r : BondReply)
| DataRecords (r : QueryReply).

(** The JSON text of a tool result: [{success: true, data}] from a handler,
    [{success: false, error}] from the dispatcher's catch block. *)
Inductive Payload :=
| Success (data : ToolData)
| Failure (error : string).

Definition known_tool (name : string) : bool :=
  existsb (String.eqb name)
    [ "hippocampus_write_event"; "hippocampus_write_reflection";
      "hippocampus_search_events"; "encode_memory"; "recall_memory";
      "mutate_graph"; "evolve_bond"; "query_graph" ].

(** A tool call: one of the eight tools with arguments of the shape of its
    input schema, or a name that no [case] of the dispatcher has. *)
Inductive ToolCall :=
| CallWriteEvent (ev : WriteEvent)
| CallWriteReflection (r : ReflectionArgs)
| CallSearchEvents (a : SearchArgs)
| CallEncodeMemory (args : EncodeArgs)
| CallRecallMemory (a : RecallArgs)
| CallMutateGraph (args : CypherArgs)
| CallEvolveBond (args : EvolveBondArgs)
| CallQueryGraph (args : CypherArgs)
| CallOther (name : string) (other : known_tool name = false).

Definition tool_name (call : ToolCall) : string :=
  match call with
  | CallWriteEvent _ => "hippocampus_write_event"
  | CallWriteReflection _ => "hippocampus_write_reflection"
  | CallSearchEvents _ => "hippocampus_search_events"
  | CallEncodeMemory _ => "encode_memory"
  | CallRecallMemory _ => "recall_memory"
  | CallMutateGraph _ => "mutate_graph"
  | CallEvolveBond _ => "evolve_bond"
  | CallQueryGraph _ => "query_graph"
  | CallOther name _ => name
  end.

(** What a handler is given as its third argument. *)
Inductive Third :=
| TheDriver
| TheContext.

(** The extension handlers take the driver as third argument and start with
    [driver.session()]; the context object ([{driver, openai,
    generateEmbedding}]) has no such method, and the call of [undefined]
    throws a TypeError, whose message this is, before the handler does
    anything else. *)
Definition with_driver {A} (third : Third) (handler : M A) : M A :=
  match third with
  | TheDriver => handler
  | TheContext => throw "driver.session is not a function"
  end.

Definition reply_with {A} (wrap : A -> ToolData) (handler : M A) : M Payload :=
  r <- handler ;; ret (Success (wrap r)).

Section Dispatcher.

(** What the store makes of a statement text and its parameters (the
    records and the update counters); [None] when it rejects them. *)
Variable interpret : string -> Props -> Stmt (list Props * Counters).

(** The body of [handleWriteReflection] once it has its session. *)
Variable handleWriteReflection : ReflectionArgs -> M Props.

Variable env : Env.

Definition handleMutateGraph (args : CypherArgs) : M MutateReply :=
  session ;;;
  finally
    (result <- session_run env (cypher args)
                 (interpret (cypher args) (params args)) ;;
     ret (mkMutateReply (fst result) (snd result)))
    session_close.

Definition handleQueryGraph (args : CypherArgs) : M QueryReply :=
  session ;;;
  finally
    (result <- session_run env (cypher args)
                 (interpret (cypher args) (params args)) ;;
     ret (mkQueryReply (fst result) (List.length (fst result))))
    session_close.

(** [server.setRequestHandler(CallToolRequestSchema, ..)] of the stdio
    server: every handler is called with the context object as its third
    argument. *)
Definition dispatch (call : ToolCall) : M Payload :=
  try_catch
    (match call with
     | CallWriteEvent ev =>
         reply_with DataEvent
           (with_driver TheContext (handleWriteEvent env ev))
     | CallWriteReflection r =>
         reply_with DataReflection
           (with_driver TheContext (handleWriteReflection r))
     | CallSearchEvents a =>
         reply_with DataEvents
           (with_driver TheContext (handleSearchEvents env a))
     | CallEncodeMemory args =>
         reply_with DataMemory (handleEncodeMemory env args)
     | CallRecallMemory a =>
         reply_with DataMemories (handleRecallMemory env a)
     | CallMutateGraph args =>
         reply_with DataMutation (handleMutateGraph args)
     | CallEvolveBond args =>
         reply_with DataBond (handleEvolveBond env args)
     | CallQueryGraph args =>
         reply_with DataRecords (handleQueryGraph args)
     | CallOther name _ => throw ("Unknown tool: " ++ name)
     end)
    (fun error => ret (Failure error)).

End Dispatcher.

(** A statement that deletes everything, as the store reads it. *)
Definition detach_delete_all : string -> Props -> Stmt (list Props * Counters) :=
  fun _ _ g =>
    Some (mkGraph [] [] (fresh g),
          ([], mkCounters 0 (Z.of_nat (List.length (nodes g))) 0
                          (Z.of_nat (List.length (rels g))) 0)).

Definition delete_everything : CypherArgs :=
  mkCypherArgs "MATCH (n) DETACH DELETE n" [].

(* ------------------------------------------------------------------------- *)
(** ** The remote (HTTP/SSE) server

    The remote server has handlers of its own for three tools, simplified
    from those of the stdio server. *)

Module Remote.

Record EncodeReply := mkEncodeReply {
  reply_event_id : string;
  reply_timestamp : Z
}.

Record Hit := mkHit {
  hit_id : Value;
  hit_context_summary : Value;
  hit_emotional_valence : Value;
  hit_score : option Q
}.

(** [{memories, count}] with a query, [{memories: []}] without. *)
Record RecallReply := mkRecallReply {
  reply_memories : list Hit;
  reply_count : option nat
}.

Inductive ToolData :=
| DataMemory (r : EncodeReply)
| DataMemories (r : RecallReply)
| DataRecords (r : QueryReply).

Inductive Payload :=
| Success (data : ToolData)
| Failure (error : string).

Definition reply_with {A} (wrap : A -> ToolData) (handler : M A) : M Payload :=
  r <- handler ;; ret (Success (wrap r)).

Definition event_props (id : string) (timestamp : Z) (ev : EventPayload)
    (embedding : list Q) : Props :=
  [ ("id", VStr id);
    ("timestamp", VTime timestamp);
    ("type", VStr (event_type ev));
    ("emotional_valence", VNum (emotional_valence ev));
    ("significance", VNum (significance ev));
    ("context_summary", VStr (context_summary ev));
    ("full_content", of_opt_str (or_null_str (full_content ev)));
    ("embedding", VVec embedding);
    ("embedding_model", VStr "text-embedding-3-small") ].

Definition hit_of (r : Row) : Hit :=
  mkHit (prop "id" (nprops (row_e r)))
        (prop "context_summary" (nprops (row_e r)))
        (prop "emotional_valence" (nprops (row_e r)))
        (row_score r).

(** [CALL db.index.vector.queryNodes('event_embeddings', $limit, ..)
     YIELD node AS e, score RETURN .. LIMIT $limit] *)
Definition cypher_recall (env : Env) (v : list Q) (n : Value)
  : Stmt (list Hit) :=
  fun g =>
    match run_head env g [CVectorQuery n v] with
    | None => None
    | Some rows =>
        match limit_rows n rows with
        | None => None
        | Some records => Some (g, map hit_of records)
        end
    end.

Section Handlers.

Variable interpret : string -> Props -> Stmt (list Props * Counters).

Variable env : Env.

Definition handleEncodeMemory (args : EncodeArgs) : M EncodeReply :=
  session ;;;
  finally
    (let ev := event args in
     let eventId := env_uuid env in
     let timestamp := match event_timestamp ev with
                      | Some t => t
                      | None => env_now env
                      end in
     embedding <- generateEmbedding env (context_summary ev) ;;
     session_run env "CREATE Event"
       (cypher_create_event eventId
          (event_props eventId timestamp ev embedding)) ;;;
     ret (mkEncodeReply eventId timestamp))
    session_close.

Definition handleRecallMemory (a : RecallArgs) : M RecallReply :=
  session ;;;
  finally
    (match or_null_str (query a) with
     | Some text =>
         queryEmbedding <- generateEmbedding env text ;;
         memories <- session_run env "recall"
                       (cypher_recall env queryEmbedding
                          (js_number (limit_of a))) ;;
         ret (mkRecallReply memories (Some (List.length memories)))
     | None => ret (mkRecallReply [] None)
     end)
    session_close.

Definition handleQueryGraph (args : CypherArgs) : M QueryReply :=
  session ;;;
  finally
    (result <- session_run env (cypher args)
                 (interpret (cypher args) (params args)) ;;
     ret (mkQueryReply (fst result) (List.length (fst result))))
    session_close.

(** [setupToolHandlers]: the three tools, anything else is unknown. *)
Definition dispatch (call : ToolCall) : M Payload :=
  try_catch
    (match call with
     | CallEncodeMemory args => reply_with DataMemory (handleEncodeMemory args)
     | CallRecallMemory a => reply_with DataMemories (handleRecallMemory a)
     | CallQueryGraph args => reply_with DataRecords (handleQueryGraph args)
     | other => throw ("Unknown tool: " ++ tool_name other)
     end)
    (fun error => ret (Failure error)).

End Handlers.

End Remote.

(** The payload the dispatcher answers with when a handler ends in [o]. *)
Definition payload_of {A} (wrap : A -> ToolData) (o : Outcome A) : Payload :=
  match o with
  | Return r => Success (wrap r)
  | Throw e => Failure e
  end.

(** The tools the remote server has a handler for. *)
Definition remote_tool (call : ToolCall) : bool :=
  match call with
  | CallEncodeMemory _ | CallRecallMemory _ | CallQueryGraph _ => true
  | _ => false
  end.

Definition env_ranked (hits : list (Node * Q)) : Env :=
  mkEnv 1000 "uuid-1" (fun _ => Some sample_vector) (fun _ _ => hits)
        (fun _ => false).

(* ------------------------------------------------------------------------- *)
(** ** The blocks of hippocampus_write_event *)

(** The participant types the who-block has a branch for. *)
Definition known_participant (p : Participant) : bool :=
  String.eqb (participant_type p) "person"
  || String.eqb (participant_type p) "agent".

Definition with_who (ev : WriteEvent) (l : list Participant) : WriteEvent :=
  mkWriteEvent (id ev) (title ev) (description ev) (happened_at ev) l (why ev)
    (what_entities ev) (what_produced ev) (where_ ev) (effects ev).

(** The statements of the where, who, why and what blocks: each merges a
    reference node and merges its link with the event. *)
Definition bind_steps (env : Env) (ev : WriteEvent) : Script :=
  let eventId := written_id env ev in
  (match or_null_str (where_ ev) with
   | Some placeName => [("HELD_AT", cypher_held_at eventId placeName)]
   | None => []
   end)
  ++ flat_map (who_steps eventId) (who ev)
  ++ map (fun r => ("CATALYZED_BY", cypher_catalyst eventId r)) (why ev)
  ++ map (fun x => ("INVOLVED_IN", cypher_involved_in eventId x))
         (what_entities ev)
  ++ map (fun x => ("PRODUCED", cypher_produced eventId x)) (what_produced ev).

Definition effect_steps (env : Env) (ev : WriteEvent) : Script :=
  map (fun x => ("HAD_EFFECT_ON", cypher_effect (written_id env ev) x))
      (effects ev).

(** The link of a bind statement: from the event to the reference node, or
    from the reference node to the event. *)
Definition link_of (t : RelType) (outgoing : bool) (e x : Node) : Graph -> Graph :=
  if outgoing then merge_rel t (nid e) (nid x) else merge_rel t (nid x) (nid e).

Definition linked (t : RelType) (outgoing : bool) (e x : Node) (g : Graph)
  : Prop :=
  if outgoing then rels_between t (nid e) (nid x) g <> []
  else rels_between t (nid x) (nid e) g <> [].

Definition bind_statement (eventId : string) (r0 : Ref) (on_create : Props)
    (t : RelType) (outgoing : bool) : Stmt unit :=
  match_merge_link eventId (ref_label r0) (ref_pattern r0) on_create
    (link_of t outgoing).

Definition guests : WriteEvent :=
  mkWriteEvent None "party" "office party" (Some 400%Z)
    [mkParticipant "Alice" "person"; mkParticipant "Rex" "dog";
     mkParticipant "claude" "agent"; mkParticipant "Alice" "person"]
    [] [] [] None [].

(** A statement that runs on every graph in which the event is bound and no
    reference is stored twice, and keeps it so. *)
Definition keeps_script_inv (eventId : string) (q : Stmt unit) : Prop :=
  forall w e0,
    script_inv eventId e0 w ->
    exists w', q w = Some (w', tt) /\ script_inv eventId e0 w'.

(* ------------------------------------------------------------------------- *)
(** ** What hippocampus_write_event binds *)

(** One entry of a block of the event that the handler has a statement
    for. *)
Inductive Binding :=
| BHeldAt (placeName : string)
| BPerson (name : string)
| BAgent (agentId : string)
| BCatalyst (reason : string)
| BInvolvedIn (x : EntityRef)
| BProduced (x : EntityRef)
| BEffect (x : EffectEntry).

Definition who_bindings (p : Participant) : list Binding :=
  if String.eqb (participant_type p) "person"
  then [BPerson (participant_id p)]
  else if String.eqb (participant_type p) "agent"
  then [BAgent (participant_id p)]
  else [].

(** The entries of the where, who, why, what and effects blocks, in the
    order in which the handler goes through them. *)
Definition bindings (ev : WriteEvent) : list Binding :=
  (match or_null_str (where_ ev) with
   | Some placeName => [BHeldAt placeName]
   | None => []
   end)
  ++ flat_map who_bindings (who ev)
  ++ map BCatalyst (why ev)
  ++ map BInvolvedIn (what_entities ev)
  ++ map BProduced (what_produced ev)
  ++ map BEffect (effects ev).

(** The statement the handler sends for an entry. *)
Definition binding_step (eventId : string) (b : Binding)
  : string * Stmt unit :=
  match b with
  | BHeldAt placeName => ("HELD_AT", cypher_held_at eventId placeName)
  | BPerson name => ("Person", cypher_person eventId name)
  | BAgent agentId => ("Agent", cypher_agent eventId agentId)
  | BCatalyst reason => ("CATALYZED_BY", cypher_catalyst eventId reason)
  | BInvolvedIn x => ("INVOLVED_IN", cypher_involved_in eventId x)
  | BProduced x => ("PRODUCED", cypher_produced eventId x)
  | BEffect x => ("HAD_EFFECT_ON", cypher_effect eventId x)
  end.

(** The reference node of an entry is stored and joined with the event. *)
Definition joined (l : Label) (pat : list (string * string)) (t : RelType)
    (outgoing : bool) (e : Node) (w : Graph) : Prop :=
  exists x, In x (match_nodes l pat w) /\ linked t outgoing e x w.

(** The store [w] holds what the entry [b] asks for the event [e]: the
    node the entry names, joined with [e] by the relationship of its block;
    for an effect, an Effect node with the summary, valence and intensity
    of the entry, between [e] and the Target. *)
Definition bound (e : Node) (w : Graph) (b : Binding) : Prop :=
  match b with
  | BHeldAt placeName =>
      joined Place [("name", placeName)] HELD_AT true e w
  | BPerson name =>
      joined Person [("name", name)] PARTICIPATED_IN false e w
  | BAgent agentId =>
      joined Agent [("id", agentId)] PARTICIPATED_IN false e w
  | BCatalyst reason =>
      joined Catalyst [("description", reason)] CATALYZED_BY true e w
  | BInvolvedIn x =>
      joined Entity [("id", ref_id x)] INVOLVED_IN false e w
  | BProduced x =>
      joined Entity [("id", ref_id x)] PRODUCED true e w
  | BEffect x =>
      exists f t,
        In f (nodes w)
        /\ nlabel f = Effect
        /\ nprops f = [("summary", VStr (summary x));
                       ("valence", VStr (valence x));
                       ("intensity", VNum (intensity x))]
        /\ rels_between HAD_EFFECT_ON (nid e) (nid f) w <> []
        /\ In t (match_nodes Target [("id", effect_target_id x);
                                     ("kind", effect_target_kind x)] w)
        /\ rels_between WITH_RESPECT_TO (nid f) (nid t) w <> []
  end.

(** The Event node a committed hippocampus_write_event creates on [g]. *)
Definition written_event (env : Env) (ev : WriteEvent) (g : Graph) : Node :=
  mkNode (fresh g) Event
    (write_event_props (written_id env ev) (written_at env ev) ev).

(** The Event node a committed encode_memory creates on [g]. *)
Definition encoded_event (env : Env) (args : EncodeArgs) (v : list Q)
    (g : Graph) : Node :=
  mkNode (fresh g) Event
    (event_props (env_uuid env) (encode_timestamp env args) (event args) v).

(* ------------------------------------------------------------------------- *)
(** ** The relationships encode_memory writes *)

(** A relationship without its store identifier. *)
Definition Edge : Type := (nat * RelType * nat * Props)%type.

Definition edge_of (r : Rel) : Edge := (rsrc r, rtype r, rdst r, rprops r).

(** The relationships the reference statements of encode_memory create for
    the new event [e] on the graph [w] that already holds it: one per
    reference and node the reference resolves to. *)
Definition involves_edges (w : Graph) (e : Node) (i : Involvement) : list Edge :=
  map (fun entity => (nid e, INVOLVES, nid entity,
                      [("role", VStr (role i));
                       ("salience", VNum (salience i))]))
      (match_any [("id", entity_id i)] w).

Definition preceded_edges (w : Graph) (e : Node) (precedingId : string)
  : list Edge :=
  map (fun e1 => (nid e1, PRECEDED, nid e,
                  [("temporal_distance",
                    duration_between (prop "timestamp" (nprops e1))
                                     (prop "timestamp" (nprops e)));
                   ("causal_strength", VNum (8 # 10))]))
      (match_nodes Event [("id", precedingId)] w).

Definition consolidated_edges (w : Graph) (e : Node) (c : Consolidation)
  : list Edge :=
  map (fun target => (nid e, CONSOLIDATED_TO, nid target,
                      [("strength", VNum (consolidation_strength c));
                       ("consolidation_type", VStr (consolidation_type c));
                       ("rehearsal_count", VInt 1)]))
      (match_any [("id", target_id c)] w).

Definition encode_edges (w : Graph) (e : Node) (args : EncodeArgs) : list Edge :=
  flat_map (involves_edges w e) (involves args)
  ++ flat_map (preceded_edges w e) (precedes args)
  ++ flat_map (consolidated_edges w e) (consolidates_to args).

(** Ann's memory, preceded by an event that is not stored and consolidated
    to Bob. *)
Definition linking : EncodeArgs :=
  mkEncodeArgs (memory_payload (1 # 2) (1 # 2))
    [mkInvolvement "A" "subject" (1 # 1)]
    ["no-such-event"]
    [mkConsolidation "B" (1 # 2) "semantic"].

(** Two candidates of the vector index, best first. *)
Definition two_hits : list (Node * Q) :=
  [ (mkNode 3 Event [("id", VStr "uuid-2"); ("context_summary", VStr "second");
                     ("emotional_valence", VNum (1 # 4))], 9 # 10);
    (mkNode 2 Event [("id", VStr "uuid-1"); ("context_summary", VStr "first");
                     ("emotional_valence", VNum (1 # 2))], 1 # 2) ].

Definition asking_one (text : string) : RecallArgs :=
  mkRecallArgs (Some text) None None None [] [] (Some 1%Z) false.

(* ------------------------------------------------------------------------- *)
(** * Properties *)

(** ** Property bags *)

Lemma prop_set_same (k : string) (v : Value) (ps : Props) :
  prop k (set_prop k v ps) = v.
Proof.
  induction ps as [|[k' v'] ps IH]; simpl.
  - now rewrite String.eqb_refl.
  - destruct (String.eqb k k') eqn:E; simpl.
    + now rewrite String.eqb_refl.
    + now rewrite E.
Qed.

Lemma prop_set_other (k k' : string) (v : Value) (ps : Props) :
  k <> k' -> prop k (set_prop k' v ps) = prop k ps.
Proof.
  intros Hk. induction ps as [|[k1 v1] ps IH]; simpl.
  - destruct (String.eqb k k') eqn:E; [apply String.eqb_eq in E; contradiction|reflexivity].
  - destruct (String.eqb k' k1) eqn:E1; simpl.
    + apply String.eqb_eq in E1; subst k1.
      destruct (String.eqb k k') eqn:E; [apply String.eqb_eq in E; contradiction|reflexivity].
    + destruct (String.eqb k k1); [reflexivity|exact IH].
Qed.

Ltac prop_simpl :=
  repeat first
    [ rewrite prop_set_same
    | rewrite prop_set_other by discriminate ].

(** ** evolve_bond *)

(** ** The frame of a handler *)

Lemma session_then {A} (k : M A) (s : Sys) :
  (session ;;; k) s = k (mkSys (db s) (txn s) (log s ++ [IOSession]) (tick s)).
Proof. reflexivity. Qed.

Lemma begin_then {A} (k : M A) (s : Sys) :
  (beginTransaction ;;; k) s
  = k (mkSys (db s) (Some (db s)) (log s ++ [IOBeginTransaction]) (tick s)).
Proof. reflexivity. Qed.

Lemma finally_close_log {A} (body : M A) (s : Sys) :
  log (snd (finally body session_close s))
  = log (snd (body s)) ++ [IOSessionClose].
Proof.
  unfold finally, session_close, emit. destruct (body s) as [o s']. reflexivity.
Qed.

(** ** evolve_bond *)

Lemma all_some_Forall2 {A B} (f : A -> option B) (l : list A) (out : list B) :
  all_some (map f l) = Some out -> Forall2 (fun a b => f a = Some b) l out.
Proof.
  revert out. induction l as [|a l IH]; intros out; cbn [map all_some].
  - intros H. injection H as <-. constructor.
  - destruct (f a) as [b|] eqn:E; [|discriminate].
    destruct (all_some (map f l)) as [t|]; [|discriminate].
    intros H. injection H as <-. constructor; [exact E|now apply IH].
Qed.

(** The ON MATCH block runs only on a bond without trajectory, and leaves
    it without one. *)
Lemma bond_on_match_null (now : Z) (s : Q) (res : option Q)
    (ms ctx : option string) (b ps : Props) :
  bond_on_match now s res ms ctx b = Some ps ->
  prop "evolution_trajectory" b = VNull
  /\ prop "evolution_trajectory" ps = VNull.
Proof.
  unfold bond_on_match. prop_simpl.
  destruct (prop "evolution_trajectory" b) as [| | | | |[|x l]|[|x l]|l];
    cbn [vpush_snap]; try discriminate.
  - cbn [storable]. intros H. injection H as <-. now prop_simpl.
  - destruct l; discriminate.
Qed.

Lemma history_kept_refl (r : Rel) : history_kept r r.
Proof.
  unfold history_kept. repeat split; try reflexivity.
  - intros l H. exists []. now rewrite app_nil_r.
  - intros l H. exists []. now rewrite app_nil_r.
  - intros n H. exists 0%nat. now rewrite Z.add_0_r.
Qed.

Lemma history_kept_trans (r1 r2 r3 : Rel) :
  history_kept r1 r2 -> history_kept r2 r3 -> history_kept r1 r3.
Proof.
  intros [Ha [Hb [Hc [Hd [He [Hf [Hg [Hh Hi]]]]]]]]
         [Ha' [Hb' [Hc' [Hd' [He' [Hf' [Hg' [Hh' Hi']]]]]]]].
  unfold history_kept. repeat split; try congruence.
  - intros Hn. rewrite He' by (rewrite Hc; exact Hn). now apply He.
  - intros l Hl. destruct (Hf l Hl) as [l1 H1]. destruct (Hf' _ H1) as [l2 H2].
    exists (l1 ++ l2). now rewrite app_assoc.
  - intros l Hl. destruct (Hg l Hl) as [l1 H1]. destruct (Hg' _ H1) as [l2 H2].
    exists (l1 ++ l2). now rewrite app_assoc.
  - intros n Hn. destruct (Hh n Hn) as [k1 H1]. destruct (Hh' _ H1) as [k2 H2].
    exists (k1 + k2)%nat. rewrite H2. f_equal. lia.
Qed.

(** One ON MATCH SET on a relationship of the store. *)
Lemma update_bond_keeps (now : Z) (s : Q) (res : option Q)
    (ms ctx : option string) (a b : nat) (r r' : Rel) :
  update_bond now s res ms ctx a b r = Some r' ->
  skeleton r' = skeleton r
  /\ history_kept r r'
  /\ (is_bond a b r = true
      -> prop "evolution_trajectory" (rprops r') = VNull).
Proof.
  unfold update_bond. destruct (is_bond a b r) eqn:E.
  2:{ intros H. injection H as <-. split; [reflexivity|].
      split; [apply history_kept_refl|discriminate]. }
  destruct (bond_on_match now s res ms ctx (rprops r)) as [ps|] eqn:Hm;
    [|discriminate].
  intros H. injection H as <-.
  destruct (@bond_on_match_null _ _ _ _ _ _ _ Hm) as [Hold Hnew].
  split; [reflexivity|]. split; [|intros _; exact Hnew].
  assert (Hty : rtype r = BOND).
  { unfold is_bond in E. apply andb_prop in E as [E _].
    apply andb_prop in E as [E _]. now destruct (rtype r). }
  unfold history_kept. cbn [rid rsrc rtype rdst rprops].
  split; [reflexivity|]. split; [reflexivity|]. split; [reflexivity|].
  split; [reflexivity|]. split; [intros Hn; contradiction|].
  revert Hm. unfold bond_on_match. prop_simpl. rewrite Hold.
  cbn [vpush_snap storable]. intros Hm. injection Hm as <-. prop_simpl.
  split; [|split; [|split]].
  - intros l Hl. rewrite Hl. destruct ms as [m|].
    + exists [m]. reflexivity.
    + exists []. now rewrite app_nil_r.
  - intros l Hl. discriminate Hl.
  - intros n Hn. rewrite Hn. exists 1%nat. reflexivity.
  - reflexivity.
Qed.

Lemma history_kept_all (l : list Rel) : Forall2 history_kept l l.
Proof. induction l; constructor; [apply history_kept_refl|assumption]. Qed.

Lemma history_kept_chain (l1 l2 l3 : list Rel) :
  Forall2 history_kept l1 l2 -> Forall2 history_kept l2 l3 ->
  Forall2 history_kept l1 l3.
Proof.
  intros H12. revert l3. induction H12 as [|x y l1 l2 Hxy _ IH]; intros l3 H23.
  - inversion H23. constructor.
  - inversion H23 as [|y' z l2' l3' Hyz H23' E1 E2]; subst.
    constructor; [exact (history_kept_trans Hxy Hyz)|now apply IH].
Qed.

Lemma evolved_refl (g : Graph) : evolved g g.
Proof.
  split; [reflexivity|]. exists (rels g), [].
  split; [now rewrite app_nil_r|]. split; [apply history_kept_all|constructor].
Qed.

Lemma evolved_trans (g1 g2 g3 : Graph) :
  evolved g1 g2 -> evolved g2 g3 -> evolved g1 g3.
Proof.
  intros [Hn1 [k1 [n1 [E1 [F1 B1]]]]] [Hn2 [k2 [n2 [E2 [F2 B2]]]]].
  split; [congruence|].
  rewrite E1 in F2. apply Forall2_app_inv_l in F2.
  destruct F2 as [k2a [k2b [Fa [Fb ->]]]].
  exists k2a, (k2b ++ n2). split; [now rewrite E2, app_assoc|].
  split; [exact (history_kept_chain F1 Fa)|].
  apply Forall_app. split; [|exact B2].
  clear - Fb B1. induction Fb as [|x y n1 k2b Hxy _ IH]; [constructor|].
  inversion B1 as [|x' n1' Hx B1']; subst.
  constructor; [|now apply IH].
  destruct Hxy as [_ [_ [Hty _]]]. congruence.
Qed.

(** The ON CREATE block assigns a list that holds a map: the store refuses
    it. *)
Lemma bond_on_create_refused (now : Z) (s : Q) (res : option Q)
    (ms ctx : option string) :
  forallb (fun kv => storable (snd kv)) (bond_on_create now s res ms ctx)
  = false.
Proof.
  unfold bond_on_create. destruct res; reflexivity.
Qed.

(** What a MERGE of one row that the store accepts has done: the pair had
    a bond, no relationship was added or removed, and the bonds of the pair
    are without trajectory. *)
Lemma merge_bond_accepted (now : Z) (s : Q) (res : option Q)
    (ms ctx : option string) (from to : Node) (g g' : Graph) (bs : list Rel) :
  merge_bond now s res ms ctx from to g = Some (g', bs) ->
  rels_between BOND (nid from) (nid to) g <> []
  /\ nodes g' = nodes g
  /\ fresh g' = fresh g
  /\ Forall2 (fun r r' =>
                update_bond now s res ms ctx (nid from) (nid to) r = Some r')
             (rels g) (rels g')
  /\ bs = rels_between BOND (nid from) (nid to) g'.
Proof.
  unfold merge_bond.
  destruct (rels_between BOND (nid from) (nid to) g) as [|r0 rs0] eqn:Hb.
  - now rewrite bond_on_create_refused.
  - destruct (all_some _) as [rs|] eqn:Hall; [|discriminate].
    intros H. injection H as <- <-. cbn [nodes fresh rels].
    split; [discriminate|]. split; [reflexivity|]. split; [reflexivity|].
    split; [|reflexivity]. exact (@all_some_Forall2 _ _ _ _ _ Hall).
Qed.

Lemma updates_keep (now : Z) (s : Q) (res : option Q)
    (ms ctx : option string) (a b : nat) (l l' : list Rel) :
  Forall2 (fun r r' => update_bond now s res ms ctx a b r = Some r') l l' ->
  map skeleton l' = map skeleton l
  /\ Forall2 history_kept l l'
  /\ Forall (fun r' => is_bond a b r' = true
                       -> prop "evolution_trajectory" (rprops r') = VNull) l'.
Proof.
  induction 1 as [|r r' l l' Hr _ [IH1 [IH2 IH3]]].
  - repeat split; constructor.
  - destruct (@update_bond_keeps _ _ _ _ _ _ _ _ _ Hr) as [Hs [Hk Hn]].
    cbn [map]. split; [now rewrite Hs, IH1|].
    split; [now constructor|]. constructor; [|exact IH3].
    intros Hb. apply Hn. revert Hb. unfold is_bond, skeleton in *.
    injection Hs as _ -> -> ->. exact (fun H => H).
Qed.

Lemma merge_bond_evolves (now : Z) (s : Q) (res : option Q)
    (ms ctx : option string) (from to : Node) (g g' : Graph) (bs : list Rel) :
  merge_bond now s res ms ctx from to g = Some (g', bs) ->
  evolved g g'
  /\ map skeleton (rels g') = map skeleton (rels g)
  /\ Forall (fun b => prop "evolution_trajectory" (rprops b) = VNull) bs.
Proof.
  intros H. destruct (@merge_bond_accepted _ _ _ _ _ _ _ _ _ _ H)
    as [_ [Hn [_ [Hu ->]]]].
  destruct (@updates_keep _ _ _ _ _ _ _ _ _ Hu) as [Hs [Hk Hnull]].
  split; [|split; [exact Hs|]].
  - split; [exact Hn|]. exists (rels g'), [].
    split; [now rewrite app_nil_r|]. split; [exact Hk|constructor].
  - unfold rels_between. apply Forall_forall. intros b Hb.
    apply filter_In in Hb as [Hin Hb].
    rewrite Forall_forall in Hnull. exact (Hnull b Hin Hb).
Qed.

Lemma merge_bonds_evolve (now : Z) (s : Q) (res : option Q)
    (ms ctx : option string) (pairs : list (Node * Node)) :
  forall (g g' : Graph) (rows : list BondRow),
    merge_bonds now s res ms ctx pairs g = Some (g', rows) ->
    evolved g g'
    /\ map skeleton (rels g') = map skeleton (rels g)
    /\ Forall (fun row => prop "evolution_trajectory" (rprops (fst (fst row)))
                          = VNull) rows.
Proof.
  induction pairs as [|[from to] pairs IH]; intros g g' rows; cbn [merge_bonds].
  - intros H. injection H as <- <-.
    split; [apply evolved_refl|]. split; [reflexivity|constructor].
  - destruct (merge_bond now s res ms ctx from to g) as [[g1 bs]|] eqn:E1;
      [|discriminate].
    destruct (merge_bonds now s res ms ctx pairs g1) as [[g2 rows2]|] eqn:E2;
      [|discriminate].
    intros H. injection H as <- <-.
    destruct (@merge_bond_evolves _ _ _ _ _ _ _ _ _ _ E1) as [Hev1 [Hs1 Hn1]].
    destruct (IH _ _ _ E2) as [Hev2 [Hs2 Hn2]].
    split; [exact (evolved_trans Hev1 Hev2)|]. split; [congruence|].
    apply Forall_app. split; [|exact Hn2].
    apply Forall_forall. intros row Hrow. apply in_map_iff in Hrow.
    destruct Hrow as [b [<- Hb]]. cbn [fst].
    rewrite Forall_forall in Hn1. exact (Hn1 b Hb).
Qed.


(** The call as a function of what the statement does. *)
Lemma evolve_bond_run (env : Env) (args : EvolveBondArgs) (g : Graph) :
  let q := cypher_evolve_bond (env_now env)
             (from_entity_id args) (to_entity_id args) (new_strength args)
             (or_null_num (emotional_resonance args))
             (or_null_str (milestone args))
             (or_null_str (interaction_context args)) in
  let r := handleEvolveBond env args (boot g) in
  is_throw (fst r) = true
  /\ txn (snd r) = None
  /\ log (snd r) = [IOSession; IOSessionRun "evolve_bond"; IOSessionClose]
  /\ db (snd r) = (if env_store_fails env 0 then g
                   else match q g with
                        | Some (g', _) => g'
                        | None => g
                        end).
Proof.
  intros q r. unfold r, handleEvolveBond. rewrite session_then.
  unfold finally, bind, session_run, boot. cbn [db txn log tick]. fold q.
  destruct (env_store_fails env 0); [cbn; auto|].
  destruct (q g) as [[g' rows]|] eqn:Hq; [|cbn; auto].
  pose proof (@merge_bonds_evolve _ _ _ _ _ _ _ _ _ Hq) as [_ [_ Hnull]].
  destruct rows as [|[[b fn] tn] rows]; [cbn; auto|].
  apply Forall_inv in Hnull. cbn [fst] in Hnull. rewrite Hnull.
  cbn. auto.
Qed.

(** C2 (the code at the failing input): evolve_bond never creates a BOND
    edge and never returns a bond.  Its ON CREATE SET assigns a list that
    holds a map to evolution_trajectory and its ON MATCH SET appends a map
    to it; the store refuses a statement that would store such a list, so
    whatever the arguments and the store the call throws, with the same
    nodes and the same relationships (identifier, end points and type) as
    before.  The first call between Ann and Bob leaves them without a BOND
    edge. *)
Theorem evolve_bond_stores_no_trajectory :
  (forall env args g,
      let r := handleEvolveBond env args (boot g) in
      is_throw (fst r) = true
      /\ nodes (db (snd r)) = nodes g
      /\ map skeleton (rels (db (snd r))) = map skeleton (rels g))
  /\ is_throw (fst (handleEvolveBond env_up first_contact (boot ann_and_bob)))
     = true
  /\ db (snd (handleEvolveBond env_up first_contact (boot ann_and_bob)))
     = ann_and_bob
  /\ rels ann_and_bob = [].
Proof.
  split; [|repeat split; vm_compute; reflexivity].
  intros env args g r.
  destruct (evolve_bond_run env args g) as [Ht [_ [_ Hdb]]].
  fold r in Ht, Hdb. split; [exact Ht|]. rewrite Hdb.
  destruct (env_store_fails env 0); [now split|].
  match goal with
  | |- context [cypher_evolve_bond ?n ?f ?t ?s ?x ?m ?c g] =>
      destruct (cypher_evolve_bond n f t s x m c g) as [[g' rows]|] eqn:Hq
  end; [|now split].
  destruct (@merge_bonds_evolve _ _ _ _ _ _ _ _ _ Hq) as [[Hn _] [Hs _]].
  now split.
Qed.
(** ** Transactions *)

Section Scripts.

Variable env : Env.

Lemma bind_cong_r {A B} (m : M A) (k k' : A -> M B) (s : Sys) :
  (forall a s', k a s' = k' a s') -> bind m k s = bind m k' s.
Proof.
  intros H. unfold bind. destruct (m s) as [[x|e] s']; [apply H|reflexivity].
Qed.

Lemma bind_assoc {A B C} (m : M A) (k : A -> M B) (h : B -> M C) (s : Sys) :
  bind (bind m k) h s = bind m (fun x => bind (k x) h) s.
Proof.
  unfold bind. destruct (m s) as [[x|e] s']; reflexivity.
Qed.

Lemma tx_script_nil {B} (k : M B) (s : Sys) :
  (tx_script env [] ;;; k) s = k s.
Proof. reflexivity. Qed.

Lemma tx_script_cons {B} (p : string * Stmt unit) (sc : Script) (k : M B)
    (s : Sys) :
  (tx_script env (p :: sc) ;;; k) s
  = (tx_run env (fst p) (snd p) ;;; tx_script env sc ;;; k) s.
Proof. unfold tx_script. simpl for_each. apply bind_assoc. Qed.

Lemma tx_script_app {B} (sc1 sc2 : Script) (k : M B) (s : Sys) :
  (tx_script env (sc1 ++ sc2) ;;; k) s
  = (tx_script env sc1 ;;; tx_script env sc2 ;;; k) s.
Proof.
  revert s. induction sc1 as [|p sc1 IH]; intros s.
  - reflexivity.
  - simpl app. rewrite !tx_script_cons.
    apply bind_cong_r. intros _ s'. apply IH.
Qed.

Lemma for_each_steps {A B} (l : list A) (f : A -> M unit)
    (steps : A -> Script) (k : M B) (s : Sys) :
  (forall x (h : M B) s', (f x ;;; h) s' = (tx_script env (steps x) ;;; h) s') ->
  (for_each l f ;;; k) s = (tx_script env (flat_map steps l) ;;; k) s.
Proof.
  intros Hf. revert s. induction l as [|x l IH]; intros s.
  - reflexivity.
  - simpl for_each. simpl flat_map. rewrite tx_script_app, bind_assoc, Hf.
    apply bind_cong_r. intros _ s'. apply IH.
Qed.

Lemma for_each_map {A B} (l : list A) (name : string) (q : A -> Stmt unit)
    (k : M B) (s : Sys) :
  (for_each l (fun x => tx_run env name (q x)) ;;; k) s
  = (tx_script env (map (fun x => (name, q x)) l) ;;; k) s.
Proof.
  revert s. induction l as [|x l IH]; intros s.
  - reflexivity.
  - simpl for_each. simpl map. rewrite tx_script_cons, bind_assoc.
    apply bind_cong_r. intros _ s'. apply IH.
Qed.

(** A script never touches the committed store; it succeeds exactly when
    [run_script] does, and then leaves its result as the working copy. *)
Lemma tx_script_run (sc : Script) :
  forall s w, txn s = Some w ->
    db (snd (tx_script env sc s)) = db s
    /\ match run_script (env_store_fails env) (tick s) sc w with
       | Some w' =>
           tx_script env sc s
           = (Return tt,
              mkSys (db s) (Some w')
                    (log s ++ map (fun p => IOTxRun (fst p)) sc)
                    (tick s + List.length sc))
       | None => is_throw (fst (tx_script env sc s)) = true
       end.
Proof.
  induction sc as [|[name q] sc IH]; intros s w Hw.
  - simpl. split; [reflexivity|].
    destruct s as [d t l k]; simpl in *. subst t.
    now rewrite app_nil_r, Nat.add_0_r.
  - unfold tx_script in *. simpl for_each. simpl run_script.
    unfold bind. simpl fst. simpl snd.
    destruct (env_store_fails env (tick s)) eqn:Hf.
    { unfold tx_run. rewrite Hf. simpl. auto. }
    destruct (q w) as [[w' []]|] eqn:Hq.
    2:{ unfold tx_run. rewrite Hf, Hw, Hq. simpl. auto. }
    set (s1 := mkSys (db s) (Some w') (log s ++ [IOTxRun name]) (S (tick s))).
    assert (Hstep : tx_run env name q s = (Return tt, s1)).
    { unfold tx_run. now rewrite Hf, Hw, Hq. }
    rewrite Hstep.
    destruct (IH s1 w' eq_refl) as [Hdb Hrun].
    split; [exact Hdb|].
    simpl tick in Hrun.
    destruct (run_script (env_store_fails env) (S (tick s)) sc w') as [w''|].
    + rewrite Hrun. unfold s1. simpl. f_equal. f_equal.
      * now rewrite <- app_assoc.
      * lia.
    + exact Hrun.
Qed.

Lemma run_script_ok (fails : nat -> bool) (sc : Script) :
  forall k w w',
    run_script fails k sc w = Some w' <->
    (forallb (fun i => negb (fails i)) (seq k (List.length sc)) = true
     /\ run_script (fun _ => false) k sc w = Some w').
Proof.
  induction sc as [|[name q] sc IH]; intros k w w'; simpl.
  - tauto.
  - destruct (fails k); simpl.
    + split; [discriminate|intros [H _]; discriminate].
    + destruct (q w) as [[w1 []]|]; [apply IH|].
      split; [discriminate|intros [_ H]; discriminate].
Qed.

Lemma run_script_shift (sc : Script) :
  forall k w, run_script (fun _ => false) k sc w = apply_script sc w.
Proof.
  unfold apply_script.
  induction sc as [|[name q] sc IH]; intros k w; simpl; [reflexivity|].
  destruct (q w) as [[w1 []]|]; [|reflexivity].
  now rewrite IH, (IH 1%nat).
Qed.

(** The frame of both write handlers around a script: rollback on any
    throw, close the session at the end.  [post] is what follows the
    commit; it only reads, and when it throws the rollback in the catch
    block meets a committed transaction and throws in its place. *)
Lemma script_then_commit {A} (sc : Script) (post : M A) (g : Graph)
    (l0 l1 : list IO) (body : M A) :
  body (mkSys g (Some g) l0 0)
  = (tx_script env sc ;;; tx_commit env ;;; post) (mkSys g (Some g) l1 0) ->
  (forall s, db (snd (post s)) = db s /\ txn (snd (post s)) = txn s) ->
  let r := finally
             (try_catch body (fun error => tx_rollback ;;; throw error))
             session_close (mkSys g (Some g) l0 0) in
  let n := List.length sc in
  txn (snd r) = None
  /\ match run_script (env_store_fails env) 0 sc g with
     | Some w =>
         if env_store_fails env n
         then is_throw (fst r) = true /\ db (snd r) = g
         else db (snd r) = w
              /\ match fst (post (mkSys w None
                                    ((l1 ++ map (fun p => IOTxRun (fst p)) sc)
                                        ++ [IOCommit]) (S n))) with
                 | Return x => fst r = Return x
                 | Throw _ => is_throw (fst r) = true
                 end
     | None => is_throw (fst r) = true /\ db (snd r) = g
     end.
Proof.
  intros Hbody Hpost r n. unfold r, finally, try_catch. rewrite Hbody.
  set (s1 := mkSys g (Some g) l1 0).
  destruct (tx_script_run sc s1 eq_refl) as [Hdb Hrun].
  change (tick s1) with 0%nat in Hrun. change (db s1) with g in Hrun, Hdb.
  unfold bind.
  destruct (run_script (env_store_fails env) 0 sc g) as [w|].
  - rewrite Hrun. rewrite Nat.add_0_l. unfold n.
    unfold tx_commit. cbn [tick txn db log fst snd].
    destruct (env_store_fails env (List.length sc)); [cbn; auto|].
    change (log s1) with l1.
    match goal with
    | |- context [post ?s] =>
        destruct (Hpost s) as [Hd Ht]; destruct (post s) as [[x|e] s2]
    end; cbn [fst snd db txn] in Hd, Ht.
    + cbn. auto.
    + unfold tx_rollback, bind, throw, session_close, emit.
      cbn [fst snd db txn log tick]. rewrite Ht. cbn. repeat split; auto.
  - destruct (tx_script env sc s1) as [[[]|e] s2]; cbn in *;
      [discriminate|].
    unfold tx_rollback, bind, throw. destruct (txn s2); cbn; auto.
Qed.

End Scripts.

(** ** hippocampus_write_event as a transaction *)

Section WriteEvent.

Variables (env : Env) (ev : WriteEvent).

Let reply := mkWriteReply (written_id env ev) (written_at env ev) (title ev).

Lemma who_steps_run {B} (eventId : string) (p : Participant) (h : M B)
    (s : Sys) :
  ((if String.eqb (participant_type p) "person"
    then tx_run env "Person" (cypher_person eventId (participant_id p))
    else if String.eqb (participant_type p) "agent"
    then tx_run env "Agent" (cypher_agent eventId (participant_id p))
    else ret tt) ;;; h) s
  = (tx_script env (who_steps eventId p) ;;; h) s.
Proof.
  unfold who_steps.
  destruct (String.eqb (participant_type p) "person").
  - rewrite tx_script_cons. reflexivity.
  - destruct (String.eqb (participant_type p) "agent").
    + rewrite tx_script_cons. reflexivity.
    + reflexivity.
Qed.

Lemma write_event_body (s : Sys) :
  write_event_try env ev s
  = (tx_script env (write_script env ev) ;;; tx_commit env ;;; ret reply) s.
Proof.
  unfold write_event_try. cbv zeta. unfold write_script.
  rewrite tx_script_cons. simpl fst. simpl snd.
  apply bind_cong_r. intros _ s1.
  rewrite tx_script_app.
  transitivity
    ((tx_script env
        (match or_null_str (where_ ev) with
         | Some placeName =>
             [("HELD_AT", cypher_held_at (written_id env ev) placeName)]
         | None => []
         end) ;;;
      for_each (who ev)
        (fun p =>
           if String.eqb (participant_type p) "person"
           then tx_run env "Person"
                  (cypher_person (written_id env ev) (participant_id p))
           else if String.eqb (participant_type p) "agent"
           then tx_run env "Agent"
                  (cypher_agent (written_id env ev) (participant_id p))
           else ret tt) ;;;
      for_each (why ev)
        (fun reason => tx_run env "CATALYZED_BY"
                         (cypher_catalyst (written_id env ev) reason)) ;;;
      for_each (what_entities ev)
        (fun x => tx_run env "INVOLVED_IN"
                    (cypher_involved_in (written_id env ev) x)) ;;;
      for_each (what_produced ev)
        (fun x => tx_run env "PRODUCED"
                    (cypher_produced (written_id env ev) x)) ;;;
      for_each (effects ev)
        (fun x => tx_run env "HAD_EFFECT_ON"
                    (cypher_effect (written_id env ev) x)) ;;;
      tx_commit env ;;; ret reply) s1).
  { destruct (or_null_str (where_ ev)).
    - rewrite tx_script_cons. reflexivity.
    - reflexivity. }
  apply bind_cong_r. intros _ s2.
  rewrite tx_script_app.
  rewrite (for_each_steps env (who ev) _ (who_steps (written_id env ev)))
    by (intros; apply who_steps_run).
  apply bind_cong_r. intros _ s3.
  rewrite tx_script_app, for_each_map.
  apply bind_cong_r. intros _ s4.
  rewrite tx_script_app, for_each_map.
  apply bind_cong_r. intros _ s5.
  rewrite tx_script_app, for_each_map.
  apply bind_cong_r. intros _ s6.
  rewrite for_each_map. reflexivity.
Qed.

(** The whole call: the store changes only by a commit of the complete
    script. *)
Lemma handleWriteEvent_run (g : Graph) :
  let r := handleWriteEvent env ev (boot g) in
  let n := List.length (write_script env ev) in
  txn (snd r) = None
  /\ match run_script (env_store_fails env) 0 (write_script env ev) g with
     | Some w =>
         if env_store_fails env n
         then is_throw (fst r) = true /\ db (snd r) = g
         else fst r = Return reply /\ db (snd r) = w
     | None => is_throw (fst r) = true /\ db (snd r) = g
     end.
Proof.
  intros r n.
  destruct (@script_then_commit env _ (write_script env ev) (ret reply) g
              [IOSession; IOBeginTransaction] [IOSession; IOBeginTransaction]
              _ (write_event_body _) (fun s => conj eq_refl eq_refl))
    as [Htx Hrun].
  split; [exact Htx|].
  destruct (run_script (env_store_fails env) 0 (write_script env ev) g);
    [|exact Hrun].
  fold n in Hrun. destruct (env_store_fails env n); [exact Hrun|].
  destruct Hrun as [Hd Hf]. split; [exact Hf|exact Hd].
Qed.

End WriteEvent.

(** ** encode_memory as a transaction *)

Section EncodeMemory.

Variables (env : Env) (args : EncodeArgs).

Let text := embeddingText (event args).

Lemma valid_event_in_range (ev : EventPayload) :
  valid_event ev
  = in_range (-1 # 1) 1 (emotional_valence ev)
    && in_range 0 1 (significance ev).
Proof.
  unfold valid_event, in_range, Qltb.
  rewrite !negb_orb, !negb_involutive. reflexivity.
Qed.

Lemma encode_memory_frame (g : Graph) :
  handleEncodeMemory env args (boot g)
  = finally
      (try_catch (encode_memory_try env args)
         (fun error => tx_rollback ;;; throw error))
      session_close (mkSys g (Some g) [IOSession; IOBeginTransaction] 0).
Proof. reflexivity. Qed.

(** A range violation: nothing is sent to the store or to the provider. *)
Lemma encode_memory_invalid (g : Graph) :
  valid_event (event args) = false ->
  exists msg,
    handleEncodeMemory env args (boot g)
    = (Throw msg,
       mkSys g None
             [IOSession; IOBeginTransaction; IORollback; IOSessionClose] 0).
Proof.
  unfold valid_event. intros H.
  rewrite encode_memory_frame.
  unfold finally, try_catch, encode_memory_try. cbv zeta.
  destruct (negb (Qltb (emotional_valence (event args)) (-1 # 1)
                  || Qltb 1 (emotional_valence (event args)))) eqn:H1.
  - rewrite andb_true_l in H. rewrite H.
    eexists. reflexivity.
  - eexists. reflexivity.
Qed.

(** The provider fails: the transaction, already open, is rolled back
    before any statement was sent. *)
Lemma encode_memory_no_embedding (g : Graph) :
  valid_event (event args) = true ->
  env_embed env text = None ->
  handleEncodeMemory env args (boot g)
  = (Throw "embedding provider failed",
     mkSys g None
           [IOSession; IOBeginTransaction; IOEmbedding text; IORollback;
            IOSessionClose] 0).
Proof.
  unfold valid_event. intros H He.
  apply andb_prop in H as [H1 H2].
  rewrite encode_memory_frame.
  unfold finally, try_catch, encode_memory_try. cbv zeta.
  rewrite H1, H2.
  unfold check. unfold bind at 1 2 3. unfold ret at 1 2.
  unfold generateEmbedding at 1. fold text. rewrite He.
  reflexivity.
Qed.

Lemma encode_memory_body (v : list Q) (g : Graph) (l0 : list IO) :
  valid_event (event args) = true ->
  env_embed env text = Some v ->
  encode_memory_try env args (mkSys g (Some g) l0 0)
  = (tx_script env (encode_script env args v) ;;; tx_commit env ;;;
     encode_read_back env args)
      (mkSys g (Some g) (l0 ++ [IOEmbedding text]) 0).
Proof.
  unfold valid_event. intros H He.
  apply andb_prop in H as [H1 H2].
  unfold encode_memory_try. cbv zeta. rewrite H1, H2.
  unfold check. unfold bind at 1 2 3. unfold ret at 1 2.
  unfold generateEmbedding at 1. fold text. rewrite He.
  cbn [db txn log tick].
  unfold encode_script, encode_timestamp.
  rewrite tx_script_cons. cbn [fst snd].
  apply bind_cong_r. intros _ s1.
  rewrite tx_script_app, for_each_map.
  apply bind_cong_r. intros _ s2.
  rewrite tx_script_app, for_each_map.
  apply bind_cong_r. intros _ s3.
  rewrite for_each_map. reflexivity.
Qed.

Lemma encode_read_back_reads (s : Sys) :
  db (snd (encode_read_back env args s)) = db s
  /\ txn (snd (encode_read_back env args s)) = txn s.
Proof.
  unfold encode_read_back, bind, session, session_close, emit, session_run,
    cypher_read_event.
  cbn [db txn log tick fst snd].
  destruct (env_store_fails env (tick s)); [cbn; auto|].
  match goal with
  | |- context [map ?f ?l] => destruct (map f l)
  end; cbn; auto.
Qed.

(** The whole call on valid input with an embedding: the store changes
    only by a commit of the complete script. *)
Lemma handleEncodeMemory_run (v : list Q) (g : Graph) :
  valid_event (event args) = true ->
  env_embed env text = Some v ->
  let r := handleEncodeMemory env args (boot g) in
  let sc := encode_script env args v in
  txn (snd r) = None
  /\ match run_script (env_store_fails env) 0 sc g with
     | Some w =>
         if env_store_fails env (List.length sc)
         then is_throw (fst r) = true /\ db (snd r) = g
         else db (snd r) = w
              /\ match fst (encode_read_back env args
                              (mkSys w None
                                 (([IOSession; IOBeginTransaction;
                                    IOEmbedding text]
                                   ++ map (fun p => IOTxRun (fst p)) sc)
                                  ++ [IOCommit])
                                 (S (List.length sc)))) with
                 | Return x => fst r = Return x
                 | Throw _ => is_throw (fst r) = true
                 end
     | None => is_throw (fst r) = true /\ db (snd r) = g
     end.
Proof.
  intros Hv He r sc.
  exact (@script_then_commit env _ sc (encode_read_back env args) g
           [IOSession; IOBeginTransaction]
           ([IOSession; IOBeginTransaction] ++ [IOEmbedding text])
           _ (encode_memory_body g _ Hv He) encode_read_back_reads).
Qed.

End EncodeMemory.

(** ** Atomicity of the two write pipelines *)

Lemma run_script_apply (fails : nat -> bool) (sc : Script) (g w : Graph) :
  run_script fails 0 sc g = Some w -> apply_script sc g = Some w.
Proof.
  intros H. apply run_script_ok in H. exact (proj2 H).
Qed.

Lemma failure_stops_script (fails : nat -> bool) (sc : Script) (g : Graph) :
  existsb fails (seq 0 (S (List.length sc))) = true ->
  run_script fails 0 sc g = None \/ fails (List.length sc) = true.
Proof.
  intros H. rewrite seq_S, existsb_app in H. simpl in H.
  rewrite orb_false_r in H.
  destruct (fails (List.length sc)); [now right|left].
  rewrite orb_false_r in H.
  destruct (run_script fails 0 sc g) as [w|] eqn:E; [|reflexivity].
  apply run_script_ok in E. destruct E as [E _].
  exfalso. apply existsb_exists in H. destruct H as [i [Hi Hf]].
  rewrite forallb_forall in E. specialize (E i Hi).
  rewrite Hf in E. discriminate.
Qed.
(** ** encode_memory and references that do not resolve *)

Lemma for_rows_inv {A} (P : Graph -> Prop) (rows : list A)
    (f : A -> Graph -> Graph) (g : Graph) :
  (forall row g', P g' -> P (f row g')) -> P g -> P (for_rows rows f g).
Proof.
  intros Hf. unfold for_rows. revert g.
  induction rows as [|x rows IH]; intros g Hg; simpl; [exact Hg|].
  apply IH. now apply Hf.
Qed.

Lemma for_rows_no_inner {A B} (rows : list A)
    (f : A -> B -> Graph -> Graph) (g : Graph) :
  for_rows rows (fun e => for_rows [] (f e)) g = g.
Proof.
  unfold for_rows. induction rows as [|x rows IH]; simpl; [reflexivity|exact IH].
Qed.

Lemma create_rel_rows_keep_nodes {A B} (outer : list A) (inner : list B)
    (t : RelType) (src dst : A -> B -> nat) (ps : A -> B -> Props)
    (g : Graph) :
  nodes (for_rows outer
           (fun a => for_rows inner
                       (fun b => create_rel t (src a b) (dst a b) (ps a b))) g)
  = nodes g.
Proof.
  apply (for_rows_inv (fun g' => nodes g' = nodes g)); [|reflexivity].
  intros a g1 H1.
  apply (for_rows_inv (fun g' => nodes g' = nodes g)); [|exact H1].
  intros b g2 H2. exact H2.
Qed.

Lemma cypher_involves_keeps_nodes (eventId : string) (i : Involvement) :
  keeps_nodes (cypher_involves eventId i).
Proof.
  intros w. eexists. split; [reflexivity|].
  apply (create_rel_rows_keep_nodes _ _ INVOLVES
           (fun e _ => nid e) (fun _ x => nid x)).
Qed.

Lemma cypher_preceded_keeps_nodes (eventId p : string) :
  keeps_nodes (cypher_preceded eventId p).
Proof.
  intros w. eexists. split; [reflexivity|].
  apply (create_rel_rows_keep_nodes _ _ PRECEDED
           (fun e1 _ => nid e1) (fun _ e2 => nid e2)
           (fun e1 e2 =>
              [("temporal_distance",
                duration_between (prop "timestamp" (nprops e1))
                                 (prop "timestamp" (nprops e2)));
               ("causal_strength", VNum (8 # 10))])).
Qed.

Lemma cypher_consolidated_keeps_nodes (eventId : string) (c : Consolidation) :
  keeps_nodes (cypher_consolidated eventId c).
Proof.
  intros w. eexists. split; [reflexivity|].
  apply (create_rel_rows_keep_nodes _ _ CONSOLIDATED_TO
           (fun e _ => nid e) (fun _ x => nid x)).
Qed.

Lemma run_script_keeps_nodes (sc : Script) :
  Forall (fun p => keeps_nodes (snd p)) sc ->
  forall k w, exists w',
    run_script (fun _ => false) k sc w = Some w' /\ nodes w' = nodes w.
Proof.
  induction 1 as [|[name q] sc Hq _ IH]; intros k w; simpl.
  - now exists w.
  - destruct (Hq w) as [w1 [E1 N1]]. simpl in E1. rewrite E1.
    destruct (IH (S k) w1) as [w2 [E2 N2]].
    exists w2. split; [exact E2|congruence].
Qed.

Lemma run_script_skips (sc : Script) (w : Graph) :
  Forall (fun p => snd p w = Some (w, tt)) sc ->
  forall k, run_script (fun _ => false) k sc w = Some w.
Proof.
  induction 1 as [|[name q] sc Hq _ IH]; intros k; simpl; [reflexivity|].
  simpl in Hq. rewrite Hq. apply IH.
Qed.

Lemma run_script_all_up (fails : nat -> bool) (sc : Script) (k : nat)
    (w : Graph) :
  (forall i, fails i = false) ->
  run_script fails k sc w = run_script (fun _ => false) k sc w.
Proof.
  intros Hup. revert k w.
  induction sc as [|[name q] sc IH]; intros k w; simpl; [reflexivity|].
  rewrite Hup. destruct (q w) as [[w' []]|]; [apply IH|reflexivity].
Qed.

Lemma involves_unresolved (eventId : string) (i : Involvement) (w : Graph) :
  match_any [("id", entity_id i)] w = [] ->
  cypher_involves eventId i w = Some (w, tt).
Proof.
  intros H. unfold cypher_involves. rewrite H.
  now rewrite for_rows_no_inner.
Qed.

Lemma preceded_unresolved (eventId p : string) (w : Graph) :
  match_nodes Event [("id", p)] w = [] ->
  cypher_preceded eventId p w = Some (w, tt).
Proof.
  intros H. unfold cypher_preceded. rewrite H. reflexivity.
Qed.

Lemma consolidated_unresolved (eventId : string) (c : Consolidation)
    (w : Graph) :
  match_any [("id", target_id c)] w = [] ->
  cypher_consolidated eventId c w = Some (w, tt).
Proof.
  intros H. unfold cypher_consolidated. rewrite H.
  now rewrite for_rows_no_inner.
Qed.

Section EncodeUnresolved.

Variables (env : Env) (args : EncodeArgs) (g : Graph) (v : list Q).

Let uuid := env_uuid env.
Let e := mkNode (fresh g) Event
           (event_props uuid (encode_timestamp env args) (event args) v).
Let g1 := mkGraph (nodes g ++ [e]) (rels g) (S (fresh g)).
Let rest : Script :=
  map (fun i => ("INVOLVES", cypher_involves uuid i)) (involves args)
  ++ map (fun p => ("PRECEDED", cypher_preceded uuid p)) (precedes args)
  ++ map (fun c => ("CONSOLIDATED_TO", cypher_consolidated uuid c))
         (consolidates_to args).

Hypothesis fresh_id : match_nodes Event [("id", uuid)] g = [].

Lemma new_event_has_id (x : string) :
  has_props [("id", x)] e = String.eqb x uuid.
Proof.
  unfold has_props, e, event_props. simpl. now rewrite andb_true_r.
Qed.

Lemma match_any_after_create (x : string) :
  match_any [("id", x)] g1
  = match_any [("id", x)] g ++ (if String.eqb x uuid then [e] else []).
Proof.
  unfold match_any, g1. cbn [nodes]. rewrite filter_app. cbn [filter].
  now rewrite new_event_has_id.
Qed.

Lemma match_event_after_create (x : string) :
  match_nodes Event [("id", x)] g1
  = match_nodes Event [("id", x)] g ++ (if String.eqb x uuid then [e] else []).
Proof.
  unfold match_nodes, g1. cbn [nodes]. rewrite filter_app. cbn [filter].
  change (Label_eqb Event (nlabel e)) with true. rewrite andb_true_l.
  now rewrite new_event_has_id.
Qed.

Lemma rest_keeps_nodes : Forall (fun p => keeps_nodes (snd p)) rest.
Proof.
  unfold rest. rewrite !Forall_app. repeat split;
    apply Forall_forall; intros p Hp; apply in_map_iff in Hp;
    destruct Hp as [x [<- _]]; simpl.
  - apply cypher_involves_keeps_nodes.
  - apply cypher_preceded_keeps_nodes.
  - apply cypher_consolidated_keeps_nodes.
Qed.

Lemma encode_script_runs :
  exists w,
    apply_script (encode_script env args v) g = Some w
    /\ run_script (fun _ => false) 1 rest g1 = Some w
    /\ nodes w = nodes g ++ [e].
Proof.
  destruct (run_script_keeps_nodes rest_keeps_nodes 1 g1) as [w [Hw Hn]].
  exists w. split; [|split; [exact Hw|exact Hn]].
  unfold apply_script, encode_script. simpl run_script.
  unfold cypher_create_event. fold uuid. rewrite fresh_id.
  exact Hw.
Qed.

Lemma read_back_finds_event (w : Graph) (claimed : nat) :
  nodes w = nodes g ++ [e] ->
  exists reply,
    cypher_read_event uuid claimed w = Some (w, [reply])
    /\ enc_relationships_created reply = claimed
    /\ enc_nodes_created reply = 1%nat.
Proof.
  intros Hn. unfold cypher_read_event.
  assert (Hm : match_nodes Event [("id", uuid)] w = [e]).
  { unfold match_nodes. rewrite Hn, filter_app.
    change (filter _ (nodes g)) with (match_nodes Event [("id", uuid)] g).
    rewrite fresh_id. cbn [filter app].
    change (Label_eqb Event (nlabel e)) with true. rewrite andb_true_l.
    rewrite new_event_has_id. now rewrite String.eqb_refl. }
  rewrite Hm. simpl map. eexists. split; [reflexivity|]. split; reflexivity.
Qed.

End EncodeUnresolved.

(** C10: in encode_memory a reference of involves, precedes or
    consolidates_to whose identifier resolves to no node is skipped: its
    statement leaves the transaction's graph as it is and raises nothing.
    With the store up, valid input and a fresh event id the call always
    succeeds, creates exactly one node (the Event, never a placeholder) and
    reports as relationships_created the number of references requested;
    when no reference resolves, no relationship at all is created. *)
Theorem encode_memory_skips_unresolved :
  (forall eventId i w,
      match_any [("id", entity_id i)] w = [] ->
      cypher_involves eventId i w = Some (w, tt))
  /\ (forall eventId p w,
         match_nodes Event [("id", p)] w = [] ->
         cypher_preceded eventId p w = Some (w, tt))
  /\ (forall eventId c w,
         match_any [("id", target_id c)] w = [] ->
         cypher_consolidated eventId c w = Some (w, tt))
  /\ (forall env args g v,
         valid_event (event args) = true ->
         env_embed env (embeddingText (event args)) = Some v ->
         (forall k, env_store_fails env k = false) ->
         match_nodes Event [("id", env_uuid env)] g = [] ->
         let r := handleEncodeMemory env args (boot g) in
         let e := mkNode (fresh g) Event
                    (event_props (env_uuid env) (encode_timestamp env args)
                       (event args) v) in
         exists reply,
           fst r = Return reply
           /\ nodes (db (snd r)) = nodes g ++ [e]
           /\ enc_nodes_created reply = 1%nat
           /\ enc_relationships_created reply
              = (List.length (involves args) + List.length (precedes args)
                 + List.length (consolidates_to args))%nat
           /\ ((forall i, In i (involves args) ->
                  entity_id i <> env_uuid env
                  /\ match_any [("id", entity_id i)] g = []) ->
               (forall p, In p (precedes args) ->
                  p <> env_uuid env
                  /\ match_nodes Event [("id", p)] g = []) ->
               (forall c, In c (consolidates_to args) ->
                  target_id c <> env_uuid env
                  /\ match_any [("id", target_id c)] g = []) ->
               rels (db (snd r)) = rels g)).
Proof.
  split; [exact involves_unresolved|].
  split; [exact preceded_unresolved|].
  split; [exact consolidated_unresolved|].
  intros env args g v Hv He Hup Hfresh r e.
  destruct (@encode_script_runs env args g v Hfresh) as [w [Happ [Hrest Hn]]].
  destruct (@handleEncodeMemory_run env args v g Hv He) as [_ Hrun].
  fold r in Hrun.
  rewrite run_script_all_up in Hrun by exact Hup.
  rewrite run_script_shift, Happ, Hup in Hrun.
  destruct Hrun as [Hdb Hfst].
  destruct (@read_back_finds_event env args g v Hfresh w
              (List.length (involves args) + List.length (precedes args)
               + List.length (consolidates_to args)) Hn)
    as [reply [Hread [Hc Hone]]].
  exists reply.
  split.
  { revert Hfst. unfold encode_read_back, bind, session, session_close,
      emit, session_run. cbn [db txn log tick fst snd].
    rewrite Hup, Hread. exact (fun H => H). }
  split; [now rewrite Hdb|].
  split; [exact Hone|]. split; [exact Hc|].
  intros Hi Hp Hcn. rewrite Hdb.
  set (g1 := mkGraph (nodes g ++ [e]) (rels g) (S (fresh g))) in *.
  assert (Hskip : run_script (fun _ => false) 1
            (map (fun i => ("INVOLVES", cypher_involves (env_uuid env) i))
                 (involves args)
             ++ map (fun p => ("PRECEDED", cypher_preceded (env_uuid env) p))
                    (precedes args)
             ++ map (fun c => ("CONSOLIDATED_TO",
                               cypher_consolidated (env_uuid env) c))
                    (consolidates_to args)) g1 = Some g1).
  { apply run_script_skips. rewrite !Forall_app. repeat split;
      apply Forall_forall; intros q Hq; apply in_map_iff in Hq;
      destruct Hq as [x [<- Hx]]; cbn [snd].
    - destruct (Hi x Hx) as [Hne Hno].
      apply involves_unresolved.
      unfold g1, e. rewrite match_any_after_create, Hno.
      apply String.eqb_neq in Hne. now rewrite Hne.
    - destruct (Hp x Hx) as [Hne Hno].
      apply preceded_unresolved.
      unfold g1, e. rewrite match_event_after_create, Hno.
      apply String.eqb_neq in Hne. now rewrite Hne.
    - destruct (Hcn x Hx) as [Hne Hno].
      apply consolidated_unresolved.
      unfold g1, e. rewrite match_any_after_create, Hno.
      apply String.eqb_neq in Hne. now rewrite Hne. }
  assert (Heq : Some g1 = Some w) by (rewrite <- Hskip; exact Hrest).
  injection Heq as <-. reflexivity.
Qed.

(** ** hippocampus_write_event: upserted references, fresh occurrences *)

Lemma new_ref_node_matches (i : nat) (r0 : Ref) (oc : Props) :
  matches (ref_label r0) (ref_pattern r0) (new_ref_node i r0 oc) = true.
Proof.
  destruct r0; unfold matches, has_props; simpl;
    rewrite ?String.eqb_refl; reflexivity.
Qed.

Lemma new_ref_node_only (i : nat) (r r0 : Ref) (oc : Props) :
  matches (ref_label r) (ref_pattern r) (new_ref_node i r0 oc) = true ->
  r = r0.
Proof.
  destruct r, r0; unfold matches, has_props; simpl; try discriminate;
    rewrite ?andb_true_r; intros H.
  - apply String.eqb_eq in H. now subst.
  - apply String.eqb_eq in H. now subst.
  - apply String.eqb_eq in H. now subst.
  - apply String.eqb_eq in H. now subst.
  - apply String.eqb_eq in H. now subst.
  - apply andb_prop in H as [H1 H2].
    apply String.eqb_eq in H1, H2. now subst.
Qed.

Lemma count_ref_nodes (r : Ref) (g : Graph) :
  count_ref r g
  = List.length (filter (matches (ref_label r) (ref_pattern r)) (nodes g)).
Proof. reflexivity. Qed.

Lemma count_nodes_nodes (l : Label) (g : Graph) :
  count_nodes l g = List.length (filter (has_label l) (nodes g)).
Proof. reflexivity. Qed.

Lemma match_nodes_nodes (l : Label) (pat : list (string * string)) (g : Graph) :
  match_nodes l pat g = filter (matches l pat) (nodes g).
Proof. reflexivity. Qed.

Section Upserts.

Variables (eventId : string) (e0 : Node).

(** The reference was there: nothing new. *)
Lemma upserted_same (r0 : Ref) (w w' : Graph) :
  nodes w' = nodes w ->
  script_inv eventId e0 w ->
  count_ref r0 w <> 0%nat ->
  upserted eventId e0 r0 0 w w'.
Proof.
  intros Hn [Hu He] Hc.
  assert (Hcr : forall r, count_ref r w' = count_ref r w)
    by (intros r; now rewrite !count_ref_nodes, Hn).
  unfold upserted, script_inv, unique_refs.
  repeat split.
  - intros r. rewrite Hcr. apply Hu.
  - now rewrite match_nodes_nodes, Hn.
  - rewrite Hcr. specialize (Hu r0). lia.
  - intros r. rewrite Hcr. lia.
  - now rewrite !count_nodes_nodes, Hn.
  - now rewrite !count_nodes_nodes, Hn, Nat.add_0_r.
Qed.

(** The reference was absent: one node for it, matching no other. *)
Lemma upserted_new (r0 : Ref) (oc : Props) (i : nat) (w w' : Graph) :
  nodes w' = nodes w ++ [new_ref_node i r0 oc] ->
  script_inv eventId e0 w ->
  count_ref r0 w = 0%nat ->
  upserted eventId e0 r0 0 w w'.
Proof.
  intros Hn [Hu He] Hc.
  assert (Hcr : forall r,
             count_ref r w'
             = (count_ref r w
                + if matches (ref_label r) (ref_pattern r)
                       (new_ref_node i r0 oc) then 1 else 0)%nat).
  { intros r. rewrite !count_ref_nodes, Hn, filter_app, length_app.
    cbn [filter]. now destruct (matches _ _ _). }
  unfold upserted, script_inv, unique_refs.
  repeat split.
  - intros r. rewrite Hcr.
    destruct (matches (ref_label r) (ref_pattern r) (new_ref_node i r0 oc))
      eqn:E.
    + apply new_ref_node_only in E. subst r. rewrite Hc. lia.
    + specialize (Hu r). lia.
  - rewrite match_nodes_nodes, Hn, filter_app.
    rewrite <- match_nodes_nodes, He.
    assert (Hno : matches Event [("id", eventId)] (new_ref_node i r0 oc)
                  = false) by (now destruct r0).
    cbn [filter]. now rewrite Hno.
  - rewrite Hcr, new_ref_node_matches, Hc. reflexivity.
  - intros r. rewrite Hcr. lia.
  - rewrite !count_nodes_nodes, Hn, filter_app, length_app.
    assert (Hno : has_label Event (new_ref_node i r0 oc) = false)
      by (now destruct r0).
    cbn [filter]. rewrite Hno. simpl. lia.
  - rewrite !count_nodes_nodes, Hn, filter_app, length_app.
    assert (Hno : has_label Effect (new_ref_node i r0 oc) = false)
      by (now destruct r0).
    cbn [filter]. rewrite Hno. simpl. lia.
Qed.

(** One more Effect node changes no reference and no Event. *)
Lemma upserted_effect (r0 : Ref) (ps : Props) (i : nat) (w w1 w' : Graph) :
  upserted eventId e0 r0 0 w w1 ->
  nodes w' = nodes w1 ++ [mkNode i Effect ps] ->
  upserted eventId e0 r0 1 w w'.
Proof.
  intros [[Hu He] [Hone [Hmono [Hev Hef]]]] Hn.
  assert (Hcr : forall r, count_ref r w' = count_ref r w1).
  { intros r. rewrite !count_ref_nodes, Hn, filter_app, length_app.
    assert (Hno : matches (ref_label r) (ref_pattern r) (mkNode i Effect ps)
                  = false) by (now destruct r).
    cbn [filter]. rewrite Hno. simpl. lia. }
  unfold upserted, script_inv, unique_refs.
  repeat split.
  - intros r. rewrite Hcr. apply Hu.
  - rewrite match_nodes_nodes, Hn, filter_app.
    rewrite <- match_nodes_nodes, He. reflexivity.
  - now rewrite Hcr.
  - intros r. rewrite Hcr. apply Hmono.
  - rewrite <- Hev. rewrite !count_nodes_nodes, Hn, filter_app, length_app.
    simpl. lia.
  - rewrite !count_nodes_nodes, Hn, filter_app, length_app.
    rewrite !count_nodes_nodes in Hef. simpl. lia.
Qed.

End Upserts.

Lemma merge_rel_nodes (t : RelType) (a b : nat) (g : Graph) :
  nodes (merge_rel t a b g) = nodes g.
Proof. unfold merge_rel. now destruct (rels_between t a b g). Qed.

Lemma merge_node_ref (r0 : Ref) (oc : Props) (w : Graph) :
  (count_ref r0 w = 0%nat
   /\ merge_node (ref_label r0) (ref_pattern r0) oc w
      = (mkGraph (nodes w ++ [new_ref_node (fresh w) r0 oc]) (rels w)
                 (S (fresh w)),
         [new_ref_node (fresh w) r0 oc]))
  \/ (count_ref r0 w <> 0%nat
      /\ merge_node (ref_label r0) (ref_pattern r0) oc w
         = (w, match_nodes (ref_label r0) (ref_pattern r0) w)).
Proof.
  unfold merge_node, count_ref.
  destruct (match_nodes (ref_label r0) (ref_pattern r0) w) as [|n ns].
  - left. split; reflexivity.
  - right. split; [discriminate|reflexivity].
Qed.

Lemma link_upserts (eventId : string) (r0 : Ref) (oc : Props)
    (link : Node -> Node -> Graph -> Graph) :
  (forall e x g, nodes (link e x g) = nodes g) ->
  upserts eventId
    (match_merge_link eventId (ref_label r0) (ref_pattern r0) oc link) r0 0.
Proof.
  intros Hlink w e0 Hinv. pose proof Hinv as [Hu He].
  unfold match_merge_link. rewrite He. unfold for_rows at 1. cbn [fold_left].
  destruct (merge_node_ref r0 oc w) as [[Hc Hm]|[Hc Hm]]; rewrite Hm.
  - eexists. split; [reflexivity|].
    refine (@upserted_new eventId e0 r0 oc (fresh w) w _ _ Hinv Hc).
    unfold for_rows. cbn [fold_left]. now rewrite Hlink.
  - eexists. split; [reflexivity|].
    refine (@upserted_same eventId e0 r0 w _ _ Hinv Hc).
    apply (for_rows_inv (fun g' => nodes g' = nodes w)); [|reflexivity].
    intros x g' Hg'. now rewrite Hlink.
Qed.

Lemma cypher_held_at_upserts (eventId placeName : string) :
  upserts eventId (cypher_held_at eventId placeName) (RPlace placeName) 0.
Proof.
  apply (@link_upserts eventId (RPlace placeName) []).
  intros. apply merge_rel_nodes.
Qed.

Lemma cypher_person_upserts (eventId name : string) :
  upserts eventId (cypher_person eventId name) (RPerson name) 0.
Proof.
  apply (@link_upserts eventId (RPerson name) []).
  intros. apply merge_rel_nodes.
Qed.

Lemma cypher_agent_upserts (eventId agentId : string) :
  upserts eventId (cypher_agent eventId agentId) (RAgent agentId) 0.
Proof.
  apply (@link_upserts eventId (RAgent agentId) []).
  intros. apply merge_rel_nodes.
Qed.

Lemma cypher_catalyst_upserts (eventId reason : string) :
  upserts eventId (cypher_catalyst eventId reason) (RCatalyst reason) 0.
Proof.
  apply (@link_upserts eventId (RCatalyst reason) []).
  intros. apply merge_rel_nodes.
Qed.

Lemma cypher_involved_in_upserts (eventId : string) (x : EntityRef) :
  upserts eventId (cypher_involved_in eventId x) (REntity (ref_id x)) 0.
Proof.
  apply (@link_upserts eventId (REntity (ref_id x)) (entity_on_create x)).
  intros. apply merge_rel_nodes.
Qed.

Lemma cypher_produced_upserts (eventId : string) (x : EntityRef) :
  upserts eventId (cypher_produced eventId x) (REntity (ref_id x)) 0.
Proof.
  apply (@link_upserts eventId (REntity (ref_id x)) (entity_on_create x)).
  intros. apply merge_rel_nodes.
Qed.

Lemma cypher_effect_upserts (eventId : string) (x : EffectEntry) :
  upserts eventId (cypher_effect eventId x)
    (RTarget (effect_target_id x) (effect_target_kind x)) 1.
Proof.
  intros w e0 Hinv. pose proof Hinv as [Hu He].
  set (r0 := RTarget (effect_target_id x) (effect_target_kind x)).
  unfold cypher_effect. rewrite He. unfold for_rows at 1. cbn [fold_left].
  change (merge_node Target _ [] w)
    with (merge_node (ref_label r0) (ref_pattern r0) [] w).
  destruct (merge_node_ref r0 [] w) as [[Hc Hm]|[Hc Hm]]; rewrite Hm.
  - eexists. split; [reflexivity|].
    unfold for_rows. cbn [fold_left create_node fst snd].
    eapply upserted_effect.
    + exact (@upserted_new eventId e0 r0 [] (fresh w) w
               (mkGraph (nodes w ++ [new_ref_node (fresh w) r0 []])
                        (rels w) (S (fresh w))) eq_refl Hinv Hc).
    + rewrite !merge_rel_nodes. reflexivity.
  - assert (Hone : exists t, match_nodes (ref_label r0) (ref_pattern r0) w = [t]).
    { specialize (Hu r0). unfold count_ref in Hu, Hc.
      destruct (match_nodes (ref_label r0) (ref_pattern r0) w) as [|t [|t' ts]];
        simpl in *; [contradiction|now exists t|lia]. }
    destruct Hone as [t Ht]. rewrite Ht.
    eexists. split; [reflexivity|].
    unfold for_rows. cbn [fold_left create_node fst snd].
    eapply upserted_effect.
    + exact (@upserted_same eventId e0 r0 w w eq_refl Hinv Hc).
    + rewrite !merge_rel_nodes. reflexivity.
Qed.

Lemma run_script_app (fails : nat -> bool) (a b : Script) :
  forall k w,
    run_script fails k (a ++ b) w
    = match run_script fails k a w with
      | Some w1 => run_script fails (k + List.length a) b w1
      | None => None
      end.
Proof.
  induction a as [|[name q] a IH]; intros k w; simpl.
  - now rewrite Nat.add_0_r.
  - destruct (fails k); [reflexivity|].
    destruct (q w) as [[w1 []]|]; [|reflexivity].
    rewrite IH. now rewrite Nat.add_succ_r.
Qed.

Lemma run_upserts (eventId : string) (e0 : Node) (d : nat) (sc : Script) :
  Forall (fun p => exists r0, upserts eventId (snd p) r0 d) sc ->
  forall k w,
    script_inv eventId e0 w ->
    exists w',
      run_script (fun _ => false) k sc w = Some w'
      /\ script_inv eventId e0 w'
      /\ (forall r, (count_ref r w <= count_ref r w')%nat)
      /\ (forall p r0, In p sc -> upserts eventId (snd p) r0 d ->
                       count_ref r0 w' = 1%nat)
      /\ count_nodes Event w' = count_nodes Event w
      /\ count_nodes Effect w' = (count_nodes Effect w + d * List.length sc)%nat.
Proof.
  induction 1 as [|[name q] sc [r1 Hq] _ IH]; intros k w Hinv.
  - exists w. simpl. split; [reflexivity|]. split; [exact Hinv|].
    split; [intros; lia|]. split; [intros p r0 []|].
    split; [reflexivity|lia].
  - simpl in Hq. destruct (Hq w e0 Hinv) as [w1 [E1 [Hinv1 [_ [Hm1 [Hev1 Hef1]]]]]].
    destruct (IH (S k) w1 Hinv1) as [w' [E' [Hinv' [Hm' [Hin' [Hev' Hef']]]]]].
    exists w'. simpl. rewrite E1.
    split; [exact E'|]. split; [exact Hinv'|].
    split; [intros r; specialize (Hm1 r); specialize (Hm' r); lia|].
    split.
    { intros p r0 [<-|Hp] Hup.
      - simpl in Hup. destruct (Hup w e0 Hinv) as [w2 [E2 [_ [Hc2 _]]]].
        rewrite E1 in E2. injection E2 as <-.
        specialize (Hm' r0). destruct Hinv' as [Hu' _]. specialize (Hu' r0).
        lia.
      - exact (Hin' p r0 Hp Hup). }
    split; [congruence|]. simpl. lia.
Qed.

Section WriteUpserts.

Variables (env : Env) (ev : WriteEvent).

Let eventId := written_id env ev.

Let prefix : Script :=
  (match or_null_str (where_ ev) with
   | Some placeName => [("HELD_AT", cypher_held_at eventId placeName)]
   | None => []
   end)
  ++ flat_map (who_steps eventId) (who ev)
  ++ map (fun r => ("CATALYZED_BY", cypher_catalyst eventId r)) (why ev)
  ++ map (fun x => ("INVOLVED_IN", cypher_involved_in eventId x))
         (what_entities ev)
  ++ map (fun x => ("PRODUCED", cypher_produced eventId x)) (what_produced ev).

Let effs : Script :=
  map (fun x => ("HAD_EFFECT_ON", cypher_effect eventId x)) (effects ev).

Lemma write_script_split :
  write_script env ev
  = ("CREATE Event",
     cypher_create_event eventId
       (write_event_props eventId (written_at env ev) ev))
    :: prefix ++ effs.
Proof.
  unfold write_script, prefix, effs. fold eventId.
  now rewrite <- !app_assoc.
Qed.

Lemma prefix_upserts :
  Forall (fun p => exists r0, upserts eventId (snd p) r0 0) prefix.
Proof.
  unfold prefix. rewrite !Forall_app. repeat split.
  - destruct (or_null_str (where_ ev)) as [p|]; constructor; [|constructor].
    eexists. apply cypher_held_at_upserts.
  - apply Forall_forall. intros p Hp. apply in_flat_map in Hp.
    destruct Hp as [x [_ Hp]]. unfold who_steps in Hp.
    destruct (String.eqb (participant_type x) "person").
    + destruct Hp as [<-|[]]. eexists. apply cypher_person_upserts.
    + destruct (String.eqb (participant_type x) "agent"); [|destruct Hp].
      destruct Hp as [<-|[]]. eexists. apply cypher_agent_upserts.
  - apply Forall_forall. intros p Hp. apply in_map_iff in Hp.
    destruct Hp as [x [<- _]]. eexists. apply cypher_catalyst_upserts.
  - apply Forall_forall. intros p Hp. apply in_map_iff in Hp.
    destruct Hp as [x [<- _]]. eexists. apply cypher_involved_in_upserts.
  - apply Forall_forall. intros p Hp. apply in_map_iff in Hp.
    destruct Hp as [x [<- _]]. eexists. apply cypher_produced_upserts.
Qed.

Lemma effs_upserts :
  Forall (fun p => exists r0, upserts eventId (snd p) r0 1) effs.
Proof.
  unfold effs. apply Forall_forall. intros p Hp. apply in_map_iff in Hp.
  destruct Hp as [x [<- _]]. eexists. apply cypher_effect_upserts.
Qed.

Lemma mention_in_script (r : Ref) :
  mentions ev r ->
  (exists p, In p prefix /\ upserts eventId (snd p) r 0)
  \/ (exists p, In p effs /\ upserts eventId (snd p) r 1).
Proof.
  destruct r as [name|i|i|name|reason|i k]; simpl; intros H.
  - left. exists ("Person", cypher_person eventId name). split.
    + unfold prefix. rewrite !in_app_iff. right. left.
      apply in_flat_map. eexists. split; [exact H|]. now left.
    + apply cypher_person_upserts.
  - left. exists ("Agent", cypher_agent eventId i). split.
    + unfold prefix. rewrite !in_app_iff. right. left.
      apply in_flat_map. eexists. split; [exact H|]. now left.
    + apply cypher_agent_upserts.
  - left. destruct H as [x [Hx <-]]. apply in_app_or in Hx.
    destruct Hx as [Hx|Hx].
    + exists ("INVOLVED_IN", cypher_involved_in eventId x). split.
      * unfold prefix. rewrite !in_app_iff. right. right. right. left.
        apply in_map_iff. now exists x.
      * apply cypher_involved_in_upserts.
    + exists ("PRODUCED", cypher_produced eventId x). split.
      * unfold prefix. rewrite !in_app_iff. right. right. right. right.
        apply in_map_iff. now exists x.
      * apply cypher_produced_upserts.
  - left. exists ("HELD_AT", cypher_held_at eventId name). split.
    + unfold prefix. rewrite !in_app_iff. left. rewrite H. now left.
    + apply cypher_held_at_upserts.
  - left. exists ("CATALYZED_BY", cypher_catalyst eventId reason). split.
    + unfold prefix. rewrite !in_app_iff. right. right. left.
      apply in_map_iff. now exists reason.
    + apply cypher_catalyst_upserts.
  - right. destruct H as [x [Hx [<- <-]]].
    exists ("HAD_EFFECT_ON", cypher_effect eventId x). split.
    + unfold effs. apply in_map_iff. now exists x.
    + apply cypher_effect_upserts.
Qed.

(** What a committed hippocampus_write_event did to the nodes. *)
Lemma write_script_upserts (g w : Graph) :
  unique_refs g ->
  apply_script (write_script env ev) g = Some w ->
  unique_refs w
  /\ (forall r, (count_ref r g <= count_ref r w)%nat)
  /\ (forall r, mentions ev r -> count_ref r w = 1%nat)
  /\ count_nodes Event w = S (count_nodes Event g)
  /\ count_nodes Effect w
     = (count_nodes Effect g + List.length (effects ev))%nat.
Proof.
  intros Hu. unfold apply_script. rewrite write_script_split.
  cbn [run_script]. unfold cypher_create_event.
  destruct (match_nodes Event [("id", eventId)] g) eqn:Hfresh;
    [|discriminate].
  cbn [create_node fst].
  set (e0 := mkNode (fresh g) Event
               (write_event_props eventId (written_at env ev) ev)).
  set (w1 := mkGraph (nodes g ++ [e0]) (rels g) (S (fresh g))).
  assert (Hcr : forall r, count_ref r w1 = count_ref r g).
  { intros r. rewrite !count_ref_nodes. unfold w1. cbn [nodes].
    rewrite filter_app, length_app.
    assert (Hno : matches (ref_label r) (ref_pattern r) e0 = false)
      by (now destruct r).
    cbn [filter]. rewrite Hno. simpl. lia. }
  assert (Hinv1 : script_inv eventId e0 w1).
  { split.
    - intros r. rewrite Hcr. apply Hu.
    - rewrite match_nodes_nodes. unfold w1. cbn [nodes].
      rewrite filter_app, <- match_nodes_nodes, Hfresh.
      assert (Hyes : matches Event [("id", eventId)] e0 = true).
      { unfold matches, has_props, e0, write_event_props. simpl.
        now rewrite String.eqb_refl. }
      cbn [filter app]. now rewrite Hyes. }
  rewrite run_script_app.
  destruct (@run_upserts eventId e0 0 prefix prefix_upserts 1 w1 Hinv1)
    as [w2 [E2 [Hinv2 [Hm2 [Hin2 [Hev2 Hef2]]]]]].
  rewrite E2.
  destruct (@run_upserts eventId e0 1 effs effs_upserts
              (1 + List.length prefix) w2 Hinv2)
    as [w3 [E3 [Hinv3 [Hm3 [Hin3 [Hev3 Hef3]]]]]].
  rewrite E3. intros Hw. injection Hw as <-.
  split; [exact (proj1 Hinv3)|].
  split.
  { intros r. specialize (Hm2 r). specialize (Hm3 r). rewrite <- Hcr. lia. }
  split.
  { intros r Hr. destruct (mention_in_script r Hr) as [[p [Hp Hup]]|[p [Hp Hup]]].
    - pose proof (Hin2 p r Hp Hup) as H1.
      specialize (Hm3 r). destruct Hinv3 as [Hu3 _]. specialize (Hu3 r). lia.
    - exact (Hin3 p r Hp Hup). }
  split.
  { rewrite Hev3, Hev2. rewrite !count_nodes_nodes. unfold w1. cbn [nodes].
    rewrite filter_app, length_app. simpl. lia. }
  rewrite Hef3, Hef2. unfold effs. rewrite length_map.
  rewrite !count_nodes_nodes. unfold w1. cbn [nodes].
  rewrite filter_app, length_app. simpl. lia.
Qed.

End WriteUpserts.

Lemma write_event_committed (env : Env) (ev : WriteEvent) (g : Graph) :
  is_throw (fst (handleWriteEvent env ev (boot g))) = false ->
  apply_script (write_script env ev) g
  = Some (db (snd (handleWriteEvent env ev (boot g)))).
Proof.
  intros Hok. destruct (@handleWriteEvent_run env ev g) as [_ Hrun].
  destruct (run_script (env_store_fails env) 0 (write_script env ev) g)
    as [w|] eqn:Hs.
  - destruct (env_store_fails env (List.length (write_script env ev))).
    + destruct Hrun as [Habs _]. congruence.
    + destruct Hrun as [_ Hdb]. rewrite Hdb.
      exact (run_script_apply _ _ _ Hs).
  - destruct Hrun as [Habs _]. congruence.
Qed.

(** C8: on a store without duplicated reference nodes, after two committed
    hippocampus_write_event calls every Person name, Agent id, Entity id,
    Place name, Catalyst text and Target (id, kind) that either call refers
    to is stored exactly once (and no reference node is duplicated), while
    each call added one Event node and each effect entry one Effect node. *)
Theorem references_upserted_occurrences_created
    (g : Graph) (env1 env2 : Env) (ev1 ev2 : WriteEvent) :
  unique_refs g ->
  let r1 := handleWriteEvent env1 ev1 (boot g) in
  let g1 := db (snd r1) in
  let r2 := handleWriteEvent env2 ev2 (boot g1) in
  let g2 := db (snd r2) in
  is_throw (fst r1) = false ->
  is_throw (fst r2) = false ->
  (forall r, mentions ev1 r \/ mentions ev2 r -> count_ref r g2 = 1%nat)
  /\ unique_refs g2
  /\ count_nodes Event g1 = S (count_nodes Event g)
  /\ count_nodes Event g2 = S (S (count_nodes Event g))
  /\ count_nodes Effect g1
     = (count_nodes Effect g + List.length (effects ev1))%nat
  /\ count_nodes Effect g2
     = (count_nodes Effect g + List.length (effects ev1)
        + List.length (effects ev2))%nat.
Proof.
  intros Hu r1 g1 r2 g2 Hok1 Hok2.
  pose proof (write_event_committed env1 ev1 g Hok1) as Hc1. fold r1 g1 in Hc1.
  destruct (@write_script_upserts env1 ev1 g g1 Hu Hc1)
    as [Hu1 [Hm1 [Hr1 [Hev1 Hef1]]]].
  pose proof (write_event_committed env2 ev2 g1 Hok2) as Hc2.
  fold r2 g2 in Hc2.
  destruct (@write_script_upserts env2 ev2 g1 g2 Hu1 Hc2)
    as [Hu2 [Hm2 [Hr2 [Hev2 Hef2]]]].
  split.
  { intros r [Hr|Hr].
    - specialize (Hr1 r Hr). specialize (Hm2 r). specialize (Hu2 r). lia.
    - exact (Hr2 r Hr). }
  split; [exact Hu2|].
  split; [exact Hev1|]. split; [now rewrite Hev2, Hev1|].
  split; [exact Hef1|]. now rewrite Hef2, Hef1.
Qed.


(** ** Range checks *)

Lemma encode_memory_rejects_out_of_range (env : Env) (args : EncodeArgs)
    (g : Graph) :
  in_range (-1 # 1) 1 (emotional_valence (event args))
  && in_range 0 1 (significance (event args)) = false ->
  let r := handleEncodeMemory env args (boot g) in
  is_throw (fst r) = true /\ db (snd r) = g /\ txn (snd r) = None
  /\ no_write (log (snd r)) = true.
Proof.
  intros H r. rewrite <- valid_event_in_range in H.
  destruct (@encode_memory_invalid env args g H) as [msg Hrun].
  unfold r. rewrite Hrun. repeat split.
Qed.

(** C1 (the code at the failing inputs): evolve_bond sends its statement
    whatever new_strength and emotional_resonance are, and where the pair
    has a bond that the ON MATCH block can update, strength 1.5 and
    emotional_resonance -3 are stored on it; hippocampus_write_event with an
    effect of intensity 7 succeeds and stores the Effect node; only
    encode_memory checks its ranges, and with emotional_valence 1.5 it
    throws before any statement and creates no node. *)
Theorem range_checks_only_in_encode_memory :
  ((forall env args g,
       log (snd (handleEvolveBond env args (boot g)))
       = [IOSession; IOSessionRun "evolve_bond"; IOSessionClose])
   /\ map (fun b => (prop "strength" (rprops b),
                     prop "emotional_resonance" (rprops b)))
          (rels (db (snd (handleEvolveBond env_up too_strong
                            (boot ann_bob_bonded)))))
      = [(VNum (15 # 10), VNum (-3 # 1))])
  /\ (is_throw (fst (handleWriteEvent env_up kickoff (boot empty_graph))) = false
      /\ map (fun f => prop "intensity" (nprops f))
             (filter (has_label Effect)
                     (nodes (after_write env_up kickoff empty_graph)))
         = [VNum (7 # 1)])
  /\ (is_throw (fst (handleEncodeMemory env_up too_happy (boot ann_and_bob)))
      = true
      /\ after_encode env_up too_happy ann_and_bob = ann_and_bob
      /\ no_write (log (snd (handleEncodeMemory env_up too_happy
                               (boot ann_and_bob)))) = true).
Proof.
  split; [split|repeat split; vm_compute; reflexivity].
  - intros env args g.
    exact (proj1 (proj2 (proj2 (evolve_bond_run env args g)))).
  - vm_compute. reflexivity.
Qed.

(** ** Combined filters *)

(** Which combinations of filters give a statement that parses. *)
Lemma search_query_parses (a : SearchArgs) :
  parses true (search_query a)
  = negb (search_joins a && some_atoms (search_whereClauses a)).
Proof.
  unfold search_query, search_joins, nonempty_join, where_clause.
  destruct (participants a), (entities a), (min_effect_intensity a),
    (search_whereClauses a); reflexivity.
Qed.

Lemma recall_query_parses (start : list Clause) (a : RecallArgs) :
  start = [CMatchEvent; CWithScore (5 # 10)]
  \/ (exists k v, start = [CVectorQuery k v]) ->
  parses true (recall_query start a)
  = negb (recall_joins a && some_atoms (recall_whereClauses a)).
Proof.
  unfold recall_query, recall_joins, nonempty_join, where_clause.
  intros [->|[k [v ->]]];
    destruct (involves_entities a), (recall_whereClauses a); reflexivity.
Qed.

(** C5 (the code at the failing input): every event of the store has the
    participant Alice and the place HQ; with each of the two filters alone
    the statement parses and its head binds both events; supplied together,
    the two filters put a WHERE after a WHERE, the statement does not parse
    and the call throws.  recall_memory does the same with involves_entities
    and a significance threshold.  In general the statement of
    hippocampus_search_events parses exactly when no filter of the MATCH
    kind (participants, entities, min_effect_intensity) meets one of the
    WHERE kind (time_range, place, effects_on), and that of recall_memory
    exactly when involves_entities meets no other filter. *)
Theorem combined_filters_do_not_parse :
  search_query alice_at_hq
  = [CMatchEvent; CWith; CMatch JParticipant;
     CWhere [AParticipantIn ["Alice"]]; CWhere [AHeldAt "HQ"]]
  /\ parses true (search_query alice_at_hq) = false
  /\ is_throw (fst (handleSearchEvents env_up alice_at_hq (boot two_events)))
     = true
  /\ bound_ids env_up two_events (search_query with_alice)
     = Some [VStr "uuid-1"; VStr "uuid-2"]
  /\ bound_ids env_up two_events (search_query at_hq)
     = Some [VStr "uuid-1"; VStr "uuid-2"]
  /\ bound_ids env_up two_events (search_query alice_at_hq) = None
  /\ is_throw (fst (handleRecallMemory env_up significant_with_ann
                      (boot remembered))) = true
  /\ bound_ids env_up remembered
       (recall_query [CMatchEvent; CWithScore (5 # 10)] with_ann)
     = Some [VStr "uuid-1"]
  /\ bound_ids env_up remembered
       (recall_query [CMatchEvent; CWithScore (5 # 10)] significant)
     = Some [VStr "uuid-1"; VStr "uuid-2"]
  /\ bound_ids env_up remembered
       (recall_query [CMatchEvent; CWithScore (5 # 10)] significant_with_ann)
     = None
  /\ (forall a, parses true (search_query a)
                = negb (search_joins a && some_atoms (search_whereClauses a)))
  /\ (forall a, parses true (recall_query [CMatchEvent; CWithScore (5 # 10)] a)
                = negb (recall_joins a && some_atoms (recall_whereClauses a))).
Proof.
  repeat split; try (vm_compute; reflexivity).
  - exact search_query_parses.
  - intros a. apply recall_query_parses. now left.
Qed.

(** ** The Embedding Provider fails *)

(** C6 (as claimed, refuted): with the provider down the log of the call
    shows the transaction begun before the provider is called. *)
Lemma transaction_open_before_embedding :
  env_embed env_no_provider (embeddingText (event dangling)) = None
  /\ log (snd (handleEncodeMemory env_no_provider dangling (boot ann_and_bob)))
     = [IOSession; IOBeginTransaction; IOEmbedding "first contact";
        IORollback; IOSessionClose].
Proof. split; vm_compute; reflexivity. Qed.

(** C6 (as the code has it): when the Embedding Provider fails, the call
    throws without having sent a statement to the store; the transaction,
    which was opened before, is rolled back, and the store is as it was. *)
Theorem embedding_failure_writes_nothing
    (env : Env) (args : EncodeArgs) (g : Graph) :
  env_embed env (embeddingText (event args)) = None ->
  let r := handleEncodeMemory env args (boot g) in
  is_throw (fst r) = true
  /\ db (snd r) = g
  /\ txn (snd r) = None
  /\ no_write (log (snd r)) = true
  /\ In IOBeginTransaction (log (snd r))
  /\ In IORollback (log (snd r)).
Proof.
  intros He r. unfold r.
  destruct (valid_event (event args)) eqn:Hv.
  - rewrite (@encode_memory_no_embedding env args g Hv He).
    simpl. repeat split; auto.
  - destruct (@encode_memory_invalid env args g Hv) as [msg Hrun].
    rewrite Hrun. simpl. repeat split; auto.
Qed.

Lemma embedding_failure_writes_nothing_witness :
  is_throw (fst (handleEncodeMemory env_no_provider dangling
                   (boot ann_and_bob))) = true
  /\ after_encode env_no_provider dangling ann_and_bob = ann_and_bob.
Proof.
  destruct (@embedding_failure_writes_nothing env_no_provider dangling
              ann_and_bob eq_refl) as [H1 [H2 _]].
  split; [exact H1|exact H2].
Defined.

(** X1: whatever the arguments, the state of the store and the failures of
    the collaborators, the last call each of the five handlers makes is
    session.close() on the session it opened first: the finally block runs
    on the normal and on every throwing path. *)
Theorem every_handler_closes_its_session (env : Env) (s : Sys) :
  (forall args, exists l,
      log (snd (handleEncodeMemory env args s)) = l ++ [IOSessionClose])
  /\ (forall a, exists l,
         log (snd (handleRecallMemory env a s)) = l ++ [IOSessionClose])
  /\ (forall args, exists l,
         log (snd (handleEvolveBond env args s)) = l ++ [IOSessionClose])
  /\ (forall ev, exists l,
         log (snd (handleWriteEvent env ev s)) = l ++ [IOSessionClose])
  /\ (forall a, exists l,
         log (snd (handleSearchEvents env a s)) = l ++ [IOSessionClose]).
Proof.
  split; [|split; [|split; [|split]]]; intros x; eexists.
  - unfold handleEncodeMemory. rewrite session_then, begin_then.
    apply finally_close_log.
  - unfold handleRecallMemory. rewrite session_then. apply finally_close_log.
  - unfold handleEvolveBond. rewrite session_then. apply finally_close_log.
  - unfold handleWriteEvent. rewrite session_then, begin_then.
    apply finally_close_log.
  - unfold handleSearchEvents. rewrite session_then. apply finally_close_log.
Qed.

(** ** The read handlers *)

Lemma reads_ret {A} (a : A) : reads (ret a).
Proof. intros s. now split. Qed.

Lemma reads_emit (e : IO) : reads (emit e).
Proof. intros s. now split. Qed.

Lemma reads_bind {A B} (m : M A) (k : A -> M B) :
  reads m -> (forall a, reads (k a)) -> reads (bind m k).
Proof.
  intros Hm Hk s. unfold bind. destruct (Hm s) as [Hd Ht].
  destruct (m s) as [[a|e] s1]; cbn [snd] in *; [|now split].
  destruct (Hk a s1) as [Hd1 Ht1]. split; congruence.
Qed.

Lemma reads_finally {A} (m : M A) (fin : M unit) :
  reads m -> reads fin -> reads (finally m fin).
Proof.
  intros Hm Hf s. unfold finally. destruct (Hm s) as [Hd Ht].
  destruct (m s) as [o s1]. cbn [snd] in *.
  destruct (Hf s1) as [Hd1 Ht1].
  destruct (fin s1) as [[[]|e] s2]; cbn [snd] in *; split; congruence.
Qed.

Lemma reads_generateEmbedding (env : Env) (text : string) :
  reads (generateEmbedding env text).
Proof.
  intros s. unfold generateEmbedding.
  destruct (env_embed env text); now split.
Qed.

Lemma reads_session_run {R} (env : Env) (what : string) (q : Stmt R) :
  (forall g g' r, q g = Some (g', r) -> g' = g) ->
  reads (session_run env what q).
Proof.
  intros Hq s. unfold session_run.
  destruct (env_store_fails env (tick s)); [now split|].
  destruct (q (db s)) as [[g' r]|] eqn:E; [|now split].
  apply Hq in E. subst g'. now split.
Qed.

Lemma cypher_recall_reads (env : Env) (q : list Clause) (inc : bool)
    (n : Value) (g g' : Graph) (r : list Memory) :
  cypher_recall env q inc n g = Some (g', r) -> g' = g.
Proof.
  unfold cypher_recall. destruct (run_head env g q); [|discriminate].
  destruct (limit_rows n _); [|discriminate].
  intros H. now injection H as <- _.
Qed.

Lemma cypher_search_reads (env : Env) (a : SearchArgs) (n : Value)
    (g g' : Graph) (r : list EventView) :
  cypher_search env a n g = Some (g', r) -> g' = g.
Proof.
  unfold cypher_search. destruct (run_head env g (search_query a));
    [|discriminate].
  destruct (limit_rows n _); [|discriminate].
  intros H. now injection H as <- _.
Qed.

(** X2: recall_memory and hippocampus_search_events never change the store
    and never open a transaction: after the call, returned or thrown, the
    committed graph and the transaction state are what they were. *)
Theorem read_handlers_never_write (env : Env) :
  (forall a, reads (handleRecallMemory env a))
  /\ (forall a, reads (handleSearchEvents env a)).
Proof.
  split; intros a.
  - unfold handleRecallMemory.
    apply reads_bind; [apply reads_emit|intros _].
    apply reads_finally; [|apply reads_emit].
    apply reads_bind.
    + destruct (or_null_str (query a)) as [text|]; [|apply reads_ret].
      apply reads_bind; [apply reads_generateEmbedding|intros v].
      apply reads_ret.
    + intros start. apply reads_bind; [|intros recs; apply reads_ret].
      apply reads_session_run. intros g g' r. apply cypher_recall_reads.
  - unfold handleSearchEvents.
    apply reads_bind; [apply reads_emit|intros _].
    apply reads_finally; [|apply reads_emit].
    apply reads_bind; [|intros recs; apply reads_ret].
    apply reads_session_run. intros g g' r. apply cypher_search_reads.
Qed.

(** X3: recall_memory calls the Embedding Provider only for a non-empty
    query string; when that call fails the handler throws before it has sent
    anything to the store, closes its session, and the store is untouched. *)
Theorem recall_asks_provider_only_for_a_query
    (env : Env) (a : RecallArgs) (g : Graph) :
  (or_null_str (query a) = None ->
   count_io is_embedding (log (snd (handleRecallMemory env a (boot g)))) = 0%nat)
  /\ (forall text,
        or_null_str (query a) = Some text ->
        env_embed env text = None ->
        handleRecallMemory env a (boot g)
        = (Throw "embedding provider failed",
           mkSys g None [IOSession; IOEmbedding text; IOSessionClose] 0)).
Proof.
  split.
  - intros Hq. unfold handleRecallMemory. rewrite session_then, finally_close_log.
    rewrite Hq. unfold bind, ret, session_run, boot. cbn [db txn log tick].
    destruct (env_store_fails env 0); [reflexivity|].
    destruct (cypher_recall env _ _ _ g) as [[g' recs]|]; reflexivity.
  - intros text Hq He. unfold handleRecallMemory. rewrite session_then.
    unfold finally, bind. rewrite Hq. unfold generateEmbedding.
    rewrite He. reflexivity.
Qed.

Lemma recall_asks_provider_only_for_a_query_witness :
  count_io is_embedding
    (log (snd (handleRecallMemory env_no_provider (recall_all None)
                 (boot remembered)))) = 0%nat
  /\ handleRecallMemory env_no_provider (asking "first") (boot remembered)
     = (Throw "embedding provider failed",
        mkSys remembered None
              [IOSession; IOEmbedding "first"; IOSessionClose] 0).
Proof.
  split.
  - exact (proj1 (@recall_asks_provider_only_for_a_query env_no_provider
                    (recall_all None) remembered) eq_refl).
  - exact (proj2 (@recall_asks_provider_only_for_a_query env_no_provider
                    (asking "first") remembered) "first" eq_refl eq_refl).
Defined.

(** X4: hippocampus_search_events accepts semantic_query and never uses it:
    the call behaves the same whatever string is passed, and the Embedding
    Provider is never called. *)
Theorem search_ignores_semantic_query
    (env : Env) (a : SearchArgs) (q : option string) (s : Sys) :
  handleSearchEvents env
    (mkSearchArgs q (time_range a) (participants a) (entities a) (place a)
       (effects_on a) (min_effect_intensity a) (limit a)) s
  = handleSearchEvents env a s
  /\ count_io is_embedding (log (snd (handleSearchEvents env a s)))
     = count_io is_embedding (log s).
Proof.
  split; [reflexivity|].
  unfold handleSearchEvents. rewrite session_then, finally_close_log.
  unfold bind, session_run. cbn [db txn log tick].
  unfold count_io.
  destruct (env_store_fails env (tick s));
    [cbn [snd log]; rewrite !filter_app, !length_app; simpl; lia|].
  destruct (cypher_search env a _ (db s)) as [[g' recs]|];
    cbn; rewrite !filter_app, !length_app; simpl; lia.
Qed.

(** ** evolve_bond on any store *)

Lemma evolve_bond_no_pairs (fromId toId : string) (g : Graph) :
  match_any [("id", fromId)] g = [] \/ match_any [("id", toId)] g = [] ->
  bond_pairs fromId toId g = [].
Proof.
  unfold bond_pairs. intros [H|H]; rewrite H; [reflexivity|].
  induction (match_any [("id", fromId)] g) as [|x l IH]; [reflexivity|exact IH].
Qed.

(** X5: evolve_bond between identifiers of which one resolves to no node
    writes nothing and creates no placeholder node: the statement returns no
    record, reading the first record throws, and the store is as before. *)
Theorem evolve_bond_needs_both_entities
    (env : Env) (args : EvolveBondArgs) (g : Graph) :
  match_any [("id", from_entity_id args)] g = []
  \/ match_any [("id", to_entity_id args)] g = [] ->
  let r := handleEvolveBond env args (boot g) in
  is_throw (fst r) = true /\ db (snd r) = g /\ txn (snd r) = None.
Proof.
  intros H r. unfold r, handleEvolveBond. rewrite session_then.
  unfold finally, bind, session_run, boot. cbn [db txn log tick].
  destruct (env_store_fails env 0); [cbn; auto|].
  unfold cypher_evolve_bond. rewrite (evolve_bond_no_pairs _ _ _ H).
  cbn. auto.
Qed.

Lemma evolve_bond_needs_both_entities_witness :
  is_throw (fst (handleEvolveBond env_up
                   (mkEvolveBondArgs "A" "nobody" (1 # 2) None None None)
                   (boot ann_and_bob))) = true
  /\ db (snd (handleEvolveBond env_up
                (mkEvolveBondArgs "A" "nobody" (1 # 2) None None None)
                (boot ann_and_bob))) = ann_and_bob
  /\ txn (snd (handleEvolveBond env_up
                 (mkEvolveBondArgs "A" "nobody" (1 # 2) None None None)
                 (boot ann_and_bob))) = None.
Proof.
  exact (@evolve_bond_needs_both_entities env_up
           (mkEvolveBondArgs "A" "nobody" (1 # 2) None None None)
           ann_and_bob (or_intror eq_refl)).
Defined.


(** ** The write handlers only add *)

Lemma grows_refl (g : Graph) : grows g g.
Proof. exists [], []. now rewrite !app_nil_r. Qed.

Lemma grows_trans (g1 g2 g3 : Graph) : grows g1 g2 -> grows g2 g3 -> grows g1 g3.
Proof.
  intros [n1 [r1 [Hn1 Hr1]]] [n2 [r2 [Hn2 Hr2]]].
  exists (n1 ++ n2), (r1 ++ r2).
  rewrite Hn2, Hn1, Hr2, Hr1, !app_assoc. now split.
Qed.

Lemma create_node_grows (l : Label) (ps : Props) (g : Graph) :
  grows g (fst (create_node l ps g)).
Proof. eexists [_], []. cbn. now rewrite app_nil_r. Qed.

Lemma create_rel_grows (t : RelType) (a b : nat) (ps : Props) (g : Graph) :
  grows g (create_rel t a b ps g).
Proof. eexists [], [_]. cbn. now rewrite app_nil_r. Qed.

Lemma merge_rel_grows (t : RelType) (a b : nat) (g : Graph) :
  grows g (merge_rel t a b g).
Proof.
  unfold merge_rel. destruct (rels_between t a b g);
    [apply create_rel_grows|apply grows_refl].
Qed.

Lemma merge_node_grows (l : Label) (pat : list (string * string))
    (oc : Props) (g : Graph) :
  grows g (fst (merge_node l pat oc g)).
Proof.
  unfold merge_node. destruct (match_nodes l pat g);
    [apply create_node_grows|apply grows_refl].
Qed.

Lemma for_rows_grows {A} (rows : list A) (f : A -> Graph -> Graph) (g : Graph) :
  (forall row g', grows g' (f row g')) -> grows g (for_rows rows f g).
Proof.
  intros Hf. apply (for_rows_inv (grows g)); [|apply grows_refl].
  intros row g' Hg'. exact (grows_trans Hg' (Hf row g')).
Qed.

Lemma cypher_create_event_only_adds (eventId : string) (ps : Props) :
  only_adds (cypher_create_event eventId ps).
Proof.
  intros w w'. unfold cypher_create_event.
  destruct (match_nodes Event [("id", eventId)] w); [|discriminate].
  intros H. injection H as <-. apply create_node_grows.
Qed.

Lemma match_merge_link_only_adds (eventId : string) (l : Label)
    (pat : list (string * string)) (oc : Props)
    (link : Node -> Node -> Graph -> Graph) :
  (forall e x g, grows g (link e x g)) ->
  only_adds (match_merge_link eventId l pat oc link).
Proof.
  intros Hlink w w' H. unfold match_merge_link in H. injection H as <-.
  apply for_rows_grows. intros e g1.
  pose proof (merge_node_grows l pat oc g1) as Hm.
  destruct (merge_node l pat oc g1) as [g2 xs]. cbn [fst] in Hm.
  apply (grows_trans Hm). apply for_rows_grows. intros x g3. apply Hlink.
Qed.

Lemma cypher_effect_only_adds (eventId : string) (x : EffectEntry) :
  only_adds (cypher_effect eventId x).
Proof.
  intros w w' H. unfold cypher_effect in H. injection H as <-.
  apply for_rows_grows. intros e g1.
  match goal with
  | |- context [merge_node ?l ?pat ?oc g1] =>
      pose proof (merge_node_grows l pat oc g1) as Hm;
      destruct (merge_node l pat oc g1) as [g2 ts]
  end.
  cbn [fst] in Hm. apply (grows_trans Hm).
  apply for_rows_grows. intros t g3. cbn [create_node].
  eapply grows_trans; [|apply merge_rel_grows].
  eapply grows_trans; [|apply merge_rel_grows].
  eexists [_], []. cbn. now rewrite app_nil_r.
Qed.

Lemma create_rel_rows_only_add {A B} (outer : Graph -> list A)
    (inner : Graph -> list B) (t : RelType) (src dst : A -> B -> nat)
    (ps : A -> B -> Props) :
  only_adds (fun g =>
    Some (for_rows (outer g)
            (fun a => for_rows (inner g)
                        (fun b => create_rel t (src a b) (dst a b) (ps a b)))
            g, tt)).
Proof.
  intros w w' H. injection H as <-.
  apply for_rows_grows. intros a g1.
  apply for_rows_grows. intros b g2. apply create_rel_grows.
Qed.

Lemma write_script_only_adds (env : Env) (ev : WriteEvent) :
  Forall (fun p => only_adds (snd p)) (write_script env ev).
Proof.
  unfold write_script. constructor; [apply cypher_create_event_only_adds|].
  rewrite !Forall_app. repeat split.
  - destruct (or_null_str (where_ ev)); constructor; [|constructor].
    apply match_merge_link_only_adds. intros. apply merge_rel_grows.
  - apply Forall_forall. intros p Hp. apply in_flat_map in Hp.
    destruct Hp as [x [_ Hp]]. unfold who_steps in Hp.
    destruct (String.eqb (participant_type x) "person").
    + destruct Hp as [<-|[]].
      apply match_merge_link_only_adds. intros. apply merge_rel_grows.
    + destruct (String.eqb (participant_type x) "agent"); [|destruct Hp].
      destruct Hp as [<-|[]].
      apply match_merge_link_only_adds. intros. apply merge_rel_grows.
  - apply Forall_forall. intros p Hp. apply in_map_iff in Hp.
    destruct Hp as [x [<- _]].
    apply match_merge_link_only_adds. intros. apply merge_rel_grows.
  - apply Forall_forall. intros p Hp. apply in_map_iff in Hp.
    destruct Hp as [x [<- _]].
    apply match_merge_link_only_adds. intros. apply merge_rel_grows.
  - apply Forall_forall. intros p Hp. apply in_map_iff in Hp.
    destruct Hp as [x [<- _]].
    apply match_merge_link_only_adds. intros. apply merge_rel_grows.
  - apply Forall_forall. intros p Hp. apply in_map_iff in Hp.
    destruct Hp as [x [<- _]]. apply cypher_effect_only_adds.
Qed.

Lemma encode_script_only_adds (env : Env) (args : EncodeArgs) (v : list Q) :
  Forall (fun p => only_adds (snd p)) (encode_script env args v).
Proof.
  unfold encode_script. constructor; [apply cypher_create_event_only_adds|].
  rewrite !Forall_app. repeat split;
    apply Forall_forall; intros p Hp; apply in_map_iff in Hp;
    destruct Hp as [x [<- _]]; cbn [snd].
  - apply (create_rel_rows_only_add
             (fun g => match_nodes Event [("id", env_uuid env)] g)
             (fun g => match_any [("id", entity_id x)] g) INVOLVES
             (fun e _ => nid e) (fun _ y => nid y)).
  - apply (create_rel_rows_only_add
             (fun g => match_nodes Event [("id", x)] g)
             (fun g => match_nodes Event [("id", env_uuid env)] g) PRECEDED
             (fun e1 _ => nid e1) (fun _ e2 => nid e2)
             (fun e1 e2 =>
                [("temporal_distance",
                  duration_between (prop "timestamp" (nprops e1))
                                   (prop "timestamp" (nprops e2)));
                 ("causal_strength", VNum (8 # 10))])).
  - apply (create_rel_rows_only_add
             (fun g => match_nodes Event [("id", env_uuid env)] g)
             (fun g => match_any [("id", target_id x)] g) CONSOLIDATED_TO
             (fun e _ => nid e) (fun _ y => nid y)).
Qed.

Lemma run_script_grows (fails : nat -> bool) (sc : Script) :
  Forall (fun p => only_adds (snd p)) sc ->
  forall k w w', run_script fails k sc w = Some w' -> grows w w'.
Proof.
  induction 1 as [|[name q] sc Hq _ IH]; intros k w w'; simpl.
  - intros H. injection H as <-. apply grows_refl.
  - destruct (fails k); [discriminate|].
    destruct (q w) as [[w1 []]|] eqn:E; [|discriminate].
    intros H. exact (grows_trans (Hq w w1 E) (IH _ _ _ H)).
Qed.

(** X7: hippocampus_write_event and encode_memory only ever add to the
    store: after the call, committed or failed, every node and every
    relationship that was stored is still there, in place and with the same
    properties (a MERGE that finds its node changes nothing on it; ON CREATE
    SET applies to new nodes only), followed by what the call created. *)
Theorem write_handlers_only_add (env : Env) (g : Graph) :
  (forall ev, grows g (db (snd (handleWriteEvent env ev (boot g)))))
  /\ (forall args, grows g (db (snd (handleEncodeMemory env args (boot g))))).
Proof.
  split.
  - intros ev. destruct (@handleWriteEvent_run env ev g) as [_ Hrun].
    destruct (run_script (env_store_fails env) 0 (write_script env ev) g)
      as [w|] eqn:Hs.
    + pose proof (@run_script_grows _ _ (write_script_only_adds env ev) _ _ _ Hs)
        as Hg.
      destruct (env_store_fails env (List.length (write_script env ev))).
      * destruct Hrun as [_ ->]. apply grows_refl.
      * destruct Hrun as [_ ->]. exact Hg.
    + destruct Hrun as [_ ->]. apply grows_refl.
  - intros args.
    destruct (valid_event (event args)) eqn:Hv.
    2:{ destruct (@encode_memory_invalid env args g Hv) as [msg ->].
        apply grows_refl. }
    destruct (env_embed env (embeddingText (event args))) as [v|] eqn:He.
    2:{ rewrite (@encode_memory_no_embedding env args g Hv He).
        apply grows_refl. }
    destruct (@handleEncodeMemory_run env args v g Hv He) as [_ Hrun].
    destruct (run_script (env_store_fails env) 0 (encode_script env args v) g)
      as [w|] eqn:Hs.
    + pose proof (@run_script_grows _ _ (encode_script_only_adds env args v)
                    _ _ _ Hs) as Hg.
      destruct (env_store_fails env (List.length (encode_script env args v))).
      * destruct Hrun as [_ ->]. apply grows_refl.
      * destruct Hrun as [-> _]. exact Hg.
    + destruct Hrun as [_ ->]. apply grows_refl.
Qed.

(** X8: hippocampus_write_event with an id that a stored Event already has
    is refused by the store's uniqueness constraint at its first statement:
    the call throws, the transaction is rolled back, and neither the event
    nor anything its blocks refer to is written. *)
Theorem write_event_rejects_a_used_id
    (env : Env) (ev : WriteEvent) (g : Graph) :
  match_nodes Event [("id", written_id env ev)] g <> [] ->
  let r := handleWriteEvent env ev (boot g) in
  is_throw (fst r) = true /\ db (snd r) = g /\ txn (snd r) = None.
Proof.
  intros Hused r. destruct (@handleWriteEvent_run env ev g) as [Htx Hrun].
  fold r in Htx, Hrun.
  assert (Hs : run_script (env_store_fails env) 0 (write_script env ev) g
               = None).
  { unfold write_script. cbn [run_script].
    destruct (env_store_fails env 0); [reflexivity|].
    unfold cypher_create_event.
    destruct (match_nodes Event [("id", written_id env ev)] g);
      [contradiction|reflexivity]. }
  rewrite Hs in Hrun. destruct Hrun as [Ht Hd]. auto.
Qed.

Lemma write_event_rejects_a_used_id_witness :
  is_throw (fst (handleWriteEvent env_up retro
                   (boot (after_write env_up kickoff empty_graph)))) = true
  /\ db (snd (handleWriteEvent env_up retro
                (boot (after_write env_up kickoff empty_graph))))
     = after_write env_up kickoff empty_graph
  /\ txn (snd (handleWriteEvent env_up retro
                 (boot (after_write env_up kickoff empty_graph)))) = None.
Proof.
  refine (@write_event_rejects_a_used_id env_up retro
            (after_write env_up kickoff empty_graph) _).
  vm_compute. discriminate.
Defined.

(** ** encode_memory after its commit *)

(** Once the script and the commit went through, the rest of the [try]
    block runs on the committed store. *)
Lemma script_committed {A} (env : Env) (sc : Script) (post body : M A)
    (handler : string -> M A) (fin : M unit) (g w : Graph) (l0 l1 : list IO) :
  body (mkSys g (Some g) l0 0)
  = (tx_script env sc ;;; tx_commit env ;;; post) (mkSys g (Some g) l1 0) ->
  run_script (env_store_fails env) 0 sc g = Some w ->
  env_store_fails env (List.length sc) = false ->
  finally (try_catch body handler) fin (mkSys g (Some g) l0 0)
  = finally (try_catch post handler) fin
      (mkSys w None ((l1 ++ map (fun p => IOTxRun (fst p)) sc) ++ [IOCommit])
             (S (List.length sc))).
Proof.
  intros Hbody Hs Hc. unfold finally, try_catch. rewrite Hbody.
  destruct (@tx_script_run env sc (mkSys g (Some g) l1 0) g eq_refl)
    as [_ Hrun].
  cbn [tick db log] in Hrun. rewrite Hs in Hrun.
  unfold bind. rewrite Hrun. unfold tx_commit. cbn [tick txn db log].
  rewrite Nat.add_0_l, Hc. reflexivity.
Qed.

Lemma all_up_within (env : Env) (n : nat) :
  store_fails_within env n = false ->
  forallb (fun i => negb (env_store_fails env i)) (seq 0 n) = true.
Proof.
  unfold store_fails_within. generalize (seq 0 n). intros l.
  induction l as [|i l IH]; simpl; [reflexivity|].
  intros H. apply orb_false_iff in H as [H1 H2].
  rewrite H1. simpl. now apply IH.
Qed.

(** X9: encode_memory is atomic up to its commit only.  When every
    statement and the commit succeed but the read-back that follows fails,
    the call throws although the Event is stored: the store holds the
    complete script's result, the catch block calls rollback on the
    transaction that is already committed, and the second session, opened for
    the read-back, is never closed. *)
Theorem encode_memory_can_fail_after_commit
    (env : Env) (args : EncodeArgs) (g w : Graph) (v : list Q) :
  valid_event (event args) = true ->
  env_embed env (embeddingText (event args)) = Some v ->
  let sc := encode_script env args v in
  apply_script sc g = Some w ->
  store_fails_within env (S (List.length sc)) = false ->
  env_store_fails env (S (List.length sc)) = true ->
  let r := handleEncodeMemory env args (boot g) in
  is_throw (fst r) = true
  /\ db (snd r) = w
  /\ count_nodes Event w = S (count_nodes Event g)
  /\ log (snd r)
     = [IOSession; IOBeginTransaction;
        IOEmbedding (embeddingText (event args))]
       ++ map (fun p => IOTxRun (fst p)) sc
       ++ [IOCommit; IOSession; IOSessionRun "read Event"; IORollback;
           IOSessionClose].
Proof.
  intros Hv He sc Happ Hup Hdown r.
  assert (Hs : run_script (env_store_fails env) 0 sc g = Some w).
  { apply run_script_ok. split.
    - apply all_up_within in Hup. rewrite seq_S, forallb_app in Hup.
      now apply andb_prop in Hup as [Hup _].
    - now rewrite run_script_shift. }
  assert (Hc : env_store_fails env (List.length sc) = false).
  { apply all_up_within in Hup. rewrite seq_S, forallb_app in Hup.
    apply andb_prop in Hup as [_ Hup]. simpl in Hup.
    rewrite andb_true_r in Hup. now apply negb_true_iff in Hup. }
  assert (Hfresh : match_nodes Event [("id", env_uuid env)] g = []).
  { revert Happ. unfold sc, apply_script, encode_script. cbn [run_script].
    unfold cypher_create_event.
    destruct (match_nodes Event [("id", env_uuid env)] g);
      [reflexivity|discriminate]. }
  assert (Hnodes : count_nodes Event w = S (count_nodes Event g)).
  { destruct (@encode_script_runs env args g v Hfresh) as [w0 [Happ0 [_ Hn]]].
    fold sc in Happ0. rewrite Happ in Happ0. injection Happ0 as <-.
    rewrite !count_nodes_nodes, Hn, filter_app, length_app. simpl. lia. }
  assert (Hrun : handleEncodeMemory env args (boot g)
                 = (Throw ("Cannot rollback this transaction, "
                           ++ "because it has already been committed."),
                    mkSys w None
                      ((((((([IOSession; IOBeginTransaction]
                           ++ [IOEmbedding (embeddingText (event args))])
                          ++ map (fun p => IOTxRun (fst p)) sc)
                         ++ [IOCommit]) ++ [IOSession])
                        ++ [IOSessionRun "read Event"]) ++ [IORollback])
                       ++ [IOSessionClose])
                      (S (S (List.length sc))))).
  { rewrite encode_memory_frame.
    rewrite (@script_committed _ env sc (encode_read_back env args) _ _ _ g w
               _ _ (@encode_memory_body env args v g _ Hv He) Hs Hc).
    unfold finally, try_catch, encode_read_back, bind, session, session_close,
      emit, session_run, tx_rollback, throw.
    cbn [db txn log tick fst snd]. rewrite Hdown. reflexivity. }
  unfold r. rewrite Hrun. cbn [fst snd db log].
  split; [reflexivity|]. split; [reflexivity|]. split; [exact Hnodes|].
  rewrite <- !app_assoc. reflexivity.
Qed.

Lemma ann_remembered_script :
  apply_script (encode_script (env_store_down_at 3) involving_ann sample_vector)
               ann_and_bob
  = Some ann_remembered.
Proof. vm_compute. reflexivity. Qed.

Lemma encode_memory_can_fail_after_commit_witness :
  is_throw (fst (handleEncodeMemory (env_store_down_at 3) involving_ann
                   (boot ann_and_bob))) = true
  /\ db (snd (handleEncodeMemory (env_store_down_at 3) involving_ann
                (boot ann_and_bob))) = ann_remembered
  /\ count_nodes Event ann_remembered = S (count_nodes Event ann_and_bob).
Proof.
  destruct (@encode_memory_can_fail_after_commit (env_store_down_at 3)
              involving_ann ann_and_bob ann_remembered sample_vector
              eq_refl eq_refl ann_remembered_script eq_refl eq_refl)
    as [H1 [H2 [H3 _]]].
  split; [exact H1|]. split; [exact H2|exact H3].
Defined.

(** ** From encode_memory to recall_memory *)


(** ** The limit parameter *)

(** LIMIT refuses a Float, whatever its value. *)
Lemma limit_rows_float {A} (q : Q) (l : list A) : limit_rows (VNum q) l = None.
Proof. reflexivity. Qed.

Lemma cypher_recall_float (env : Env) (q : list Clause) (inc : bool) (x : Q)
    (g : Graph) :
  cypher_recall env q inc (VNum x) g = None.
Proof.
  unfold cypher_recall. destruct (run_head env g q); reflexivity.
Qed.

Lemma cypher_search_float (env : Env) (a : SearchArgs) (x : Q) (g : Graph) :
  cypher_search env a (VNum x) g = None.
Proof.
  unfold cypher_search. destruct (run_head env g (search_query a));
    reflexivity.
Qed.

(** Every recall_memory call ends in a throw: the provider fails, the
    store is down, or the store refuses the statement. *)
Lemma recall_throws (env : Env) (a : RecallArgs) (g : Graph) :
  let r := handleRecallMemory env a (boot g) in
  is_throw (fst r) = true /\ db (snd r) = g /\ txn (snd r) = None.
Proof.
  intros r. unfold r, handleRecallMemory. rewrite session_then.
  unfold finally, bind, boot. cbn [db txn log tick].
  destruct (or_null_str (query a)) as [text|].
  - unfold generateEmbedding. cbn [db txn log tick].
    destruct (env_embed env text) as [v|]; [|cbn; auto].
    unfold ret, session_run, js_number. cbn [db txn log tick fst snd].
    destruct (env_store_fails env 0); [cbn; auto|].
    rewrite cypher_recall_float. cbn. auto.
  - unfold ret, session_run, js_number. cbn [db txn log tick fst snd].
    destruct (env_store_fails env 0); [cbn; auto|].
    rewrite cypher_recall_float. cbn. auto.
Qed.

Lemma search_throws (env : Env) (a : SearchArgs) (g : Graph) :
  let r := handleSearchEvents env a (boot g) in
  is_throw (fst r) = true /\ db (snd r) = g /\ txn (snd r) = None.
Proof.
  intros r. unfold r, handleSearchEvents. rewrite session_then.
  unfold finally, bind, boot, session_run, js_number.
  cbn [db txn log tick fst snd].
  destruct (env_store_fails env 0); [cbn; auto|].
  rewrite cypher_search_float. cbn. auto.
Qed.

(** Without a query string and with the store up, the statement is what
    fails: it is sent, and refused. *)
Lemma recall_refused (env : Env) (a : RecallArgs) (g : Graph) :
  or_null_str (query a) = None ->
  env_store_fails env 0 = false ->
  log (snd (handleRecallMemory env a (boot g)))
  = [IOSession; IOSessionRun "recall"; IOSessionClose].
Proof.
  intros Hq Hup. unfold handleRecallMemory. rewrite session_then.
  unfold finally, bind, boot. cbn [db txn log tick]. rewrite Hq.
  unfold ret, session_run, js_number. cbn [db txn log tick fst snd].
  rewrite Hup, cypher_recall_float. reflexivity.
Qed.

Lemma search_refused (env : Env) (a : SearchArgs) (g : Graph) :
  env_store_fails env 0 = false ->
  log (snd (handleSearchEvents env a (boot g)))
  = [IOSession; IOSessionRun "search events"; IOSessionClose].
Proof.
  intros Hup. unfold handleSearchEvents. rewrite session_then.
  unfold finally, bind, boot, session_run, js_number.
  cbn [db txn log tick fst snd].
  rewrite Hup, cypher_search_float. reflexivity.
Qed.

Lemma no_filters_query (a : SearchArgs) :
  no_filters a -> search_query a = [CMatchEvent].
Proof.
  intros [Ht [Hp [He [Hpl [Hef Hi]]]]].
  unfold search_query, search_whereClauses.
  now rewrite Ht, Hp, He, Hpl, Hef, Hi.
Qed.

(** C4 (the code at the failing input): recall_memory returns no ranking.
    Its statement ends in LIMIT $limit, and $limit is the JavaScript number
    the handler received, or its default 10, which the driver sends as a
    Float; the store refuses a Float as the count of LIMIT, so whatever head
    the handler assembles the statement is refused.  Every call throws, with
    or without a query string, and leaves the store as it was; without a
    query string and with the store up, the call gets as far as sending the
    statement. *)
Theorem recall_memory_returns_no_ranking :
  (forall env a g,
      let r := handleRecallMemory env a (boot g) in
      is_throw (fst r) = true /\ db (snd r) = g)
  /\ (forall env q inc n g, cypher_recall env q inc (js_number n) g = None)
  /\ is_throw (fst (handleRecallMemory env_up (recall_all None)
                      (boot remembered))) = true
  /\ log (snd (handleRecallMemory env_up (recall_all None) (boot remembered)))
     = [IOSession; IOSessionRun "recall"; IOSessionClose]
  /\ is_throw (fst (handleRecallMemory env_up (asking "first")
                      (boot remembered))) = true
  /\ log (snd (handleRecallMemory env_up (asking "first") (boot remembered)))
     = [IOSession; IOEmbedding "first"; IOSessionRun "recall"; IOSessionClose].
Proof.
  split; [|split; [|repeat split; vm_compute; reflexivity]].
  - intros env a g r.
    destruct (recall_throws env a g) as [H1 [H2 _]]. now split.
  - intros env q inc n g. apply cypher_recall_float.
Qed.

(** C7 (the code at the failing input): hippocampus_search_events returns
    no event.  Without filters the head of its statement binds every stored
    Event, but the statement ends in LIMIT $limit with the JavaScript number
    [parseInt(limit) || 10], which the driver sends as a Float and the store
    refuses: every call throws and leaves the store as it was. *)
Theorem search_events_returns_no_events :
  (forall env a g,
      let r := handleSearchEvents env a (boot g) in
      is_throw (fst r) = true /\ db (snd r) = g)
  /\ (forall env a g,
        no_filters a ->
        run_head env g (search_query a)
        = Some (map (fun e => mkRow e None None) (stored_events g))
        /\ cypher_search env a (js_number (search_limit a)) g = None)
  /\ is_throw (fst (handleSearchEvents env_up (search_all None)
                      (boot two_events))) = true
  /\ log (snd (handleSearchEvents env_up (search_all None) (boot two_events)))
     = [IOSession; IOSessionRun "search events"; IOSessionClose]
  /\ List.length (stored_events two_events) = 2%nat.
Proof.
  split; [|split; [|repeat split; vm_compute; reflexivity]].
  - intros env a g r.
    destruct (search_throws env a g) as [H1 [H2 _]]. now split.
  - intros env a g Hno. split; [|apply cypher_search_float].
    unfold run_head. now rewrite (no_filters_query Hno).
Qed.

(** C9 (the code at the failing input): the limit is neither clamped nor
    applied.  Both handlers hand the limit to the store as the JavaScript
    number they received (10 when it is omitted; hippocampus_search_events
    also puts 10 in the place of 0), the driver sends a JavaScript number as
    a Float, and the store refuses a Float as the count of LIMIT, whatever
    its value: with no limit, with 5, with 150 and with 0 the call throws
    instead of returning a list cut to the limit. *)
Theorem limit_reaches_the_store_as_a_float :
  (forall (n : Z) (l : list Memory), limit_rows (js_number n) l = None)
  /\ (forall (n : Z) (l : list EventView), limit_rows (js_number n) l = None)
  /\ (forall env a g,
        is_throw (fst (handleRecallMemory env a (boot g))) = true)
  /\ (forall env a g,
        is_throw (fst (handleSearchEvents env a (boot g))) = true)
  /\ map (fun n => is_throw (fst (handleRecallMemory env_up (recall_all n)
                                    (boot (crowd 3)))))
         [None; Some 5%Z; Some 150%Z; Some 0%Z]
     = [true; true; true; true]
  /\ map (fun n => is_throw (fst (handleSearchEvents env_up (search_all n)
                                    (boot (crowd 3)))))
         [None; Some 5%Z; Some 150%Z; Some 0%Z]
     = [true; true; true; true]
  /\ map (fun n => limit_of (recall_all n)) [None; Some 5%Z; Some 150%Z; Some 0%Z]
     = [10%Z; 5%Z; 150%Z; 0%Z]
  /\ map (fun n => search_limit (search_all n))
         [None; Some 5%Z; Some 150%Z; Some 0%Z]
     = [10%Z; 5%Z; 150%Z; 10%Z].
Proof.
  split; [reflexivity|]. split; [reflexivity|].
  split; [intros env a g; exact (proj1 (recall_throws env a g))|].
  split; [intros env a g; exact (proj1 (search_throws env a g))|].
  repeat split; vm_compute; reflexivity.
Qed.

(** ** The tool dispatcher *)

Section Dispatch.

Variable interpret : string -> Props -> Stmt (list Props * Counters).
Variable handleWriteReflection : ReflectionArgs -> M Props.
Variable env : Env.

Lemma try_catch_returns {A} (body : M A) (handler : string -> M A) (s : Sys) :
  (forall e s', exists a, fst (handler e s') = Return a) ->
  exists a, fst (try_catch body handler s) = Return a.
Proof.
  intros Hh. unfold try_catch. destruct (body s) as [[a|e] s'].
  - now exists a.
  - apply Hh.
Qed.

Lemma dispatch_returns (call : ToolCall) (s : Sys) :
  exists p, fst (dispatch interpret handleWriteReflection env call s)
            = Return p.
Proof.
  unfold dispatch. apply try_catch_returns.
  intros e s'. now exists (Failure e).
Qed.

End Dispatch.

Lemma dispatch_local {A} (wrap : A -> ToolData) (handler : M A) (s : Sys) :
  try_catch (reply_with wrap handler) (fun error => ret (Failure error)) s
  = (Return (payload_of wrap (fst (handler s))), snd (handler s)).
Proof.
  unfold try_catch, reply_with, bind, ret.
  destruct (handler s) as [[r|e] s']; reflexivity.
Qed.

(** X14: no error crosses the tool boundary of the stdio server: whatever
    the call, the store and the collaborators do, the dispatcher returns a
    payload and never throws.  For encode_memory, recall_memory, evolve_bond,
    mutate_graph and query_graph the payload is the handler's result, or the
    failure with the message the handler threw, and the dispatcher itself
    changes nothing; for a name that is none of the eight tools the payload
    is the failure [Unknown tool: <name>], and neither the store nor the
    provider has been contacted. *)
Theorem dispatcher_contains_every_error
    (interpret : string -> Props -> Stmt (list Props * Counters))
    (handleWriteReflection : ReflectionArgs -> M Props)
    (env : Env) (s : Sys) :
  let run := dispatch interpret handleWriteReflection env in
  (forall call, exists p, fst (run call s) = Return p)
  /\ (forall args,
        run (CallEncodeMemory args) s
        = (Return (payload_of DataMemory (fst (handleEncodeMemory env args s))),
           snd (handleEncodeMemory env args s)))
  /\ (forall a,
        run (CallRecallMemory a) s
        = (Return (payload_of DataMemories (fst (handleRecallMemory env a s))),
           snd (handleRecallMemory env a s)))
  /\ (forall args,
        run (CallEvolveBond args) s
        = (Return (payload_of DataBond (fst (handleEvolveBond env args s))),
           snd (handleEvolveBond env args s)))
  /\ (forall args,
        run (CallMutateGraph args) s
        = (Return (payload_of DataMutation
                     (fst (handleMutateGraph interpret env args s))),
           snd (handleMutateGraph interpret env args s)))
  /\ (forall args,
        run (CallQueryGraph args) s
        = (Return (payload_of DataRecords
                     (fst (handleQueryGraph interpret env args s))),
           snd (handleQueryGraph interpret env args s)))
  /\ (forall name other,
        run (CallOther name other) s
        = (Return (Failure ("Unknown tool: " ++ name)), s)).
Proof.
  intros run. split; [intros call; apply dispatch_returns|].
  repeat split; intros; unfold run, dispatch;
    try apply dispatch_local; reflexivity.
Qed.

(** X15: through the dispatcher of the stdio server the three hippocampus
    tools cannot succeed: the dispatcher passes the context object where the
    extension handlers expect the driver, so each of them throws at
    [driver.session()]; the call is answered with the failure that carries
    the message of that TypeError, and nothing has been opened, read or
    written. *)
Theorem extension_tools_fail_through_dispatcher
    (interpret : string -> Props -> Stmt (list Props * Counters))
    (handleWriteReflection : ReflectionArgs -> M Props)
    (env : Env) (s : Sys) (call : ToolCall) :
  (exists ev, call = CallWriteEvent ev)
  \/ (exists r, call = CallWriteReflection r)
  \/ (exists a, call = CallSearchEvents a) ->
  dispatch interpret handleWriteReflection env call s
  = (Return (Failure "driver.session is not a function"), s).
Proof.
  intros [[ev ->]|[[r ->]|[a ->]]]; reflexivity.
Qed.

Lemma extension_tools_fail_through_dispatcher_witness :
  dispatch detach_delete_all (fun _ => ret []) env_up (CallWriteEvent kickoff)
           (boot empty_graph)
  = (Return (Failure "driver.session is not a function"),
     boot empty_graph).
Proof.
  exact (@extension_tools_fail_through_dispatcher detach_delete_all
           (fun _ => ret []) env_up (boot empty_graph) (CallWriteEvent kickoff)
           (or_introl (ex_intro _ kickoff eq_refl))).
Defined.

(** ** mutate_graph and query_graph *)

(** X16: query_graph is read-only by its description only: the handler
    sends the caller's statement to the store exactly as mutate_graph does
    and checks nothing, so a statement that writes changes the store through
    query_graph as it does through mutate_graph; when the store or the
    statement fails, the handler throws with the store unchanged and its
    session closed. *)
Theorem query_graph_is_not_read_only
    (interpret : string -> Props -> Stmt (list Props * Counters))
    (env : Env) (args : CypherArgs) (s : Sys) :
  snd (handleQueryGraph interpret env args s)
  = snd (handleMutateGraph interpret env args s)
  /\ (forall g' result,
        env_store_fails env (tick s) = false ->
        interpret (cypher args) (params args) (db s) = Some (g', result) ->
        handleQueryGraph interpret env args s
        = (Return (mkQueryReply (fst result) (List.length (fst result))),
           mkSys g' (txn s)
                 (((log s ++ [IOSession]) ++ [IOSessionRun (cypher args)])
                  ++ [IOSessionClose])
                 (S (tick s))))
  /\ (env_store_fails env (tick s) = true
      \/ interpret (cypher args) (params args) (db s) = None ->
      is_throw (fst (handleQueryGraph interpret env args s)) = true
      /\ db (snd (handleQueryGraph interpret env args s)) = db s).
Proof.
  unfold handleQueryGraph, handleMutateGraph.
  rewrite !session_then.
  unfold finally, bind, session_run, session_close, emit.
  cbn [db txn log tick].
  split; [|split].
  - destruct (env_store_fails env (tick s)); [reflexivity|].
    destruct (interpret (cypher args) (params args) (db s)) as [[g' res]|];
      reflexivity.
  - intros g' result Hup Hi. rewrite Hup, Hi. reflexivity.
  - intros [Hdown|Hi].
    + rewrite Hdown. cbn. auto.
    + destruct (env_store_fails env (tick s)); [cbn; auto|].
      rewrite Hi. cbn. auto.
Qed.

Lemma query_graph_is_not_read_only_witness :
  handleQueryGraph detach_delete_all env_up delete_everything (boot two_events)
  = (Return (mkQueryReply [] 0),
     mkSys (mkGraph [] [] (fresh two_events)) None
           [IOSession; IOSessionRun "MATCH (n) DETACH DELETE n";
            IOSessionClose] 1)
  /\ (is_throw (fst (handleQueryGraph detach_delete_all (env_store_down_at 0)
                       delete_everything (boot two_events))) = true
      /\ db (snd (handleQueryGraph detach_delete_all (env_store_down_at 0)
                    delete_everything (boot two_events))) = two_events).
Proof.
  split.
  - exact (proj1 (proj2 (@query_graph_is_not_read_only detach_delete_all
                           env_up delete_everything (boot two_events)))
                 (mkGraph [] [] (fresh two_events))
                 ([], mkCounters 0
                        (Z.of_nat (List.length (nodes two_events))) 0
                        (Z.of_nat (List.length (rels two_events))) 0)
                 eq_refl eq_refl).
  - exact (proj2 (proj2 (@query_graph_is_not_read_only detach_delete_all
                           (env_store_down_at 0) delete_everything
                           (boot two_events)))
                 (or_introl eq_refl)).
Defined.

(** ** The remote server *)

(** X17: encode_memory of the remote server checks no range and writes no
    relationship: with the provider and the store up and an unused id it
    stores the Event as given, whatever its valence and significance and
    whatever [involves] lists, embedding the context summary alone; and
    whenever it throws, the store is as it was. *)
Theorem remote_encode_stores_the_event_alone
    (env : Env) (args : EncodeArgs) (g : Graph) :
  let r := Remote.handleEncodeMemory env args (boot g) in
  (is_throw (fst r) = true -> db (snd r) = g)
  /\ (forall v,
        env_embed env (context_summary (event args)) = Some v ->
        env_store_fails env 0 = false ->
        match_nodes Event [("id", env_uuid env)] g = [] ->
        fst r = Return (Remote.mkEncodeReply (env_uuid env)
                          (encode_timestamp env args))
        /\ nodes (db (snd r))
           = nodes g ++ [mkNode (fresh g) Event
                           (Remote.event_props (env_uuid env)
                              (encode_timestamp env args) (event args) v)]
        /\ rels (db (snd r)) = rels g
        /\ log (snd r)
           = [IOSession; IOEmbedding (context_summary (event args));
              IOSessionRun "CREATE Event"; IOSessionClose]).
Proof.
  intros r. unfold r, Remote.handleEncodeMemory. rewrite session_then.
  unfold finally, bind, generateEmbedding, session_run, session_close, emit,
    boot, encode_timestamp.
  cbn [db txn log tick].
  split.
  - destruct (env_embed env (context_summary (event args))) as [v|];
      [|reflexivity].
    cbn [db txn log tick].
    destruct (env_store_fails env 0); [reflexivity|].
    unfold cypher_create_event.
    destruct (match_nodes Event [("id", env_uuid env)] g); [|reflexivity].
    cbn. intros Habs. discriminate Habs.
  - intros v He Hup Hfresh. rewrite He. cbn [db txn log tick].
    rewrite Hup. unfold cypher_create_event. rewrite Hfresh.
    cbn. repeat split.
Qed.

Lemma remote_encode_stores_the_event_alone_witness :
  (fst (Remote.handleEncodeMemory env_up too_happy (boot ann_and_bob))
   = Return (Remote.mkEncodeReply "uuid-1" 700)
   /\ nodes (db (snd (Remote.handleEncodeMemory env_up too_happy
                        (boot ann_and_bob))))
      = nodes ann_and_bob
        ++ [mkNode 2 Event
              (Remote.event_props "uuid-1" 700 (event too_happy)
                 sample_vector)]
   /\ rels (db (snd (Remote.handleEncodeMemory env_up too_happy
                       (boot ann_and_bob)))) = [])
  /\ db (snd (Remote.handleEncodeMemory env_no_provider too_happy
                (boot ann_and_bob))) = ann_and_bob.
Proof.
  split.
  - destruct (proj2 (@remote_encode_stores_the_event_alone env_up too_happy
                       ann_and_bob) sample_vector eq_refl eq_refl eq_refl)
      as [H1 [H2 [H3 _]]].
    split; [exact H1|]. split; [exact H2|exact H3].
  - exact (proj1 (@remote_encode_stores_the_event_alone env_no_provider
                    too_happy ann_and_bob) eq_refl).
Defined.

(** X18: recall_memory of the remote server needs a query string and
    then fails at the store.  Without a query string it returns the empty
    list without contacting the provider or the store, whatever is stored
    and whatever other arguments are passed; with one, it asks the provider
    for the embedding and sends the index call with the JavaScript number
    [limit] as the count of the candidates and of LIMIT, which the store
    refuses as a Float: the call throws and the store is as it was. *)
Theorem remote_recall_needs_a_query
    (env : Env) (a : RecallArgs) (g : Graph) :
  (or_null_str (query a) = None ->
   Remote.handleRecallMemory env a (boot g)
   = (Return (Remote.mkRecallReply [] None),
      mkSys g None [IOSession; IOSessionClose] 0))
  /\ (forall text,
        or_null_str (query a) = Some text ->
        let r := Remote.handleRecallMemory env a (boot g) in
        is_throw (fst r) = true
        /\ db (snd r) = g
        /\ (forall v, env_embed env text = Some v ->
              log (snd r)
              = [IOSession; IOEmbedding text; IOSessionRun "recall";
                 IOSessionClose])).
Proof.
  unfold Remote.handleRecallMemory. rewrite session_then.
  unfold finally, bind, generateEmbedding, session_run, session_close, emit,
    boot.
  cbn [db txn log tick].
  split.
  - intros ->. reflexivity.
  - intros text ->. cbv zeta.
    destruct (env_embed env text) as [v|].
    2:{ cbn. split; [reflexivity|]. split; [reflexivity|]. discriminate. }
    cbn [db txn log tick fst snd].
    destruct (env_store_fails env 0);
      [cbn; split; [reflexivity|]; split; [reflexivity|]; reflexivity|].
    assert (Hq : Remote.cypher_recall env v (js_number (limit_of a)) g = None)
      by reflexivity.
    rewrite Hq. cbn. split; [reflexivity|]. split; reflexivity.
Qed.

Lemma remote_recall_needs_a_query_witness :
  Remote.handleRecallMemory env_up (recall_all (Some 5%Z)) (boot remembered)
  = (Return (Remote.mkRecallReply [] None),
     mkSys remembered None [IOSession; IOSessionClose] 0)
  /\ is_throw (fst (Remote.handleRecallMemory (env_ranked two_hits)
                      (asking_one "first") (boot remembered))) = true
  /\ db (snd (Remote.handleRecallMemory (env_ranked two_hits)
                (asking_one "first") (boot remembered))) = remembered.
Proof.
  split.
  - exact (proj1 (@remote_recall_needs_a_query env_up (recall_all (Some 5%Z))
                    remembered) eq_refl).
  - destruct (proj2 (@remote_recall_needs_a_query (env_ranked two_hits)
                       (asking_one "first") remembered) "first" eq_refl)
      as [H1 [H2 _]].
    split; [exact H1|exact H2].
Defined.

(** X19: the remote server serves encode_memory, recall_memory and
    query_graph only: a call of any other tool of the stdio server
    (evolve_bond, mutate_graph, the hippocampus tools) or of an unknown name
    is answered with the failure [Unknown tool: <name>] and touches neither
    the store nor the provider; and like the stdio dispatcher it never
    throws. *)
Theorem remote_server_serves_three_tools
    (interpret : string -> Props -> Stmt (list Props * Counters))
    (env : Env) (s : Sys) (call : ToolCall) :
  (exists p, fst (Remote.dispatch interpret env call s) = Return p)
  /\ (remote_tool call = false ->
      Remote.dispatch interpret env call s
      = (Return (Remote.Failure ("Unknown tool: " ++ tool_name call)), s)).
Proof.
  split.
  - unfold Remote.dispatch, try_catch.
    match goal with
    | |- context [match ?b s with _ => _ end] =>
        destruct (b s) as [[p|e] s']
    end; [now exists p|now exists (Remote.Failure e)].
  - destruct call; intros H; try discriminate H; reflexivity.
Qed.

Lemma remote_server_serves_three_tools_witness :
  Remote.dispatch detach_delete_all env_up
    (CallEvolveBond too_strong) (boot ann_and_bob)
  = (Return (Remote.Failure "Unknown tool: evolve_bond"), boot ann_and_bob).
Proof.
  exact (proj2 (@remote_server_serves_three_tools detach_delete_all env_up
                  (boot ann_and_bob) (CallEvolveBond too_strong)) eq_refl).
Defined.

(** ** The blocks of hippocampus_write_event *)


Lemma who_steps_known (eventId : string) (l : list Participant) :
  flat_map (who_steps eventId) (filter known_participant l)
  = flat_map (who_steps eventId) l.
Proof.
  induction l as [|p l IH]; [reflexivity|].
  cbn [filter flat_map]. unfold known_participant at 1.
  destruct (String.eqb (participant_type p) "person") eqn:E1.
  - cbn [orb flat_map]. now rewrite IH.
  - destruct (String.eqb (participant_type p) "agent") eqn:E2.
    + cbn [orb flat_map]. now rewrite IH.
    + cbn [orb]. rewrite IH. unfold who_steps at 2. now rewrite E1, E2.
Qed.

(** X20: a participant whose type is neither [person] nor [agent] is
    dropped without a word: the call sends the same statements, leaves the
    same store and log and gives the same answer as the call without such
    participants. *)
Theorem write_event_skips_unknown_participants
    (env : Env) (ev : WriteEvent) (s : Sys) :
  handleWriteEvent env ev s
  = handleWriteEvent env (with_who ev (filter known_participant (who ev))) s.
Proof.
  unfold handleWriteEvent. rewrite !session_then, !begin_then.
  unfold finally, try_catch. rewrite !write_event_body.
  unfold write_script, with_who, written_id, written_at, write_event_props.
  cbn [id title description happened_at who why what_entities what_produced
       where_ effects].
  rewrite who_steps_known. reflexivity.
Qed.

Lemma write_script_blocks (env : Env) (ev : WriteEvent) :
  write_script env ev
  = ("CREATE Event",
     cypher_create_event (written_id env ev)
       (write_event_props (written_id env ev) (written_at env ev) ev))
    :: bind_steps env ev ++ effect_steps env ev.
Proof.
  unfold write_script, bind_steps, effect_steps. now rewrite <- !app_assoc.
Qed.

Lemma apply_script_cons (p : string * Stmt unit) (sc : Script) (w : Graph) :
  apply_script (p :: sc) w
  = match snd p w with
    | Some (w1, _) => apply_script sc w1
    | None => None
    end.
Proof.
  unfold apply_script. destruct p as [name q]. cbn [run_script snd].
  destruct (q w) as [[w1 []]|]; [|reflexivity].
  apply run_script_shift.
Qed.

Lemma apply_script_app (a b : Script) (w : Graph) :
  apply_script (a ++ b) w
  = match apply_script a w with
    | Some w1 => apply_script b w1
    | None => None
    end.
Proof.
  unfold apply_script. rewrite run_script_app.
  destruct (run_script (fun _ => false) 0 a w) as [w1|]; [|reflexivity].
  apply run_script_shift.
Qed.

Lemma upserts_keeps_inv (eventId : string) (q : Stmt unit) (r0 : Ref) (d : nat) :
  upserts eventId q r0 d -> keeps_script_inv eventId q.
Proof.
  intros Hq w e0 Hinv. destruct (Hq w e0 Hinv) as [w' [E [Hinv' _]]].
  now exists w'.
Qed.

Lemma run_keeps_inv (eventId : string) (e0 : Node) (sc : Script) :
  Forall (fun p => keeps_script_inv eventId (snd p)) sc ->
  forall w, script_inv eventId e0 w ->
    exists w', apply_script sc w = Some w' /\ script_inv eventId e0 w'.
Proof.
  induction 1 as [|p sc Hp _ IH]; intros w Hinv.
  - now exists w.
  - destruct (Hp w e0 Hinv) as [w1 [E1 Hinv1]].
    destruct (IH w1 Hinv1) as [w' [E' Hinv']].
    exists w'. rewrite apply_script_cons, E1. now split.
Qed.

Lemma apply_script_grows (sc : Script) (w w' : Graph) :
  Forall (fun p => only_adds (snd p)) sc ->
  apply_script sc w = Some w' -> grows w w'.
Proof. intros Hsc H. exact (@run_script_grows _ sc Hsc 0%nat w w' H). Qed.

Lemma RelType_eqb_refl (t : RelType) : RelType_eqb t t = true.
Proof. now destruct t. Qed.

Lemma merge_rel_linked (t : RelType) (a b : nat) (g : Graph) :
  rels_between t a b (merge_rel t a b g) <> [].
Proof.
  unfold merge_rel. destruct (rels_between t a b g) as [|r rs] eqn:E.
  - unfold rels_between, create_rel. cbn [rels]. rewrite filter_app.
    cbn [filter rtype rsrc rdst].
    rewrite RelType_eqb_refl, !Nat.eqb_refl. cbn.
    intros H. apply app_eq_nil in H as [_ H]. discriminate H.
  - rewrite E. discriminate.
Qed.

Lemma merge_rel_fixed (t : RelType) (a b : nat) (g : Graph) :
  rels_between t a b g <> [] -> merge_rel t a b g = g.
Proof.
  unfold merge_rel. destruct (rels_between t a b g); [contradiction|reflexivity].
Qed.

Lemma link_of_nodes (t : RelType) (out : bool) (e x : Node) (g : Graph) :
  nodes (link_of t out e x g) = nodes g.
Proof. unfold link_of. destruct out; apply merge_rel_nodes. Qed.

Lemma link_of_linked (t : RelType) (out : bool) (e x : Node) (g : Graph) :
  linked t out e x (link_of t out e x g).
Proof. unfold linked, link_of. destruct out; apply merge_rel_linked. Qed.

Lemma link_of_fixed (t : RelType) (out : bool) (e x : Node) (g : Graph) :
  linked t out e x g -> link_of t out e x g = g.
Proof. unfold linked, link_of. destruct out; apply merge_rel_fixed. Qed.

Lemma linked_grows (t : RelType) (out : bool) (e x : Node) (g g' : Graph) :
  grows g g' -> linked t out e x g -> linked t out e x g'.
Proof.
  intros [ns [rs [_ Hr]]]. unfold linked, rels_between. rewrite Hr.
  destruct out; rewrite filter_app; intros H Habs;
    apply app_eq_nil in Habs as [Habs _]; contradiction.
Qed.

Lemma bind_statement_upserts (eventId : string) (r0 : Ref) (oc : Props)
    (t : RelType) (out : bool) :
  upserts eventId (bind_statement eventId r0 oc t out) r0 0.
Proof.
  apply (@link_upserts eventId r0 oc). intros. apply link_of_nodes.
Qed.

(** After a bind statement its reference node is there, once, linked with
    the event. *)
Lemma bind_statement_links (eventId : string) (r0 : Ref) (oc : Props)
    (t : RelType) (out : bool) (e0 : Node) (w w1 : Graph) :
  script_inv eventId e0 w ->
  bind_statement eventId r0 oc t out w = Some (w1, tt) ->
  exists x, match_nodes (ref_label r0) (ref_pattern r0) w1 = [x]
            /\ linked t out e0 x w1.
Proof.
  intros [Hu He]. unfold bind_statement, match_merge_link. rewrite He.
  unfold for_rows at 1. cbn [fold_left].
  destruct (merge_node_ref r0 oc w) as [[Hc Hm]|[Hc Hm]]; rewrite Hm.
  - unfold for_rows. cbn [fold_left]. intros H. injection H as <-.
    exists (new_ref_node (fresh w) r0 oc). split; [|apply link_of_linked].
    rewrite match_nodes_nodes, link_of_nodes. cbn [nodes].
    rewrite filter_app, <- match_nodes_nodes.
    unfold count_ref in Hc. apply length_zero_iff_nil in Hc. rewrite Hc.
    cbn [filter app]. now rewrite new_ref_node_matches.
  - assert (Hone : exists x, match_nodes (ref_label r0) (ref_pattern r0) w = [x]).
    { specialize (Hu r0). unfold count_ref in Hu, Hc.
      destruct (match_nodes (ref_label r0) (ref_pattern r0) w) as [|x [|x' xs]];
        simpl in *; [contradiction|now exists x|lia]. }
    destruct Hone as [x Hx]. rewrite Hx.
    unfold for_rows. cbn [fold_left]. intros H. injection H as <-.
    exists x. split; [|apply link_of_linked].
    now rewrite match_nodes_nodes, link_of_nodes, <- match_nodes_nodes.
Qed.

(** On a graph that has the reference node linked with the event, the bind
    statement changes nothing. *)
Lemma bind_statement_fixed (eventId : string) (r0 : Ref) (oc : Props)
    (t : RelType) (out : bool) (e0 x : Node) (w : Graph) :
  script_inv eventId e0 w ->
  match_nodes (ref_label r0) (ref_pattern r0) w = [x] ->
  linked t out e0 x w ->
  bind_statement eventId r0 oc t out w = Some (w, tt).
Proof.
  intros [_ He] Hx Hl. unfold bind_statement, match_merge_link. rewrite He.
  unfold for_rows at 1. cbn [fold_left]. unfold merge_node. rewrite Hx.
  unfold for_rows. cbn [fold_left]. now rewrite link_of_fixed.
Qed.

Lemma match_grows (eventId : string) (e0 x : Node) (r0 : Ref) (w w' : Graph) :
  grows w w' -> script_inv eventId e0 w' ->
  match_nodes (ref_label r0) (ref_pattern r0) w = [x] ->
  match_nodes (ref_label r0) (ref_pattern r0) w' = [x].
Proof.
  intros [ns [rs [Hn _]]] [Hu _] Hx. specialize (Hu r0).
  unfold count_ref in Hu. revert Hu.
  rewrite !match_nodes_nodes, Hn, filter_app, <- match_nodes_nodes, Hx.
  cbn [app]. destruct (filter _ ns) as [|y ys]; [reflexivity|].
  cbn. lia.
Qed.

Lemma bind_steps_shape (env : Env) (ev : WriteEvent) :
  Forall (fun p => exists r0 oc t out,
            snd p = bind_statement (written_id env ev) r0 oc t out)
         (bind_steps env ev).
Proof.
  unfold bind_steps. rewrite !Forall_app. repeat split.
  - destruct (or_null_str (where_ ev)) as [p|]; constructor; [|constructor].
    now exists (RPlace p), [], HELD_AT, true.
  - apply Forall_forall. intros p Hp. apply in_flat_map in Hp.
    destruct Hp as [x [_ Hp]]. unfold who_steps in Hp.
    destruct (String.eqb (participant_type x) "person").
    + destruct Hp as [<-|[]].
      now exists (RPerson (participant_id x)), [], PARTICIPATED_IN, false.
    + destruct (String.eqb (participant_type x) "agent"); [|destruct Hp].
      destruct Hp as [<-|[]].
      now exists (RAgent (participant_id x)), [], PARTICIPATED_IN, false.
  - apply Forall_forall. intros p Hp. apply in_map_iff in Hp.
    destruct Hp as [x [<- _]].
    now exists (RCatalyst x), [], CATALYZED_BY, true.
  - apply Forall_forall. intros p Hp. apply in_map_iff in Hp.
    destruct Hp as [x [<- _]].
    now exists (REntity (ref_id x)), (entity_on_create x), INVOLVED_IN, false.
  - apply Forall_forall. intros p Hp. apply in_map_iff in Hp.
    destruct Hp as [x [<- _]].
    now exists (REntity (ref_id x)), (entity_on_create x), PRODUCED, true.
Qed.

Lemma bind_steps_keep_inv (env : Env) (ev : WriteEvent) :
  Forall (fun p => keeps_script_inv (written_id env ev) (snd p))
         (bind_steps env ev).
Proof.
  eapply Forall_impl; [|apply bind_steps_shape].
  intros p [r0 [oc [t [out ->]]]].
  exact (@upserts_keeps_inv _ _ r0 0
           (@bind_statement_upserts (written_id env ev) r0 oc t out)).
Qed.

Lemma effect_steps_keep_inv (env : Env) (ev : WriteEvent) :
  Forall (fun p => keeps_script_inv (written_id env ev) (snd p))
         (effect_steps env ev).
Proof.
  unfold effect_steps. apply Forall_forall. intros p Hp.
  apply in_map_iff in Hp. destruct Hp as [x [<- _]].
  exact (@upserts_keeps_inv _ _ _ 1
           (@cypher_effect_upserts (written_id env ev) x)).
Qed.

Lemma created_event_bound (env : Env) (ev : WriteEvent) (g w0 : Graph) :
  unique_refs g ->
  cypher_create_event (written_id env ev)
    (write_event_props (written_id env ev) (written_at env ev) ev) g
  = Some (w0, tt) ->
  script_inv (written_id env ev)
    (mkNode (fresh g) Event
       (write_event_props (written_id env ev) (written_at env ev) ev)) w0.
Proof.
  intros Hu. unfold cypher_create_event.
  destruct (match_nodes Event [("id", written_id env ev)] g) eqn:Hfresh;
    [|discriminate].
  cbn [create_node fst]. intros H. injection H as <-.
  set (e0 := mkNode (fresh g) Event _).
  split.
  - intros r. rewrite count_ref_nodes. cbn [nodes].
    rewrite filter_app, length_app.
    assert (Hno : matches (ref_label r) (ref_pattern r) e0 = false)
      by (now destruct r).
    cbn [filter]. rewrite Hno. cbn [List.length].
    rewrite Nat.add_0_r, <- count_ref_nodes. apply Hu.
  - rewrite match_nodes_nodes. cbn [nodes].
    rewrite filter_app, <- match_nodes_nodes, Hfresh.
    assert (Hyes : matches Event [("id", written_id env ev)] e0 = true).
    { unfold matches, has_props, e0, write_event_props. simpl.
      now rewrite String.eqb_refl. }
    cbn [filter app]. now rewrite Hyes.
Qed.

Lemma apply_script_fixes_bind_steps (env : Env) (ev : WriteEvent) (g w : Graph) :
  unique_refs g ->
  apply_script (write_script env ev) g = Some w ->
  forall st, In st (bind_steps env ev) -> snd st w = Some (w, tt).
Proof.
  intros Hu Happ st Hst.
  set (eventId := written_id env ev) in *.
  pose proof (write_script_only_adds env ev) as Hadds.
  rewrite write_script_blocks in Happ, Hadds. fold eventId in Happ, Hadds.
  rewrite apply_script_cons in Happ. cbn [snd] in Happ.
  destruct (cypher_create_event eventId _ g) as [[w0 []]|] eqn:Hcreate;
    [|discriminate].
  pose proof (@created_event_bound env ev g w0 Hu Hcreate) as Hinv0.
  fold eventId in Hinv0.
  set (e0 := mkNode (fresh g) Event _) in Hinv0.
  apply Forall_inv_tail in Hadds. apply Forall_app in Hadds as [Hadds1 Hadds2].
  pose proof (bind_steps_keep_inv env ev) as Hkeep. fold eventId in Hkeep.
  pose proof (bind_steps_shape env ev) as Hshape. fold eventId in Hshape.
  destruct (in_split _ _ Hst) as [sc1 [sc2 Hsplit]].
  rewrite Hsplit in Happ, Hadds1, Hkeep, Hshape.
  apply Forall_app in Hadds1 as [_ Hadds1].
  apply Forall_app in Hkeep as [Hkeep1 Hkeep2].
  apply Forall_app in Hshape as [_ Hshape].
  apply Forall_inv in Hshape. destruct Hshape as [r0 [oc [t [out Hq]]]].
  rewrite <- app_assoc, apply_script_app in Happ.
  destruct (@run_keeps_inv eventId e0 sc1 Hkeep1 w0 Hinv0) as [wa [Ea Hinva]].
  rewrite Ea in Happ. cbn [app] in Happ.
  rewrite apply_script_cons in Happ.
  destruct (Forall_inv Hkeep2 wa e0 Hinva) as [wb [Eb Hinvb]].
  rewrite Eb in Happ.
  assert (Hgrow : grows wb w).
  { apply (@apply_script_grows (sc2 ++ effect_steps env ev)); [|exact Happ].
    apply Forall_app. split; [exact (Forall_inv_tail Hadds1)|exact Hadds2]. }
  assert (Hinv : script_inv eventId e0 w).
  { destruct (@run_keeps_inv eventId e0 (sc2 ++ effect_steps env ev)) with (w := wb)
      as [w' [E' Hinv']]; [|exact Hinvb|].
    - apply Forall_app. split; [exact (Forall_inv_tail Hkeep2)|].
      apply effect_steps_keep_inv.
    - rewrite Happ in E'. now injection E' as <-. }
  rewrite Hq in Eb |- *.
  destruct (@bind_statement_links eventId r0 oc t out e0 wa wb Hinva Eb)
    as [x [Hx Hl]].
  apply (@bind_statement_fixed eventId r0 oc t out e0 x w Hinv).
  - exact (@match_grows eventId e0 x r0 wb w Hgrow Hinv Hx).
  - exact (@linked_grows t out e0 x wb w Hgrow Hl).
Qed.

(** X21: the statements of the where, who, why and what blocks are
    idempotent: on the store a committed hippocampus_write_event leaves
    (starting from a store without duplicated reference nodes), running any
    of them again changes nothing, so a participant, reason, entity or
    product listed twice is stored and linked once.  (An effect entry is
    different: each one creates a new Effect node.) *)
Theorem write_event_bind_statements_are_idempotent
    (env : Env) (ev : WriteEvent) (g : Graph) :
  unique_refs g ->
  is_throw (fst (handleWriteEvent env ev (boot g))) = false ->
  forall st, In st (bind_steps env ev) ->
    snd st (after_write env ev g) = Some (after_write env ev g, tt).
Proof.
  intros Hu Hok. unfold after_write.
  exact (@apply_script_fixes_bind_steps env ev g _ Hu
           (write_event_committed env ev g Hok)).
Qed.

Lemma write_event_bind_statements_are_idempotent_witness :
  Forall (fun st => snd st (after_write env_up guests empty_graph)
                    = Some (after_write env_up guests empty_graph, tt))
         (bind_steps env_up guests).
Proof.
  assert (Hu : unique_refs empty_graph) by (intros r; cbv; lia).
  apply Forall_forall.
  exact (@write_event_bind_statements_are_idempotent env_up guests empty_graph
           Hu eq_refl).
Defined.



(** ** The relationships of encode_memory *)

Lemma flat_map_singletons {A B} (f : A -> list B) (h : A -> B) (l : list A) :
  (forall x, In x l -> f x = [h x]) -> flat_map f l = map h l.
Proof.
  induction l as [|x l IH]; simpl; intros H; [reflexivity|].
  rewrite (H x (or_introl eq_refl)). simpl. f_equal.
  apply IH. intros y Hy. apply H. now right.
Qed.

Lemma for_rows_cons {A} (a : A) (rows : list A) (f : A -> Graph -> Graph)
    (g : Graph) :
  for_rows (a :: rows) f g = for_rows rows f (f a g).
Proof. reflexivity. Qed.

Lemma create_rel_row_edges {B} (inner : list B) (t : RelType)
    (src dst : B -> nat) (ps : B -> Props) (g : Graph) :
  let g' := for_rows inner (fun b => create_rel t (src b) (dst b) (ps b)) g in
  nodes g' = nodes g
  /\ exists new, rels g' = rels g ++ new
                 /\ map edge_of new
                    = map (fun b => (src b, t, dst b, ps b)) inner.
Proof.
  cbv zeta. revert g.
  induction inner as [|b inner IH]; intros g.
  - split; [reflexivity|]. exists []. now rewrite app_nil_r.
  - rewrite for_rows_cons.
    destruct (IH (create_rel t (src b) (dst b) (ps b) g))
      as [Hn [new [Hr He]]].
    split; [exact Hn|].
    exists (mkRel (fresh g) (src b) t (dst b) (ps b) :: new).
    split; [rewrite Hr; cbn [create_rel rels]; now rewrite <- app_assoc|].
    cbn [map]. now rewrite He.
Qed.

Lemma create_rel_rows_edges {A B} (outer : list A) (inner : list B)
    (t : RelType) (src dst : A -> B -> nat) (ps : A -> B -> Props) (g : Graph) :
  let g' := for_rows outer
              (fun a => for_rows inner
                          (fun b => create_rel t (src a b) (dst a b) (ps a b)))
              g in
  nodes g' = nodes g
  /\ exists new, rels g' = rels g ++ new
                 /\ map edge_of new
                    = flat_map (fun a => map (fun b => (src a b, t, dst a b,
                                                        ps a b)) inner) outer.
Proof.
  cbv zeta. revert g.
  induction outer as [|a outer IH]; intros g.
  - split; [reflexivity|]. exists []. now rewrite app_nil_r.
  - rewrite for_rows_cons. cbn [flat_map].
    destruct (@create_rel_row_edges _ inner t (src a) (dst a) (ps a) g)
      as [Hn1 [new1 [Hr1 He1]]].
    destruct (IH (for_rows inner
                    (fun b => create_rel t (src a b) (dst a b) (ps a b)) g))
      as [Hn [new [Hr He]]].
    split; [congruence|].
    exists (new1 ++ new). split; [rewrite Hr, Hr1; now rewrite app_assoc|].
    now rewrite map_app, He1, He.
Qed.

Lemma match_any_same_nodes (pat : list (string * string)) (w w' : Graph) :
  nodes w = nodes w' -> match_any pat w = match_any pat w'.
Proof. unfold match_any. now intros ->. Qed.

Lemma match_nodes_same_nodes (l : Label) (pat : list (string * string))
    (w w' : Graph) :
  nodes w = nodes w' -> match_nodes l pat w = match_nodes l pat w'.
Proof. unfold match_nodes. now intros ->. Qed.

(** A list of statements of which each adds the edges [f x] of its
    reference and no node. *)
Lemma run_map_edges {X} (l : list X) (name : string) (q : X -> Stmt unit)
    (f : X -> list Edge) (N : list Node) :
  (forall x w, nodes w = N ->
     exists w',
       q x w = Some (w', tt) /\ nodes w' = nodes w
       /\ exists new, rels w' = rels w ++ new /\ map edge_of new = f x) ->
  forall w, nodes w = N ->
    exists w',
      apply_script (map (fun x => (name, q x)) l) w = Some w'
      /\ nodes w' = nodes w
      /\ exists new, rels w' = rels w ++ new
                     /\ map edge_of new = flat_map f l.
Proof.
  intros Hq. induction l as [|x l IH]; intros w Hw.
  - exists w. split; [reflexivity|]. split; [reflexivity|].
    exists []. now rewrite app_nil_r.
  - destruct (Hq x w Hw) as [w1 [E1 [N1 [new1 [R1 M1]]]]].
    destruct (IH w1) as [w' [E' [N' [new [R' M']]]]]; [congruence|].
    exists w'. cbn [map]. rewrite apply_script_cons. cbn [snd]. rewrite E1.
    split; [exact E'|]. split; [congruence|].
    exists (new1 ++ new). split; [rewrite R', R1; now rewrite app_assoc|].
    cbn [flat_map]. now rewrite map_app, M1, M'.
Qed.

Section EncodeEdges.

Variables (env : Env) (args : EncodeArgs) (g : Graph) (v : list Q).

Let uuid := env_uuid env.
Let e := mkNode (fresh g) Event
           (event_props uuid (encode_timestamp env args) (event args) v).
Let g1 := mkGraph (nodes g ++ [e]) (rels g) (S (fresh g)).

Hypothesis fresh_id : match_nodes Event [("id", uuid)] g = [].

Lemma bound_event (w : Graph) :
  nodes w = nodes g1 -> match_nodes Event [("id", uuid)] w = [e].
Proof.
  intros Hn. rewrite (@match_nodes_same_nodes Event [("id", uuid)] w g1 Hn).
  pose proof (@match_event_after_create env args g v uuid) as H.
  rewrite fresh_id in H. unfold uuid in H. rewrite String.eqb_refl in H.
  exact H.
Qed.

Lemma involves_adds (i : Involvement) (w : Graph) :
  nodes w = nodes g1 ->
  exists w',
    cypher_involves uuid i w = Some (w', tt) /\ nodes w' = nodes w
    /\ exists new, rels w' = rels w ++ new
                   /\ map edge_of new = involves_edges g1 e i.
Proof.
  intros Hn. unfold cypher_involves. rewrite (@bound_event w Hn).
  eexists. split; [reflexivity|].
  destruct (@create_rel_rows_edges _ _ [e]
              (match_any [("id", entity_id i)] w) INVOLVES
              (fun a _ => nid a) (fun _ b => nid b)
              (fun _ _ => [("role", VStr (role i));
                           ("salience", VNum (salience i))]) w)
    as [Hn' [new [Hr He]]].
  split; [exact Hn'|]. exists new. split; [exact Hr|].
  rewrite He. cbn [flat_map]. rewrite app_nil_r.
  unfold involves_edges.
  now rewrite (@match_any_same_nodes [("id", entity_id i)] w g1 Hn).
Qed.

Lemma consolidated_adds (c : Consolidation) (w : Graph) :
  nodes w = nodes g1 ->
  exists w',
    cypher_consolidated uuid c w = Some (w', tt) /\ nodes w' = nodes w
    /\ exists new, rels w' = rels w ++ new
                   /\ map edge_of new = consolidated_edges g1 e c.
Proof.
  intros Hn. unfold cypher_consolidated. rewrite (@bound_event w Hn).
  eexists. split; [reflexivity|].
  destruct (@create_rel_rows_edges _ _ [e]
              (match_any [("id", target_id c)] w) CONSOLIDATED_TO
              (fun a _ => nid a) (fun _ b => nid b)
              (fun _ _ => [("strength", VNum (consolidation_strength c));
                           ("consolidation_type",
                            VStr (consolidation_type c));
                           ("rehearsal_count", VInt 1)]) w)
    as [Hn' [new [Hr He]]].
  split; [exact Hn'|]. exists new. split; [exact Hr|].
  rewrite He. cbn [flat_map]. rewrite app_nil_r.
  unfold consolidated_edges.
  now rewrite (@match_any_same_nodes [("id", target_id c)] w g1 Hn).
Qed.

Lemma preceded_adds (p : string) (w : Graph) :
  nodes w = nodes g1 ->
  exists w',
    cypher_preceded uuid p w = Some (w', tt) /\ nodes w' = nodes w
    /\ exists new, rels w' = rels w ++ new
                   /\ map edge_of new = preceded_edges g1 e p.
Proof.
  intros Hn. unfold cypher_preceded. rewrite (@bound_event w Hn).
  eexists. split; [reflexivity|].
  destruct (@create_rel_rows_edges _ _
              (match_nodes Event [("id", p)] w) [e] PRECEDED
              (fun e1 _ => nid e1) (fun _ e2 => nid e2)
              (fun e1 e2 =>
                 [("temporal_distance",
                   duration_between (prop "timestamp" (nprops e1))
                                    (prop "timestamp" (nprops e2)));
                  ("causal_strength", VNum (8 # 10))]) w)
    as [Hn' [new [Hr He]]].
  split; [exact Hn'|]. exists new. split; [exact Hr|].
  rewrite He. unfold preceded_edges.
  rewrite (@match_nodes_same_nodes Event [("id", p)] w g1 Hn).
  apply flat_map_singletons. intros e1 _. reflexivity.
Qed.

End EncodeEdges.

(** X23: the relationships a committed encode_memory writes are exactly
    one per reference and node the reference resolves to, in the order of
    the arguments: an INVOLVES edge from the new event to every node with the
    id of an [involves] entry (with its role and salience), a PRECEDED edge
    to the new event from every Event with an id of [precedes] (with the time
    between the two and causal_strength 0.8), a CONSOLIDATED_TO edge from the
    new event to every node with the id of a [consolidates_to] entry; ids are
    resolved on the store that already holds the new event, and nothing else
    is written. *)
Theorem encode_memory_links_what_resolves
    (env : Env) (args : EncodeArgs) (g : Graph) (v : list Q) :
  valid_event (event args) = true ->
  env_embed env (embeddingText (event args)) = Some v ->
  (forall k, env_store_fails env k = false) ->
  match_nodes Event [("id", env_uuid env)] g = [] ->
  let e := mkNode (fresh g) Event
             (event_props (env_uuid env) (encode_timestamp env args)
                (event args) v) in
  let g1 := mkGraph (nodes g ++ [e]) (rels g) (S (fresh g)) in
  let g' := db (snd (handleEncodeMemory env args (boot g))) in
  nodes g' = nodes g ++ [e]
  /\ exists new,
       rels g' = rels g ++ new /\ map edge_of new = encode_edges g1 e args.
Proof.
  intros Hv He Hup Hfresh e g1 g'.
  destruct (@run_map_edges _ (involves args) "INVOLVES"
              (cypher_involves (env_uuid env)) (involves_edges g1 e)
              (nodes g1)
              (fun i w => @involves_adds env args g v Hfresh i w) g1 eq_refl)
    as [w1 [E1 [N1 [new1 [R1 M1]]]]].
  destruct (@run_map_edges _ (precedes args) "PRECEDED"
              (cypher_preceded (env_uuid env)) (preceded_edges g1 e)
              (nodes g1)
              (fun p w => @preceded_adds env args g v Hfresh p w) w1 N1)
    as [w2 [E2 [N2 [new2 [R2 M2]]]]].
  destruct (@run_map_edges _ (consolidates_to args) "CONSOLIDATED_TO"
              (cypher_consolidated (env_uuid env)) (consolidated_edges g1 e)
              (nodes g1)
              (fun c w => @consolidated_adds env args g v Hfresh c w) w2
              (eq_trans N2 N1))
    as [w3 [E3 [N3 [new3 [R3 M3]]]]].
  assert (Happ : apply_script (encode_script env args v) g = Some w3).
  { unfold encode_script. rewrite apply_script_cons. cbn [snd].
    unfold cypher_create_event. rewrite Hfresh. cbn [create_node fst].
    fold e. fold g1. rewrite apply_script_app, E1, apply_script_app, E2.
    exact E3. }
  assert (Hdb : g' = w3).
  { destruct (@handleEncodeMemory_run env args v g Hv He) as [_ Hrun].
    rewrite run_script_all_up in Hrun by exact Hup.
    rewrite run_script_shift, Happ, Hup in Hrun.
    destruct Hrun as [Hdb _]. exact Hdb. }
  rewrite Hdb. split; [rewrite N3, N2, N1; reflexivity|].
  exists (new1 ++ new2 ++ new3). split.
  - rewrite R3, R2, R1. cbn [rels g1]. now rewrite <- !app_assoc.
  - unfold encode_edges. now rewrite !map_app, M1, M2, M3.
Qed.

Lemma encode_memory_links_what_resolves_witness :
  exists new,
    rels (db (snd (handleEncodeMemory env_up linking (boot ann_and_bob))))
    = rels ann_and_bob ++ new
    /\ map edge_of new
       = [ (2%nat, INVOLVES, 0%nat,
            [("role", VStr "subject"); ("salience", VNum (1 # 1))]);
           (2%nat, CONSOLIDATED_TO, 1%nat,
            [("strength", VNum (1 # 2));
             ("consolidation_type", VStr "semantic");
             ("rehearsal_count", VInt 1)]) ].
Proof.
  exact (proj2 (@encode_memory_links_what_resolves env_up linking ann_and_bob
                  sample_vector eq_refl eq_refl (fun _ => eq_refl) eq_refl)).
Defined.

(** ** Atomicity of the two write pipelines *)

Lemma extends_refl (g : Graph) : extends g g.
Proof.
  exists [], []. rewrite !app_nil_r. repeat split. constructor.
Qed.

Lemma extends_trans (g1 g2 g3 : Graph) :
  extends g1 g2 -> extends g2 g3 -> extends g1 g3.
Proof.
  intros [n1 [r1 [Hn1 [Hr1 F1]]]] [n2 [r2 [Hn2 [Hr2 F2]]]].
  exists (n1 ++ n2), (r1 ++ r2).
  rewrite Hn2, Hn1, Hr2, Hr1, !app_assoc. repeat split.
  apply Forall_app. now split.
Qed.

Lemma extends_grows (g g' : Graph) : extends g g' -> grows g g'.
Proof. intros [ns [rs [Hn [Hr _]]]]. now exists ns, rs. Qed.

Lemma extends_events (pat : list (string * string)) (g g' : Graph) :
  extends g g' -> match_nodes Event pat g' = match_nodes Event pat g.
Proof.
  intros [ns [rs [Hn [_ F]]]]. unfold match_nodes. rewrite Hn, filter_app.
  assert (Hno : filter (fun n => Label_eqb Event (nlabel n) && has_props pat n)
                       ns = []).
  { clear Hn. induction F as [|n ns Hl _ IH]; [reflexivity|]. cbn [filter].
    destruct (nlabel n); try contradiction; exact IH. }
  rewrite Hno. apply app_nil_r.
Qed.

Lemma merge_rel_extends (t : RelType) (a b : nat) (g : Graph) :
  extends g (merge_rel t a b g).
Proof.
  unfold merge_rel. destruct (rels_between t a b g); [|apply extends_refl].
  eexists [], [_]. cbn. rewrite app_nil_r. repeat split. constructor.
Qed.

Lemma link_of_extends (t : RelType) (out : bool) (e x : Node) (g : Graph) :
  extends g (link_of t out e x g).
Proof. unfold link_of. destruct out; apply merge_rel_extends. Qed.

Lemma for_rows_extends {A} (rows : list A) (f : A -> Graph -> Graph)
    (g : Graph) :
  (forall row g', extends g' (f row g')) -> extends g (for_rows rows f g).
Proof.
  intros Hf. apply (for_rows_inv (extends g)); [|apply extends_refl].
  intros row g' Hg'. exact (extends_trans Hg' (Hf row g')).
Qed.

Lemma merge_node_extends (l : Label) (pat : list (string * string))
    (oc : Props) (g : Graph) :
  l <> Event -> extends g (fst (merge_node l pat oc g)).
Proof.
  intros Hl. unfold merge_node. destruct (match_nodes l pat g);
    [|apply extends_refl].
  eexists [_], []. cbn. rewrite app_nil_r. repeat split.
  constructor; [exact Hl|constructor].
Qed.

Lemma in_match_grows (l : Label) (pat : list (string * string)) (x : Node)
    (g g' : Graph) :
  grows g g' -> In x (match_nodes l pat g) -> In x (match_nodes l pat g').
Proof.
  intros [ns [rs [Hn _]]]. unfold match_nodes. rewrite Hn, filter_app.
  intros H. apply in_or_app. now left.
Qed.

Lemma rels_between_grows (t : RelType) (a b : nat) (g g' : Graph) :
  grows g g' -> rels_between t a b g <> [] -> rels_between t a b g' <> [].
Proof.
  intros [ns [rs [_ Hr]]]. unfold rels_between. rewrite Hr, filter_app.
  intros H Habs. apply app_eq_nil in Habs as [Habs _]. contradiction.
Qed.

Lemma joined_grows (l : Label) (pat : list (string * string)) (t : RelType)
    (out : bool) (e : Node) (g g' : Graph) :
  grows g g' -> joined l pat t out e g -> joined l pat t out e g'.
Proof.
  intros Hg [x [Hx Hl]]. exists x. split.
  - exact (@in_match_grows l pat x g g' Hg Hx).
  - exact (@linked_grows t out e x g g' Hg Hl).
Qed.

Lemma bound_grows (e : Node) (b : Binding) (g g' : Graph) :
  grows g g' -> bound e g b -> bound e g' b.
Proof.
  intros Hg. destruct b; cbn [bound]; try apply (joined_grows Hg).
  intros [f [t [Hf [Hl [Hp [Hhad [Ht Hwrt]]]]]]]. exists f, t.
  split.
  { destruct Hg as [ns [rs [Hn _]]]. rewrite Hn. apply in_or_app. now left. }
  split; [exact Hl|]. split; [exact Hp|].
  split; [exact (@rels_between_grows _ _ _ g g' Hg Hhad)|].
  split; [exact (@in_match_grows _ _ t g g' Hg Ht)|].
  exact (@rels_between_grows _ _ _ g g' Hg Hwrt).
Qed.

(** A bind statement on a graph in which the event is bound: it runs, adds
    no Event, and leaves its reference node joined with the event. *)
Lemma bind_statement_joins (eventId : string) (r0 : Ref) (oc : Props)
    (t : RelType) (out : bool) (e0 : Node) (w : Graph) :
  match_nodes Event [("id", eventId)] w = [e0] ->
  exists w1,
    bind_statement eventId r0 oc t out w = Some (w1, tt)
    /\ extends w w1
    /\ joined (ref_label r0) (ref_pattern r0) t out e0 w1.
Proof.
  intros He. unfold bind_statement, match_merge_link. rewrite He.
  rewrite for_rows_cons. unfold for_rows at 1. cbn [fold_left].
  assert (Hl : ref_label r0 <> Event) by (destruct r0; discriminate).
  pose proof (@merge_node_extends (ref_label r0) (ref_pattern r0) oc w Hl)
    as Hext.
  destruct (merge_node (ref_label r0) (ref_pattern r0) oc w) as [g2 xs] eqn:Hm.
  cbn [fst] in Hext.
  eexists. split; [reflexivity|]. split.
  { apply (extends_trans Hext). apply for_rows_extends.
    intros x g'. apply link_of_extends. }
  assert (Hxs : exists x rest, xs = x :: rest /\ In x (match_nodes (ref_label r0)
                                                      (ref_pattern r0) g2)).
  { destruct (merge_node_ref r0 oc w) as [[Hc Hm']|[Hc Hm']];
      rewrite Hm' in Hm; injection Hm as <- <-.
    - eexists _, []. split; [reflexivity|].
      rewrite match_nodes_nodes. cbn [nodes]. rewrite filter_app.
      apply in_or_app. right. cbn [filter].
      rewrite new_ref_node_matches. now left.
    - unfold count_ref in Hc.
      destruct (match_nodes (ref_label r0) (ref_pattern r0) w) as [|x rest];
        [contradiction|].
      exists x, rest. split; [reflexivity|now left]. }
  destruct Hxs as [x [rest [-> Hx]]].
  rewrite for_rows_cons.
  assert (Hg : grows (link_of t out e0 x g2)
                     (for_rows rest (link_of t out e0) (link_of t out e0 x g2))).
  { apply extends_grows, for_rows_extends. intros y g'. apply link_of_extends. }
  exists x. split.
  - apply (@in_match_grows _ _ x g2 _); [|exact Hx].
    apply (grows_trans (extends_grows (link_of_extends t out e0 x g2)) Hg).
  - exact (@linked_grows t out e0 x _ _ Hg (link_of_linked t out e0 x g2)).
Qed.

(** The effect statement on a graph in which the event is bound: it runs,
    adds no Event, and leaves an Effect node with the entry's properties
    between the event and the Target. *)
Lemma cypher_effect_binds (eventId : string) (x : EffectEntry) (e0 : Node)
    (w : Graph) :
  match_nodes Event [("id", eventId)] w = [e0] ->
  exists w1,
    cypher_effect eventId x w = Some (w1, tt)
    /\ extends w w1
    /\ bound e0 w1 (BEffect x).
Proof.
  intros He. unfold cypher_effect. rewrite He.
  rewrite for_rows_cons. unfold for_rows at 1. cbn [fold_left].
  set (r0 := RTarget (effect_target_id x) (effect_target_kind x)).
  change (merge_node Target _ [] w)
    with (merge_node (ref_label r0) (ref_pattern r0) [] w).
  assert (Hl : ref_label r0 <> Event) by discriminate.
  pose proof (@merge_node_extends (ref_label r0) (ref_pattern r0) [] w Hl)
    as Hext.
  destruct (merge_node (ref_label r0) (ref_pattern r0) [] w) as [g2 ts] eqn:Hm.
  cbn [fst] in Hext.
  set (step := fun (t : Node) (g3 : Graph) =>
                 let (g4, f) :=
                   create_node Effect
                     [("summary", VStr (summary x));
                      ("valence", VStr (valence x));
                      ("intensity", VNum (intensity x))] g3 in
                 merge_rel WITH_RESPECT_TO (nid f) (nid t)
                   (merge_rel HAD_EFFECT_ON (nid e0) (nid f) g4)).
  assert (Hstep : forall t g3, extends g3 (step t g3)).
  { intros t g3. unfold step. cbn [create_node].
    eapply extends_trans; [|apply merge_rel_extends].
    eapply extends_trans; [|apply merge_rel_extends].
    eexists [_], []. cbn. rewrite app_nil_r. repeat split.
    constructor; [discriminate|constructor]. }
  eexists. split; [reflexivity|]. split.
  { apply (extends_trans Hext). apply for_rows_extends. exact Hstep. }
  assert (Hts : exists t rest, ts = t :: rest
                               /\ In t (match_nodes (ref_label r0)
                                          (ref_pattern r0) g2)).
  { destruct (merge_node_ref r0 [] w) as [[Hc Hm']|[Hc Hm']];
      rewrite Hm' in Hm; injection Hm as <- <-.
    - eexists _, []. split; [reflexivity|].
      rewrite match_nodes_nodes. cbn [nodes]. rewrite filter_app.
      apply in_or_app. right. cbn [filter].
      rewrite new_ref_node_matches. now left.
    - unfold count_ref in Hc. subst r0. cbn [ref_label ref_pattern] in *.
      destruct (match_nodes Target _ w) as [|t rest]; [contradiction|].
      exists t, rest. split; [reflexivity|now left]. }
  destruct Hts as [t [rest [-> Ht]]].
  rewrite for_rows_cons. fold step.
  assert (Hg : grows (step t g2) (for_rows rest step (step t g2))).
  { apply extends_grows, for_rows_extends. exact Hstep. }
  apply (@bound_grows e0 (BEffect x) _ _ Hg).
  cbn [bound]. unfold step. cbn [create_node].
  set (f := mkNode (fresh g2) Effect _).
  set (g4 := mkGraph (nodes g2 ++ [f]) (rels g2) (S (fresh g2))).
  exists f, t.
  split.
  { rewrite !merge_rel_nodes. cbn [nodes g4]. apply in_or_app. right.
    now left. }
  split; [reflexivity|]. split; [reflexivity|].
  split.
  { apply (@rels_between_grows _ _ _ (merge_rel HAD_EFFECT_ON (nid e0) (nid f) g4));
      [apply merge_rel_grows|apply merge_rel_linked]. }
  split; [|apply merge_rel_linked].
  apply (@in_match_grows _ _ t g2); [|exact Ht].
  apply (@grows_trans _ g4).
  { eexists [_], []. cbn. now rewrite app_nil_r. }
  apply (@grows_trans _ (merge_rel HAD_EFFECT_ON (nid e0) (nid f) g4));
    apply merge_rel_grows.
Qed.

(** Every statement of a block binds what its entry asks. *)
Lemma binding_step_binds (eventId : string) (b : Binding) (e0 : Node)
    (w : Graph) :
  match_nodes Event [("id", eventId)] w = [e0] ->
  exists w1,
    snd (binding_step eventId b) w = Some (w1, tt)
    /\ extends w w1
    /\ bound e0 w1 b.
Proof.
  intros He. destruct b; cbn [binding_step snd bound].
  - exact (@bind_statement_joins eventId (RPlace placeName) [] HELD_AT true
             e0 w He).
  - exact (@bind_statement_joins eventId (RPerson name) [] PARTICIPATED_IN
             false e0 w He).
  - exact (@bind_statement_joins eventId (RAgent agentId) [] PARTICIPATED_IN
             false e0 w He).
  - exact (@bind_statement_joins eventId (RCatalyst reason) [] CATALYZED_BY
             true e0 w He).
  - exact (@bind_statement_joins eventId (REntity (ref_id x))
             (entity_on_create x) INVOLVED_IN false e0 w He).
  - exact (@bind_statement_joins eventId (REntity (ref_id x))
             (entity_on_create x) PRODUCED true e0 w He).
  - exact (@cypher_effect_binds eventId x e0 w He).
Qed.

Lemma bindings_bound (eventId : string) (e0 : Node) (bs : list Binding) :
  forall w,
    match_nodes Event [("id", eventId)] w = [e0] ->
    exists w',
      apply_script (map (binding_step eventId) bs) w = Some w'
      /\ extends w w'
      /\ Forall (bound e0 w') bs.
Proof.
  induction bs as [|b bs IH]; intros w He.
  - exists w. split; [reflexivity|]. split; [apply extends_refl|constructor].
  - destruct (@binding_step_binds eventId b e0 w He) as [w1 [E1 [X1 B1]]].
    assert (He1 : match_nodes Event [("id", eventId)] w1 = [e0])
      by (now rewrite (extends_events _ X1)).
    destruct (IH w1 He1) as [w' [E' [X' B']]].
    exists w'. cbn [map]. rewrite apply_script_cons, E1.
    split; [exact E'|]. split; [exact (extends_trans X1 X')|].
    constructor; [|exact B'].
    exact (@bound_grows e0 b w1 w' (extends_grows X') B1).
Qed.

Lemma who_steps_bindings (eventId : string) (l : list Participant) :
  flat_map (who_steps eventId) l
  = map (binding_step eventId) (flat_map who_bindings l).
Proof.
  induction l as [|p l IH]; [reflexivity|].
  cbn [flat_map]. rewrite map_app, IH. f_equal.
  unfold who_steps, who_bindings.
  destruct (String.eqb (participant_type p) "person"); [reflexivity|].
  destruct (String.eqb (participant_type p) "agent"); reflexivity.
Qed.

Lemma write_script_bindings (env : Env) (ev : WriteEvent) :
  write_script env ev
  = ("CREATE Event",
     cypher_create_event (written_id env ev)
       (write_event_props (written_id env ev) (written_at env ev) ev))
    :: map (binding_step (written_id env ev)) (bindings ev).
Proof.
  unfold write_script, bindings.
  rewrite !map_app, !map_map, who_steps_bindings. f_equal. f_equal.
  destruct (or_null_str (where_ ev)); reflexivity.
Qed.

(** What the script of hippocampus_write_event leaves when every
    statement runs: the new Event node, bound as every entry of its blocks
    asks, after everything that was stored before. *)
Lemma write_script_binds (env : Env) (ev : WriteEvent) (g w : Graph) :
  apply_script (write_script env ev) g = Some w ->
  let e := written_event env ev g in
  grows g w
  /\ match_nodes Event [("id", written_id env ev)] w = [e]
  /\ In e (nodes w)
  /\ Forall (bound e w) (bindings ev).
Proof.
  intros Happ e. rewrite write_script_bindings, apply_script_cons in Happ.
  cbn [snd] in Happ. unfold cypher_create_event in Happ.
  destruct (match_nodes Event [("id", written_id env ev)] g) eqn:Hfresh;
    [|discriminate].
  cbn [create_node fst] in Happ. fold (written_event env ev g) in Happ.
  fold e in Happ.
  set (w0 := mkGraph (nodes g ++ [e]) (rels g) (S (fresh g))) in Happ.
  assert (He : match_nodes Event [("id", written_id env ev)] w0 = [e]).
  { rewrite match_nodes_nodes. cbn [nodes w0].
    rewrite filter_app, <- match_nodes_nodes, Hfresh. cbn [filter app].
    assert (Hyes : matches Event [("id", written_id env ev)] e = true).
    { unfold matches, has_props, e, written_event, write_event_props. simpl.
      now rewrite String.eqb_refl. }
    now rewrite Hyes. }
  destruct (@bindings_bound (written_id env ev) e (bindings ev) w0 He)
    as [w' [E' [X' B']]].
  rewrite E' in Happ. injection Happ as <-.
  assert (Hg0 : grows g w0).
  { eexists [_], []. cbn. now rewrite app_nil_r. }
  split; [exact (grows_trans Hg0 (extends_grows X'))|].
  split; [now rewrite (extends_events _ X')|].
  split; [|exact B'].
  destruct X' as [ns [rs [Hn _]]]. rewrite Hn. cbn [nodes w0].
  apply in_or_app. left. apply in_or_app. right. now left.
Qed.

(** What the script of encode_memory leaves when the id is unused: the new
    Event node and one relationship per reference and node it resolves
    to. *)
Lemma encode_script_edges (env : Env) (args : EncodeArgs) (g : Graph)
    (v : list Q) :
  match_nodes Event [("id", env_uuid env)] g = [] ->
  let e := encoded_event env args v g in
  let g1 := mkGraph (nodes g ++ [e]) (rels g) (S (fresh g)) in
  exists w,
    apply_script (encode_script env args v) g = Some w
    /\ nodes w = nodes g ++ [e]
    /\ exists new,
         rels w = rels g ++ new /\ map edge_of new = encode_edges g1 e args.
Proof.
  intros Hfresh e g1.
  destruct (@run_map_edges _ (involves args) "INVOLVES"
              (cypher_involves (env_uuid env)) (involves_edges g1 e)
              (nodes g1)
              (fun i w => @involves_adds env args g v Hfresh i w) g1 eq_refl)
    as [w1 [E1 [N1 [new1 [R1 M1]]]]].
  destruct (@run_map_edges _ (precedes args) "PRECEDED"
              (cypher_preceded (env_uuid env)) (preceded_edges g1 e)
              (nodes g1)
              (fun p w => @preceded_adds env args g v Hfresh p w) w1 N1)
    as [w2 [E2 [N2 [new2 [R2 M2]]]]].
  destruct (@run_map_edges _ (consolidates_to args) "CONSOLIDATED_TO"
              (cypher_consolidated (env_uuid env)) (consolidated_edges g1 e)
              (nodes g1)
              (fun c w => @consolidated_adds env args g v Hfresh c w) w2
              (eq_trans N2 N1))
    as [w3 [E3 [N3 [new3 [R3 M3]]]]].
  exists w3. split.
  { unfold encode_script. rewrite apply_script_cons. cbn [snd].
    unfold cypher_create_event. rewrite Hfresh. cbn [create_node fst].
    fold (encoded_event env args v g). fold e. fold g1.
    rewrite apply_script_app, E1, apply_script_app, E2.
    exact E3. }
  split; [rewrite N3, N2, N1; reflexivity|].
  exists (new1 ++ new2 ++ new3). split.
  - rewrite R3, R2, R1. cbn [rels g1]. now rewrite <- !app_assoc.
  - unfold encode_edges. now rewrite !map_app, M1, M2, M3.
Qed.

Lemma encode_script_fresh (env : Env) (args : EncodeArgs) (g w : Graph)
    (v : list Q) :
  apply_script (encode_script env args v) g = Some w ->
  match_nodes Event [("id", env_uuid env)] g = [].
Proof.
  unfold encode_script. rewrite apply_script_cons. cbn [snd].
  unfold cypher_create_event.
  destruct (match_nodes Event [("id", env_uuid env)] g);
    [reflexivity|discriminate].
Qed.

(** C3: a call of encode_memory or hippocampus_write_event either throws
    and leaves the store exactly as it was, or commits the whole script in
    one commit; in both cases no transaction stays open.  What a commit of
    hippocampus_write_event leaves is the store as it was, the new Event
    node, and for every entry of its where, who, why, what and effects
    blocks the node the entry names joined with the event by the
    relationship of the block (an Effect node of its own between the event
    and the Target for an effect).  What a commit of encode_memory leaves
    is the nodes as they were and the new Event node, and the relationships
    as they were and one INVOLVES, PRECEDED or CONSOLIDATED_TO relationship
    per reference and node the reference resolves to.  A store failure at
    any create or bind statement, or at the commit, always gives the first
    case. *)
Theorem write_pipelines_are_atomic :
  (forall env args g,
      let r := handleEncodeMemory env args (boot g) in
      txn (snd r) = None
      /\ ((is_throw (fst r) = true /\ db (snd r) = g)
          \/ exists v,
               env_embed env (embeddingText (event args)) = Some v
               /\ apply_script (encode_script env args v) g = Some (db (snd r))
               /\ let e := encoded_event env args v g in
                  nodes (db (snd r)) = nodes g ++ [e]
                  /\ exists new,
                       rels (db (snd r)) = rels g ++ new
                       /\ map edge_of new
                          = encode_edges
                              (mkGraph (nodes g ++ [e]) (rels g) (S (fresh g)))
                              e args)
      /\ forall v,
           env_embed env (embeddingText (event args)) = Some v ->
           store_fails_within env
             (S (List.length (encode_script env args v))) = true ->
           is_throw (fst r) = true /\ db (snd r) = g)
  /\
  (forall env ev g,
      let r := handleWriteEvent env ev (boot g) in
      txn (snd r) = None
      /\ ((is_throw (fst r) = true /\ db (snd r) = g)
          \/ (fst r = Return (mkWriteReply (written_id env ev)
                                (written_at env ev) (title ev))
              /\ apply_script (write_script env ev) g = Some (db (snd r))
              /\ let e := written_event env ev g in
                 grows g (db (snd r))
                 /\ match_nodes Event [("id", written_id env ev)] (db (snd r))
                    = [e]
                 /\ In e (nodes (db (snd r)))
                 /\ Forall (bound e (db (snd r))) (bindings ev)))
      /\ (store_fails_within env
            (S (List.length (write_script env ev))) = true ->
          is_throw (fst r) = true /\ db (snd r) = g)).
Proof.
  split.
  - intros env args g r.
    destruct (valid_event (event args)) eqn:Hv.
    2:{ destruct (@encode_memory_invalid env args g Hv) as [msg Hrun].
        unfold r. rewrite Hrun. simpl. repeat split; auto. }
    destruct (env_embed env (embeddingText (event args))) as [v|] eqn:He.
    2:{ unfold r. rewrite (@encode_memory_no_embedding env args g Hv He).
        simpl. split; [reflexivity|]. split; [now left|]. discriminate. }
    destruct (@handleEncodeMemory_run env args v g Hv He) as [Htx Hrun].
    fold r in Htx, Hrun. split; [exact Htx|].
    destruct (run_script (env_store_fails env) 0 (encode_script env args v) g)
      as [w|] eqn:Hs.
    + destruct (env_store_fails env (List.length (encode_script env args v)))
        eqn:Hc.
      * split; [left; exact Hrun|].
        intros v' Hv' _. exact Hrun.
      * destruct Hrun as [Hdb _]. split.
        { right. exists v. split; [reflexivity|].
          pose proof (run_script_apply _ _ _ Hs) as Happ.
          rewrite Hdb. split; [exact Happ|].
          destruct (@encode_script_edges env args g v
                      (@encode_script_fresh env args g w v Happ))
            as [w' [Happ' Hres]].
          rewrite Happ in Happ'. injection Happ' as <-. exact Hres. }
        intros v' Hv' Hfail. injection Hv' as <-.
        destruct (@failure_stops_script (env_store_fails env)
                    (encode_script env args v) g Hfail) as [Habs|Habs];
          congruence.
    + split; [left; exact Hrun|]. intros v' _ _. exact Hrun.
  - intros env ev g r.
    destruct (@handleWriteEvent_run env ev g) as [Htx Hrun].
    fold r in Htx, Hrun. split; [exact Htx|].
    destruct (run_script (env_store_fails env) 0 (write_script env ev) g)
      as [w|] eqn:Hs.
    + destruct (env_store_fails env (List.length (write_script env ev)))
        eqn:Hc.
      * split; [left; exact Hrun|]. intros _. exact Hrun.
      * destruct Hrun as [Hret Hdb]. split.
        { right. split; [exact Hret|].
          pose proof (run_script_apply _ _ _ Hs) as Happ.
          rewrite Hdb. split; [exact Happ|].
          exact (@write_script_binds env ev g w Happ). }
        intros Hfail.
        destruct (@failure_stops_script (env_store_fails env)
                    (write_script env ev) g Hfail) as [Habs|Habs];
          congruence.
    + split; [left; exact Hrun|]. intros _. exact Hrun.
Qed.

Lemma linking_commits :
  is_throw (fst (handleEncodeMemory env_up linking (boot ann_and_bob))) = false.
Proof. vm_compute. reflexivity. Qed.

Lemma kickoff_commits :
  is_throw (fst (handleWriteEvent env_up kickoff (boot empty_graph))) = false.
Proof. vm_compute. reflexivity. Qed.

Lemma write_pipelines_are_atomic_witness :
  (exists new,
      rels (after_encode env_up linking ann_and_bob) = rels ann_and_bob ++ new
      /\ map edge_of new
         = [ (2%nat, INVOLVES, 0%nat,
              [("role", VStr "subject"); ("salience", VNum (1 # 1))]);
             (2%nat, CONSOLIDATED_TO, 1%nat,
              [("strength", VNum (1 # 2));
               ("consolidation_type", VStr "semantic");
               ("rehearsal_count", VInt 1)]) ])
  /\ Forall (bound (written_event env_up kickoff empty_graph)
                   (after_write env_up kickoff empty_graph))
            [BHeldAt "HQ"; BPerson "Alice"; BCatalyst "deadline";
             BEffect (mkEffectEntry "relief" "positive" (7 # 1) "Alice" "HUMAN")]
  /\ (is_throw (fst (handleEncodeMemory env_store_down_at_2 involving_ann
                       (boot ann_and_bob))) = true
      /\ after_encode env_store_down_at_2 involving_ann ann_and_bob
         = ann_and_bob)
  /\ (is_throw (fst (handleWriteEvent env_store_down_at_2 kickoff
                       (boot empty_graph))) = true
      /\ after_write env_store_down_at_2 kickoff empty_graph = empty_graph).
Proof.
  destruct write_pipelines_are_atomic as [Henc Hwr].
  split; [|split; [|split]].
  - destruct (Henc env_up linking ann_and_bob)
      as [_ [[[Habs _]|[v [Hv [_ [_ H]]]]] _]].
    + rewrite linking_commits in Habs. discriminate Habs.
    + injection Hv as <-. exact H.
  - destruct (Hwr env_up kickoff empty_graph)
      as [_ [[[Habs _]|[_ [_ [_ [_ [_ H]]]]]] _]].
    + rewrite kickoff_commits in Habs. discriminate Habs.
    + exact H.
  - destruct (Henc env_store_down_at_2 involving_ann ann_and_bob)
      as [_ [_ H]].
    exact (H sample_vector eq_refl eq_refl).
  - destruct (Hwr env_store_down_at_2 kickoff empty_graph) as [_ [_ H]].
    exact (H eq_refl).
Defined.

(** ** The claims on sample calls *)

Lemma references_upserted_occurrences_created_witness :
  count_ref (RPerson "Alice") two_events = 1%nat
  /\ count_ref (RPlace "HQ") two_events = 1%nat
  /\ count_ref (RCatalyst "deadline") two_events = 1%nat
  /\ count_ref (RTarget "Alice" "HUMAN") two_events = 1%nat
  /\ count_nodes Event two_events = 2%nat
  /\ count_nodes Effect two_events = 2%nat.
Proof.
  assert (Hu : unique_refs empty_graph) by (intros r; cbv; lia).
  destruct (@references_upserted_occurrences_created empty_graph env_up
              env_later kickoff retro Hu eq_refl eq_refl)
    as [Hone [_ [_ [Hev [_ Hef]]]]].
  split; [apply Hone; left; simpl; now left|].
  split; [apply Hone; left; reflexivity|].
  split; [apply Hone; left; simpl; now left|].
  split; [apply Hone; left; simpl; eexists; split; [now left|split; reflexivity]|].
  split; [exact Hev|exact Hef].
Defined.

Lemma encode_memory_skips_unresolved_witness :
  is_throw (fst (handleEncodeMemory env_up dangling (boot ann_and_bob))) = false
  /\ rels (after_encode env_up dangling ann_and_bob) = []
  /\ List.length (nodes (after_encode env_up dangling ann_and_bob)) = 3%nat.
Proof.
  destruct encode_memory_skips_unresolved as [_ [_ [_ H]]].
  destruct (H env_up dangling ann_and_bob sample_vector eq_refl eq_refl
              (fun _ => eq_refl) eq_refl)
    as [reply [Hret [Hnodes [_ [_ Hrels]]]]].
  split; [now rewrite Hret|].
  split.
  - apply Hrels.
    + intros i [<-|[]]. split; [discriminate|reflexivity].
    + intros p [<-|[]]. split; [discriminate|reflexivity].
    + intros c [<-|[]]. split; [discriminate|reflexivity].
  - unfold after_encode. rewrite Hnodes. reflexivity.
Defined.

(** ** What the head of a read statement binds *)

Lemma run_clause_keeps_event (env : Env) (g : Graph)
    (P : Node -> option Q -> Prop) (c : Clause) (rows : list Row) :
  keeps_score c = true ->
  Forall (fun r => P (row_e r) (row_score r)) rows ->
  Forall (fun r => P (row_e r) (row_score r)) (run_clause env g rows c).
Proof.
  intros Hc Hrows. rewrite Forall_forall in *.
  destruct c; try discriminate; simpl; intros r Hr.
  - apply in_map_iff in Hr. destruct Hr as [r0 [<- Hr0]]. simpl. now apply Hrows.
  - apply in_flat_map in Hr. destruct Hr as [r0 [Hr0 Hr]].
    apply in_map_iff in Hr. destruct Hr as [x [<- _]]. simpl. now apply Hrows.
  - apply filter_In in Hr. now apply Hrows.
Qed.

Lemma run_clauses_keep_event (env : Env) (g : Graph)
    (P : Node -> option Q -> Prop) (q : list Clause) :
  forallb keeps_score q = true ->
  forall rows,
    Forall (fun r => P (row_e r) (row_score r)) rows ->
    Forall (fun r => P (row_e r) (row_score r))
           (fold_left (run_clause env g) q rows).
Proof.
  induction q as [|c q IH]; simpl; intros Hq rows Hrows; [exact Hrows|].
  apply andb_prop in Hq as [Hc Hq].
  apply IH; [exact Hq|]. now apply run_clause_keeps_event.
Qed.

(** [WITH e MATCH <j> WHERE <atom on the matched node>] keeps an event only
    with a matched node that passes. *)
Lemma join_segment_sound (env : Env) (g : Graph) (j : Join) (atom : Atom)
    (pred : Node -> bool) (rows : list Row) :
  (forall r x, row_x r = Some x -> holds g r atom = true -> pred x = true) ->
  Forall (fun r => existsb pred (join_nodes j (row_e r) g) = true)
         (fold_left (run_clause env g) [CWith; CMatch j; CWhere [atom]] rows).
Proof.
  intros Hatom. apply Forall_forall. intros r Hr.
  cbn [fold_left run_clause] in Hr.
  apply filter_In in Hr. destruct Hr as [Hr Hh].
  cbn [forallb] in Hh. rewrite andb_true_r in Hh.
  apply in_flat_map in Hr. destruct Hr as [r1 [_ Hr]].
  apply in_map_iff in Hr. destruct Hr as [x [<- Hx]].
  cbn [row_e]. apply existsb_exists. exists x. split; [exact Hx|].
  eapply Hatom; [|exact Hh]. reflexivity.
Qed.

Lemma nonempty_join_sound (env : Env) (g : Graph) (l : list string) (j : Join)
    (atom : Atom) (pred : Node -> bool) (rows : list Row) :
  (forall r x, row_x r = Some x -> holds g r atom = true -> pred x = true) ->
  Forall (fun r => match l with
                   | [] => true
                   | _ => existsb pred (join_nodes j (row_e r) g)
                   end = true)
         (fold_left (run_clause env g) (nonempty_join l j atom) rows).
Proof.
  intros Hatom. destruct l as [|x l].
  - apply Forall_forall. intros r _. reflexivity.
  - exact (@join_segment_sound env g j atom pred rows Hatom).
Qed.

Lemma where_clause_sound (env : Env) (g : Graph) (atoms : list Atom)
    (rows : list Row) :
  Forall (fun r => forallb (holds g r) atoms = true)
         (fold_left (run_clause env g) (where_clause atoms) rows).
Proof.
  apply Forall_forall. intros r Hr. destruct atoms as [|a atoms]; [reflexivity|].
  cbn [where_clause fold_left run_clause] in Hr.
  apply filter_In in Hr. exact (proj2 Hr).
Qed.

Lemma nonempty_join_keeps (l : list string) (j : Join) (atom : Atom) :
  forallb keeps_score (nonempty_join l j atom) = true.
Proof. now destruct l. Qed.

Lemma where_clause_keeps (atoms : list Atom) :
  forallb keeps_score (where_clause atoms) = true.
Proof. now destruct atoms. Qed.

Lemma participant_atom (g : Graph) (l : list string) (r : Row) (x : Node) :
  row_x r = Some x -> holds g r (AParticipantIn l) = true ->
  participant_in l x = true.
Proof. unfold holds, on_x. intros ->. auto. Qed.

Lemma entity_atom (g : Graph) (l : list string) (r : Row) (x : Node) :
  row_x r = Some x -> holds g r (AEntityIn l) = true -> id_in l x = true.
Proof. unfold holds, on_x. intros ->. auto. Qed.

Lemma intensity_atom (g : Graph) (q : Q) (r : Row) (x : Node) :
  row_x r = Some x -> holds g r (AIntensityAtLeast q) = true ->
  intense q x = true.
Proof. unfold holds, on_x. intros ->. auto. Qed.

Lemma search_where_sound (g : Graph) (a : SearchArgs) (r : Row) :
  forallb (holds g r) (search_whereClauses a) = true ->
  (match time_range a with
   | Some (t0, t1) => between_Z t0 t1 (prop "happened_at" (nprops (row_e r)))
   | None => true
   end)
  && (match or_null_str (place a) with
      | Some p => held_at p (row_e r) g
      | None => true
      end)
  && (match or_null_str (effects_on a) with
      | Some t => effect_on t (row_e r) g
      | None => true
      end) = true.
Proof.
  unfold search_whereClauses. rewrite !forallb_app.
  intros H. apply andb_prop in H as [H1 H2]. apply andb_prop in H2 as [H2 H3].
  apply andb_true_intro. split; [apply andb_true_intro; split|].
  - destruct (time_range a) as [[t0 t1]|]; [|reflexivity].
    cbn in H1. now rewrite andb_true_r in H1.
  - destruct (or_null_str (place a)); [|reflexivity].
    cbn in H2. now rewrite andb_true_r in H2.
  - destruct (or_null_str (effects_on a)); [|reflexivity].
    cbn in H3. now rewrite andb_true_r in H3.
Qed.

Lemma search_rows_sound (env : Env) (g : Graph) (a : SearchArgs) (r : Row) :
  In r (fold_left (run_clause env g) (search_query a) []) ->
  In (row_e r) (stored_events g) /\ search_satisfied g a (row_e r) = true.
Proof.
  unfold search_query. rewrite !fold_left_app.
  set (R0 := fold_left (run_clause env g) [CMatchEvent] []).
  set (s1 := nonempty_join (participants a) JParticipant
               (AParticipantIn (participants a))).
  set (s2 := nonempty_join (entities a) JEntity (AEntityIn (entities a))).
  set (s3 := match min_effect_intensity a with
             | Some q => [CWith; CMatch JEffect; CWhere [AIntensityAtLeast q]]
             | None => []
             end).
  set (s4 := where_clause (search_whereClauses a)).
  set (R1 := fold_left (run_clause env g) s1 R0).
  set (R2 := fold_left (run_clause env g) s2 R1).
  set (R3 := fold_left (run_clause env g) s3 R2).
  assert (K1 : forallb keeps_score s1 = true) by apply nonempty_join_keeps.
  assert (K2 : forallb keeps_score s2 = true) by apply nonempty_join_keeps.
  assert (K3 : forallb keeps_score s3 = true)
    by (unfold s3; now destruct (min_effect_intensity a)).
  assert (K4 : forallb keeps_score s4 = true) by apply where_clause_keeps.
  assert (H0 : Forall (fun r => In (row_e r) (stored_events g)) R0).
  { apply Forall_forall. intros r0 Hr0. unfold R0 in Hr0.
    cbn [fold_left run_clause] in Hr0. apply in_map_iff in Hr0.
    destruct Hr0 as [e [<- He]]. exact He. }
  assert (H1 : Forall (fun r => match participants a with
                                | [] => true
                                | _ => existsb (participant_in (participants a))
                                         (join_nodes JParticipant (row_e r) g)
                                end = true) R1).
  { apply nonempty_join_sound. apply participant_atom. }
  assert (H2 : Forall (fun r => match entities a with
                                | [] => true
                                | _ => existsb (id_in (entities a))
                                         (join_nodes JEntity (row_e r) g)
                                end = true) R2).
  { apply nonempty_join_sound. apply entity_atom. }
  assert (H3 : Forall (fun r => match min_effect_intensity a with
                                | Some q => existsb (intense q)
                                              (join_nodes JEffect (row_e r) g)
                                | None => true
                                end = true) R3).
  { unfold R3, s3. destruct (min_effect_intensity a) as [q|].
    - apply join_segment_sound. apply intensity_atom.
    - apply Forall_forall. intros r0 _. reflexivity. }
  pose proof (where_clause_sound env g (search_whereClauses a) R3) as H4.
  fold s4 in H4.
  intros Hr.
  pose proof (fun P H => @run_clauses_keep_event env g P s4 K4 R3 H) as P4.
  pose proof (fun P H => @run_clauses_keep_event env g P s3 K3 R2 H) as P3.
  pose proof (fun P H => @run_clauses_keep_event env g P s2 K2 R1 H) as P2.
  pose proof (fun P H => @run_clauses_keep_event env g P s1 K1 R0 H) as P1.
  fold R1 in P1. fold R2 in P2. fold R3 in P3.
  pose proof (P4 (fun e _ => In e (stored_events g))
                (P3 _ (P2 _ (P1 (fun e _ => In e (stored_events g)) H0))))
    as F0.
  pose proof (P4 _ (P3 _ (P2 (fun e _ =>
                match participants a with
                | [] => true
                | _ => existsb (participant_in (participants a))
                               (join_nodes JParticipant e g)
                end = true) H1))) as F1.
  pose proof (P4 _ (P3 (fun e _ =>
                match entities a with
                | [] => true
                | _ => existsb (id_in (entities a)) (join_nodes JEntity e g)
                end = true) H2)) as F2.
  pose proof (P4 (fun e _ =>
                match min_effect_intensity a with
                | Some q => existsb (intense q) (join_nodes JEffect e g)
                | None => true
                end = true) H3) as F3.
  rewrite Forall_forall in F0, F1, F2, F3, H4.
  split; [exact (F0 r Hr)|].
  unfold search_satisfied.
  pose proof (search_where_sound g a r (H4 r Hr)) as W.
  apply andb_prop in W as [W W3]. apply andb_prop in W as [W1 W2].
  rewrite (F3 r Hr), W1, W2, W3.
  generalize (F1 r Hr) (F2 r Hr). clear.
  destruct (participants a), (entities a); intros H1 H2;
    rewrite ?H1, ?H2; reflexivity.
Qed.

Lemma recall_where_sound (g : Graph) (a : RecallArgs) (r : Row) :
  forallb (holds g r) (recall_whereClauses a) = true ->
  (match emotional_range a with
   | Some (lo, hi) =>
       match num_of (prop "emotional_valence" (nprops (row_e r))) with
       | Some x => Qle_bool lo x && Qle_bool x hi
       | None => false
       end
   | None => true
   end)
  && (match temporal_range a with
      | Some (t0, t1) => between_Z t0 t1 (prop "timestamp" (nprops (row_e r)))
      | None => true
      end)
  && (match significance_threshold a with
      | Some q => at_least q (prop "significance" (nprops (row_e r)))
      | None => true
      end)
  && (match event_types a with
      | [] => true
      | l => str_in l (prop "type" (nprops (row_e r)))
      end) = true.
Proof.
  unfold recall_whereClauses. rewrite !forallb_app.
  intros H. apply andb_prop in H as [H1 H2]. apply andb_prop in H2 as [H2 H3].
  apply andb_prop in H3 as [H3 H4].
  repeat (apply andb_true_intro; split).
  - destruct (emotional_range a) as [[lo hi]|]; [|reflexivity].
    cbn in H1. now rewrite andb_true_r in H1.
  - destruct (temporal_range a) as [[t0 t1]|]; [|reflexivity].
    cbn in H2. now rewrite andb_true_r in H2.
  - destruct (significance_threshold a); [|reflexivity].
    cbn in H3. now rewrite andb_true_r in H3.
  - destruct (event_types a); [reflexivity|].
    cbn in H4. now rewrite andb_true_r in H4.
Qed.

Lemma recall_rows_sound (env : Env) (g : Graph) (a : RecallArgs)
    (start : list Clause) (P : Node -> option Q -> Prop) (r : Row) :
  Forall (fun r => P (row_e r) (row_score r))
         (fold_left (run_clause env g) start []) ->
  In r (fold_left (run_clause env g) (recall_query start a) []) ->
  P (row_e r) (row_score r) /\ recall_satisfied g a (row_e r) = true.
Proof.
  intros Hstart. unfold recall_query. rewrite !fold_left_app.
  set (R0 := fold_left (run_clause env g) start []) in *.
  set (s1 := nonempty_join (involves_entities a) JInvolves
               (AEntityIn (involves_entities a))).
  set (s2 := where_clause (recall_whereClauses a)).
  set (R1 := fold_left (run_clause env g) s1 R0).
  assert (K1 : forallb keeps_score s1 = true) by apply nonempty_join_keeps.
  assert (K2 : forallb keeps_score s2 = true) by apply where_clause_keeps.
  assert (H1 : Forall (fun r => match involves_entities a with
                                | [] => true
                                | _ => existsb (id_in (involves_entities a))
                                         (join_nodes JInvolves (row_e r) g)
                                end = true) R1).
  { apply nonempty_join_sound. apply entity_atom. }
  pose proof (where_clause_sound env g (recall_whereClauses a) R1) as H2.
  fold s2 in H2.
  pose proof (fun P H => @run_clauses_keep_event env g P s2 K2 R1 H) as P2.
  pose proof (fun P H => @run_clauses_keep_event env g P s1 K1 R0 H) as P1.
  fold R1 in P1.
  pose proof (P2 P (P1 P Hstart)) as F0.
  pose proof (P2 (fun e _ =>
                match involves_entities a with
                | [] => true
                | _ => existsb (id_in (involves_entities a))
                               (join_nodes JInvolves e g)
                end = true) H1) as F1.
  rewrite Forall_forall in F0, F1, H2.
  intros Hr. split; [exact (F0 r Hr)|].
  unfold recall_satisfied.
  pose proof (recall_where_sound g a r (H2 r Hr)) as W.
  apply andb_prop in W as [W W4]. apply andb_prop in W as [W W3].
  apply andb_prop in W as [W1 W2].
  rewrite W1, W2, W3, W4.
  generalize (F1 r Hr). clear.
  destruct (involves_entities a); intros H1; rewrite ?H1; reflexivity.
Qed.

Lemma join_segment_complete (env : Env) (g : Graph) (j : Join) (atom : Atom)
    (pred : Node -> bool) (rows : list Row) (e : Node) :
  (forall r x, row_x r = Some x -> pred x = true -> holds g r atom = true) ->
  (exists r, In r rows /\ row_e r = e) ->
  existsb pred (join_nodes j e g) = true ->
  exists r, In r (fold_left (run_clause env g)
                    [CWith; CMatch j; CWhere [atom]] rows)
            /\ row_e r = e.
Proof.
  intros Hatom [r0 [Hr0 He]] Hex.
  apply existsb_exists in Hex. destruct Hex as [x [Hx Hp]].
  exists (mkRow e (row_score r0) (Some x)). split; [|reflexivity].
  cbn [fold_left run_clause]. apply filter_In. split.
  - apply in_flat_map. exists (mkRow (row_e r0) (row_score r0) None). split.
    + apply in_map_iff. now exists r0.
    + cbn [row_e row_score]. rewrite He. apply in_map_iff. now exists x.
  - cbn [forallb]. rewrite andb_true_r. eapply Hatom; [reflexivity|exact Hp].
Qed.

Lemma nonempty_join_complete (env : Env) (g : Graph) (l : list string)
    (j : Join) (atom : Atom) (pred : Node -> bool) (rows : list Row)
    (e : Node) :
  (forall r x, row_x r = Some x -> pred x = true -> holds g r atom = true) ->
  (exists r, In r rows /\ row_e r = e) ->
  match l with [] => true | _ => existsb pred (join_nodes j e g) end = true ->
  exists r, In r (fold_left (run_clause env g) (nonempty_join l j atom) rows)
            /\ row_e r = e.
Proof.
  intros Hatom Hin Hex. destruct l as [|x l]; [exact Hin|].
  exact (@join_segment_complete env g j atom pred rows e Hatom Hin Hex).
Qed.

Lemma participant_atom_holds (g : Graph) (l : list string) (r : Row) (x : Node) :
  row_x r = Some x -> participant_in l x = true ->
  holds g r (AParticipantIn l) = true.
Proof. unfold holds, on_x. intros ->. auto. Qed.

Lemma entity_atom_holds (g : Graph) (l : list string) (r : Row) (x : Node) :
  row_x r = Some x -> id_in l x = true -> holds g r (AEntityIn l) = true.
Proof. unfold holds, on_x. intros ->. auto. Qed.

Lemma intensity_atom_holds (g : Graph) (q : Q) (r : Row) (x : Node) :
  row_x r = Some x -> intense q x = true ->
  holds g r (AIntensityAtLeast q) = true.
Proof. unfold holds, on_x. intros ->. auto. Qed.

Lemma search_where_complete (g : Graph) (a : SearchArgs) (r : Row) :
  (match time_range a with
   | Some (t0, t1) => between_Z t0 t1 (prop "happened_at" (nprops (row_e r)))
   | None => true
   end) = true ->
  (match or_null_str (place a) with
   | Some p => held_at p (row_e r) g
   | None => true
   end) = true ->
  (match or_null_str (effects_on a) with
   | Some t => effect_on t (row_e r) g
   | None => true
   end) = true ->
  forallb (holds g r) (search_whereClauses a) = true.
Proof.
  intros H1 H2 H3. unfold search_whereClauses. rewrite !forallb_app.
  repeat (apply andb_true_intro; split).
  - destruct (time_range a) as [[t0 t1]|]; [|reflexivity].
    cbn. now rewrite andb_true_r.
  - destruct (or_null_str (place a)); [|reflexivity].
    cbn. now rewrite andb_true_r.
  - destruct (or_null_str (effects_on a)); [|reflexivity].
    cbn. now rewrite andb_true_r.
Qed.

Lemma search_rows_complete (env : Env) (g : Graph) (a : SearchArgs) (e : Node) :
  In e (stored_events g) ->
  search_satisfied g a e = true ->
  exists r, In r (fold_left (run_clause env g) (search_query a) [])
            /\ row_e r = e.
Proof.
  intros He Hsat. unfold search_satisfied in Hsat.
  apply andb_prop in Hsat as [Hsat S6]. apply andb_prop in Hsat as [Hsat S5].
  apply andb_prop in Hsat as [Hsat S4]. apply andb_prop in Hsat as [Hsat S3].
  apply andb_prop in Hsat as [S1 S2].
  unfold search_query. rewrite !fold_left_app.
  assert (H0 : exists r, In r (fold_left (run_clause env g) [CMatchEvent] [])
                         /\ row_e r = e).
  { exists (mkRow e None None). split; [|reflexivity].
    cbn [fold_left run_clause]. apply in_map_iff. now exists e. }
  assert (H1 : exists r,
             In r (fold_left (run_clause env g)
                     (nonempty_join (participants a) JParticipant
                        (AParticipantIn (participants a)))
                     (fold_left (run_clause env g) [CMatchEvent] []))
             /\ row_e r = e).
  { apply (@nonempty_join_complete env g _ _ _
             (participant_in (participants a)));
      [apply participant_atom_holds|exact H0|].
    revert S1. clear. now destruct (participants a). }
  assert (H2 : exists r,
             In r (fold_left (run_clause env g)
                     (nonempty_join (entities a) JEntity
                        (AEntityIn (entities a)))
                     (fold_left (run_clause env g)
                        (nonempty_join (participants a) JParticipant
                           (AParticipantIn (participants a)))
                        (fold_left (run_clause env g) [CMatchEvent] [])))
             /\ row_e r = e).
  { apply (@nonempty_join_complete env g _ _ _ (id_in (entities a)));
      [apply entity_atom_holds|exact H1|].
    revert S2. clear. now destruct (entities a). }
  match goal with
  | |- exists r, In r (fold_left _ _ (fold_left _ ?s3 ?R2)) /\ _ =>
      assert (H3 : exists r, In r (fold_left (run_clause env g) s3 R2)
                             /\ row_e r = e)
  end.
  { destruct (min_effect_intensity a) as [q|]; [|exact H2].
    apply (@join_segment_complete env g _ _ (intense q));
      [apply intensity_atom_holds|exact H2|exact S3]. }
  destruct H3 as [r [Hr Hre]]. exists r. split; [|exact Hre].
  pose proof (@search_where_complete g a r) as W. rewrite Hre in W.
  specialize (W S4 S5 S6).
  destruct (search_whereClauses a) as [|at1 ats]; [exact Hr|].
  cbn [where_clause fold_left run_clause]. apply filter_In. now split.
Qed.

(** X11: the head of the statement that hippocampus_search_events
    assembles binds no event that fails a supplied filter: whenever the
    head parses, each of its rows is on a stored Event that has a
    participant named (or identified) in participants, an involved Entity
    listed in entities, an Effect of at least min_effect_intensity, a
    happened_at inside time_range, the given place and an effect on the
    given target, for each of these that is supplied. *)
Theorem search_head_binds_only_matching
    (env : Env) (a : SearchArgs) (g : Graph) (rows : list Row) :
  run_head env g (search_query a) = Some rows ->
  forall r, In r rows ->
    In (row_e r) (stored_events g) /\ search_satisfied g a (row_e r) = true.
Proof.
  unfold run_head.
  destruct (parses true (search_query a) && forallb typed (search_query a));
    [|discriminate].
  intros H r Hr. injection H as <-.
  exact (@search_rows_sound env g a r Hr).
Qed.

Lemma search_head_binds_only_matching_witness :
  Forall (fun r => In (row_e r) (stored_events two_events)
                   /\ search_satisfied two_events at_hq (row_e r) = true)
         (fold_left (run_clause env_up two_events) (search_query at_hq) []).
Proof.
  apply Forall_forall.
  exact (@search_head_binds_only_matching env_up at_hq two_events _ eq_refl).
Defined.

(** X12: the head of the statement that recall_memory assembles without a
    query string binds no event that fails a supplied filter
    (involves_entities, emotional_range, temporal_range,
    significance_threshold, event_types): whenever the head parses, each of
    its rows is on a stored Event that passes them all, with the score
    0.5. *)
Theorem recall_head_binds_only_matching
    (env : Env) (a : RecallArgs) (g : Graph) (rows : list Row) :
  run_head env g (recall_query [CMatchEvent; CWithScore (5 # 10)] a)
  = Some rows ->
  forall r, In r rows ->
    In (row_e r) (stored_events g)
    /\ row_score r = Some (5 # 10)
    /\ recall_satisfied g a (row_e r) = true.
Proof.
  unfold run_head.
  destruct (parses true _ && forallb typed _); [|discriminate].
  intros H r Hr. injection H as <-.
  destruct (@recall_rows_sound env g a [CMatchEvent; CWithScore (5 # 10)]
              (fun e s => In e (stored_events g) /\ s = Some (5 # 10)) r)
    as [[He Hs] Hsat]; [|exact Hr|now repeat split].
  apply Forall_forall. intros r0 Hr0. cbn in Hr0.
  apply in_map_iff in Hr0. destruct Hr0 as [r1 [<- Hr1]].
  apply in_map_iff in Hr1. destruct Hr1 as [e [<- He]].
  cbn. now split.
Qed.

Lemma recall_head_binds_only_matching_witness :
  Forall (fun r => In (row_e r) (stored_events remembered)
                   /\ row_score r = Some (5 # 10)
                   /\ recall_satisfied remembered significant (row_e r) = true)
         (fold_left (run_clause env_up remembered)
                    (recall_query [CMatchEvent; CWithScore (5 # 10)] significant)
                    []).
Proof.
  apply Forall_forall.
  exact (@recall_head_binds_only_matching env_up significant remembered _
           eq_refl).
Defined.

(** X13: the head of the statement that hippocampus_search_events
    assembles leaves no match out: whenever the head parses, every stored
    Event that passes all supplied filters is on one of its rows (together
    with X11: the head binds exactly the matching events). *)
Theorem search_head_binds_every_match
    (env : Env) (a : SearchArgs) (g : Graph) (rows : list Row) :
  run_head env g (search_query a) = Some rows ->
  forall e, In e (stored_events g) ->
    search_satisfied g a e = true ->
    exists r, In r rows /\ row_e r = e.
Proof.
  unfold run_head.
  destruct (parses true (search_query a) && forallb typed (search_query a));
    [|discriminate].
  intros H e He Hsat. injection H as <-.
  exact (@search_rows_complete env g a e He Hsat).
Qed.

Lemma search_head_binds_every_match_witness :
  Forall (fun e => search_satisfied two_events with_alice e = true ->
                   exists r,
                     In r (fold_left (run_clause env_up two_events)
                                     (search_query with_alice) [])
                     /\ row_e r = e)
         (stored_events two_events).
Proof.
  apply Forall_forall.
  exact (@search_head_binds_every_match env_up with_alice two_events _ eq_refl).
Defined.
